(** * JoinRender-Flow: the workflow engine core

    A shallow embedding of the graph store ([addConnection], [removeNode]),
    the execution scheduler ([getExecutionOrder], [executeNode],
    [executeWorkflow]) and the ComfyUI format translator
    ([importComfyUIWorkflow], [exportToComfyUIWorkflow], [validateWorkflow]),
    followed by the properties the specification states about them. *)

From Equations Require Import Equations.
From Stdlib Require Import List String Ascii ZArith Bool Arith Lia Permutation.
From Stdlib Require Import Relations.Relation_Operators Relations.Operators_Properties.
From Stdlib Require Import DecimalString DecimalNat.
Import ListNotations.
Local Open Scope string_scope.
Local Open Scope list_scope.

(** ** JavaScript values and containers *)

(** The values that literal data holds.  JavaScript numbers are kept to the
    integers. *)
Inductive JsValue : Type :=
| JUndefined
| JNull
| JBool (b : bool)
| JNum (n : Z)
| JStr (s : string).

Definition isUndefined (v : JsValue) : bool :=
  match v with JUndefined => true | _ => false end.

(** A [Map<string, V>], and an object used as a dictionary: the entries in
    insertion order.  A key is held once; [set] on a key that is present keeps
    its place.  (Keys that read as array indices, which an object orders
    first, do not occur among port and parameter names.) *)
Definition JsMap (V : Type) : Type := list (string * V).

Section JsMapOps.
Context {V : Type}.

Fixpoint map_get (k : string) (m : JsMap V) : option V :=
  match m with
  | [] => None
  | (k', v) :: m' => if String.eqb k' k then Some v else map_get k m'
  end.

Fixpoint map_set (k : string) (v : V) (m : JsMap V) : JsMap V :=
  match m with
  | [] => [(k, v)]
  | (k', v') :: m' =>
      if String.eqb k' k then (k', v) :: m' else (k', v') :: map_set k v m'
  end.

Definition map_keys (m : JsMap V) : list string := List.map fst m.
Definition map_values (m : JsMap V) : list V := List.map snd m.

End JsMapOps.

(** Membership of a string in a list, as [Array.prototype.includes] and
    [Set.prototype.has] compute it. *)
Definition includes (l : list string) (x : string) : bool :=
  existsb (String.eqb x) l.

(** ** The data model (types) *)

(** A port type tag is a string at run time. *)
Definition PortType : Type := string.

Inductive PortDirection : Type := input | output.

Record WidgetConfig : Type := {
  wtype : string;
  wdefault : option JsValue;
  wmin : option Z;
  wmax : option Z;
  wstep : option Z;
  woptions : option (list string)
}.

Record Port : Type := {
  pid : string;
  pname : string;
  ptype : PortType;
  direction : PortDirection;
  connected : option bool;
  isReferenceInput : option bool;
  widget : option WidgetConfig
}.

(** [Omit<Port, 'id' | 'direction'>], the port entries of a definition. *)
Record PortSpec : Type := {
  sname : string;
  stype : PortType;
  sconnected : option bool;
  sisReferenceInput : option bool;
  swidget : option WidgetConfig
}.

Record NodeDefinition : Type := {
  dtype : string;
  dname : string;
  dinputs : list PortSpec;
  doutputs : list PortSpec;
  defaultData : option (JsMap JsValue)
}.

Record NodeInstance : Type := {
  nid : string;
  ntype : string;
  position : Z * Z;
  data : JsMap JsValue;
  inputs : list Port;
  outputs : list Port;
  size : option (Z * Z)
}.

Record Connection : Type := {
  cid : string;
  sourceNodeId : string;
  sourcePortId : string;
  targetNodeId : string;
  targetPortId : string;
  ctype : option PortType
}.

(** [Omit<Connection, 'id'>], the argument of [addConnection]. *)
Record ConnectionArg : Type := {
  argSourceNodeId : string;
  argSourcePortId : string;
  argTargetNodeId : string;
  argTargetPortId : string;
  argType : option PortType
}.

(** [`input-${index}`] and [`output-${index}`]. *)
Definition decimal (n : nat) : string := NilZero.string_of_uint (Nat.to_uint n).
Definition inputId (index : nat) : string := "input-" ++ decimal index.
Definition outputId (index : nat) : string := "output-" ++ decimal index.

(** ** The graph store *)

(** The part of the store that the node and connection operations touch. *)
Record WorkflowStore : Type := {
  nodes : list NodeInstance;
  connections : list Connection;
  selectedNodeIds : list string
}.

Definition removeNode (nodeId : string) (state : WorkflowStore) : WorkflowStore :=
  {| nodes := filter (fun n => negb (String.eqb (nid n) nodeId)) (nodes state);
     connections :=
       filter (fun c => negb (String.eqb (sourceNodeId c) nodeId)
                        && negb (String.eqb (targetNodeId c) nodeId))
              (connections state);
     selectedNodeIds :=
       filter (fun id => negb (String.eqb id nodeId)) (selectedNodeIds state) |}.

Definition setConnected (b : bool) (p : Port) : Port :=
  {| pid := pid p; pname := pname p; ptype := ptype p; direction := direction p;
     connected := Some b; isReferenceInput := isReferenceInput p;
     widget := widget p |}.

Definition withOutputs (node : NodeInstance) (ps : list Port) : NodeInstance :=
  {| nid := nid node; ntype := ntype node; position := position node;
     data := data node; inputs := inputs node; outputs := ps; size := size node |}.

Definition withInputs (node : NodeInstance) (ps : list Port) : NodeInstance :=
  {| nid := nid node; ntype := ntype node; position := position node;
     data := data node; inputs := ps; outputs := outputs node; size := size node |}.

(** The test of the first [some]: the same source port and the same target
    port. *)
Definition sameEndpoints (connection : ConnectionArg) (c : Connection) : bool :=
  String.eqb (sourceNodeId c) (argSourceNodeId connection)
  && String.eqb (sourcePortId c) (argSourcePortId connection)
  && String.eqb (targetNodeId c) (argTargetNodeId connection)
  && String.eqb (targetPortId c) (argTargetPortId connection).

(** The test of the second [some] and of the [filter]: the same target port. *)
Definition sameTarget (connection : ConnectionArg) (c : Connection) : bool :=
  String.eqb (targetNodeId c) (argTargetNodeId connection)
  && String.eqb (targetPortId c) (argTargetPortId connection).

Definition mkConnection (newId : string) (connection : ConnectionArg) : Connection :=
  {| cid := newId;
     sourceNodeId := argSourceNodeId connection;
     sourcePortId := argSourcePortId connection;
     targetNodeId := argTargetNodeId connection;
     targetPortId := argTargetPortId connection;
     ctype := argType connection |}.

(** [newId] is the value [uuidv4()] returns in this call. *)
Definition addConnection (newId : string) (connection : ConnectionArg)
    (state : WorkflowStore) : WorkflowStore :=
  let exists_ := existsb (sameEndpoints connection) (connections state) in
  if exists_ then state else
  let targetHasConnection := existsb (sameTarget connection) (connections state) in
  let newConnections :=
    if targetHasConnection
    then filter (fun c => negb (sameTarget connection c)) (connections state)
    else connections state in
  let newConnection := mkConnection newId connection in
  let updatedNodes :=
    List.map (fun node =>
      if String.eqb (nid node) (argSourceNodeId connection) then
        withOutputs node
          (List.map (fun p => if String.eqb (pid p) (argSourcePortId connection)
                              then setConnected true p else p) (outputs node))
      else if String.eqb (nid node) (argTargetNodeId connection) then
        withInputs node
          (List.map (fun p => if String.eqb (pid p) (argTargetPortId connection)
                              then setConnected true p else p) (inputs node))
      else node) (nodes state) in
  {| nodes := updatedNodes;
     connections := newConnections ++ [newConnection];
     selectedNodeIds := selectedNodeIds state |}.

(** [removeConnection], the operation that does recompute the flag of the
    source output. *)
Definition removeConnection (connectionId : string) (state : WorkflowStore)
    : WorkflowStore :=
  match find (fun c => String.eqb (cid c) connectionId) (connections state) with
  | None => state
  | Some connection =>
      let updatedNodes :=
        List.map (fun node =>
          let viaSource :=
            if String.eqb (nid node) (sourceNodeId connection) then
              let hasOtherConnections :=
                existsb (fun c => negb (String.eqb (cid c) connectionId)
                                  && String.eqb (sourceNodeId c) (nid node)
                                  && String.eqb (sourcePortId c) (sourcePortId connection))
                        (connections state) in
              if negb hasOtherConnections then
                Some (withOutputs node
                        (List.map (fun p => if String.eqb (pid p) (sourcePortId connection)
                                            then setConnected false p else p)
                                  (outputs node)))
              else None
            else None in
          match viaSource with
          | Some node' => node'
          | None =>
              if String.eqb (nid node) (targetNodeId connection) then
                withInputs node
                  (List.map (fun p => if String.eqb (pid p) (targetPortId connection)
                                      then setConnected false p else p)
                            (inputs node))
              else node
          end) (nodes state) in
      {| nodes := updatedNodes;
         connections :=
           filter (fun c => negb (String.eqb (cid c) connectionId)) (connections state);
         selectedNodeIds := selectedNodeIds state |}
  end.

(** The connections that terminate at the target port of [connection]. *)
Definition terminatingAt (connection : ConnectionArg) (state : WorkflowStore)
    : list Connection :=
  filter (sameTarget connection) (connections state).

(** The connections that originate from an output port. *)
Definition originatingFrom (nodeId portId : string) (state : WorkflowStore)
    : list Connection :=
  filter (fun c => String.eqb (sourceNodeId c) nodeId
                   && String.eqb (sourcePortId c) portId) (connections state).

(** The [connected] flag of an output port of a node of the store. *)
Definition outputFlag (nodeId portId : string) (state : WorkflowStore)
    : option bool :=
  match find (fun n => String.eqb (nid n) nodeId) (nodes state) with
  | None => None
  | Some n =>
      match find (fun p => String.eqb (pid p) portId) (outputs n) with
      | None => None
      | Some p => connected p
      end
  end.

(** ** The execution scheduler: ordering *)

(** [inDegree.get(id) || 0]. *)
Definition degreeOf (inDegree : JsMap Z) (id : string) : Z :=
  match map_get id inDegree with
  | Some d => d
  | None => 0%Z
  end.

(** [adjacency.get(id) || []]. *)
Definition targetsOf (adjacency : JsMap (list string)) (id : string) : list string :=
  match map_get id adjacency with
  | Some targets => targets
  | None => []
  end.

(** The two maps after [nodes.forEach]. *)
Definition initMaps (nodes : list NodeInstance) : JsMap Z * JsMap (list string) :=
  fold_left (fun m node =>
               (map_set (nid node) 0%Z (fst m), map_set (nid node) [] (snd m)))
            nodes ([], []).

(** The body of [connections.forEach]. *)
Definition addEdge (m : JsMap Z * JsMap (list string)) (conn : Connection)
    : JsMap Z * JsMap (list string) :=
  let targets := targetsOf (snd m) (sourceNodeId conn) ++ [targetNodeId conn] in
  (map_set (targetNodeId conn) (degreeOf (fst m) (targetNodeId conn) + 1)%Z (fst m),
   map_set (sourceNodeId conn) targets (snd m)).

Definition buildMaps (nodes : list NodeInstance) (connections : list Connection)
    : JsMap Z * JsMap (list string) :=
  fold_left addEdge connections (initMaps nodes).

(** [inDegree.forEach]: the keys of degree zero, in insertion order. *)
Definition initialQueue (inDegree : JsMap Z) : list string :=
  map_keys (filter (fun e => Z.eqb (snd e) 0) inDegree).

(** The body of [targets.forEach] of the main loop, on the pair of the
    in-degree map and the queue. *)
Definition relax (s : JsMap Z * list string) (targetId : string)
    : JsMap Z * list string :=
  let newDegree := (degreeOf (fst s) targetId - 1)%Z in
  (map_set targetId newDegree (fst s),
   if Z.eqb newDegree 0 then snd s ++ [targetId] else snd s).

(** A measure that one turn of the [while] loop decreases: the length of the
    queue plus the number of entries of positive degree. *)
Definition positives (inDegree : JsMap Z) : nat :=
  List.length (filter (fun e => Z.ltb 0 (snd e)) inDegree).

Definition weight (s : JsMap Z * list string) : nat :=
  List.length (snd s) + positives (fst s).

Lemma positives_set (k : string) (inDegree : JsMap Z) :
  positives (map_set k (degreeOf inDegree k - 1)%Z inDegree)
  + (if Z.eqb (degreeOf inDegree k - 1) 0 then 1 else 0)
  = positives inDegree.
Proof.
  unfold positives, degreeOf.
  induction inDegree as [|[k0 d0] m IH]; simpl.
  - reflexivity.
  - destruct (String.eqb k0 k) eqn:E; simpl.
    + destruct (Z.eqb_spec (d0 - 1) 0) as [H0|H0];
        destruct (Z.ltb_spec 0 (d0 - 1)); destruct (Z.ltb_spec 0 d0);
        simpl; lia.
    + destruct (Z.ltb 0 d0); simpl; rewrite <- IH; reflexivity.
Qed.

Lemma relax_weight (s : JsMap Z * list string) (targetId : string) :
  weight (relax s targetId) = weight s.
Proof.
  unfold weight, relax. simpl.
  rewrite <- (positives_set targetId (fst s)).
  destruct (Z.eqb (degreeOf (fst s) targetId - 1) 0).
  - rewrite length_app. simpl. lia.
  - lia.
Qed.

Lemma relax_all_weight (targets : list string) (s : JsMap Z * list string) :
  weight (fold_left relax targets s) = weight s.
Proof.
  revert s. induction targets as [|t ts IH]; intros s; simpl.
  - reflexivity.
  - rewrite IH. apply relax_weight.
Qed.

(** The [while (queue.length > 0)] loop; [result] is the array built so far. *)
Equations? drain (adjacency : JsMap (list string)) (s : JsMap Z * list string)
    (result : list string) : list string by wf (weight s) lt :=
  drain adjacency (inDegree, []) result := result;
  drain adjacency (inDegree, nodeId :: queue) result :=
    drain adjacency
          (fold_left relax (targetsOf adjacency nodeId) (inDegree, queue))
          (result ++ [nodeId]).
Proof.
  rewrite relax_all_weight. unfold weight. simpl. lia.
Qed.

Definition getExecutionOrder (nodes : list NodeInstance)
    (connections : list Connection) : list string :=
  let m := buildMaps nodes connections in
  drain (snd m) (fst m, initialQueue (fst m)) [].

(** ** Host functions used by the scheduler and the translator *)

(** [s.replace(pattern, '')] for a string pattern: the first occurrence is
    removed. *)
Fixpoint removeFirst (pattern s : string) : string :=
  if String.prefix pattern s
  then substring (String.length pattern) (String.length s - String.length pattern) s
  else match s with
       | EmptyString => EmptyString
       | String c s' => String c (removeFirst pattern s')
       end.

(** [s.replace(/-/g, '')]. *)
Fixpoint removeDashes (s : string) : string :=
  match s with
  | EmptyString => EmptyString
  | String c s' => if Ascii.eqb c "-"%char then removeDashes s' else String c (removeDashes s')
  end.

Definition asciiBetween (lo hi : nat) (c : ascii) : bool :=
  Nat.leb lo (nat_of_ascii c) && Nat.leb (nat_of_ascii c) hi.

Definition lowerChar (c : ascii) : ascii :=
  if asciiBetween 65 90 c then ascii_of_nat (nat_of_ascii c + 32) else c.

Definition upperChar (c : ascii) : ascii :=
  if asciiBetween 97 122 c then ascii_of_nat (nat_of_ascii c - 32) else c.

(** [toLowerCase], on the ASCII letters. *)
Fixpoint toLowerCase (s : string) : string :=
  match s with
  | EmptyString => EmptyString
  | String c s' => String (lowerChar c) (toLowerCase s')
  end.

(** [s.charAt(0).toUpperCase() + s.slice(1)]. *)
Definition capitalize (s : string) : string :=
  match s with
  | EmptyString => EmptyString
  | String c s' => String (upperChar c) s'
  end.

Definition isWhiteSpace (c : ascii) : bool :=
  Nat.eqb (nat_of_ascii c) 32 || asciiBetween 9 13 c.

Fixpoint skipWhiteSpace (s : string) : string :=
  match s with
  | EmptyString => EmptyString
  | String c s' => if isWhiteSpace c then skipWhiteSpace s' else s
  end.

Definition digitValue (radix : Z) (c : ascii) : option Z :=
  let n := Z.of_nat (nat_of_ascii c) in
  let v := if asciiBetween 48 57 c then Some (n - 48)%Z
           else if asciiBetween 97 122 c then Some (n - 87)%Z
           else if asciiBetween 65 90 c then Some (n - 55)%Z
           else None in
  match v with
  | Some d => if Z.ltb d radix then Some d else None
  | None => None
  end.

(** The value of the longest prefix of digits; [None] when there is none. *)
Fixpoint leadingDigits (radix : Z) (s : string) (acc : option Z) : option Z :=
  match s with
  | EmptyString => acc
  | String c s' =>
      match digitValue radix c with
      | Some d =>
          leadingDigits radix s'
            (Some (match acc with Some a => a * radix + d | None => d end)%Z)
      | None => acc
      end
  end.

(** [parseInt(s)] without a radix; [None] is [NaN]. *)
Definition parseInt (s : string) : option Z :=
  let s1 := skipWhiteSpace s in
  let signed :=
    match s1 with
    | String "-"%char r => ((-1)%Z, r)
    | String "+"%char r => (1%Z, r)
    | _ => (1%Z, s1)
    end in
  let based :=
    match snd signed with
    | String "0"%char (String "x"%char r) => (16%Z, r)
    | String "0"%char (String "X"%char r) => (16%Z, r)
    | _ => (10%Z, snd signed)
    end in
  option_map (Z.mul (fst signed)) (leadingDigits (fst based) (snd based) None).

(** [array[i]] for a number [i]: [undefined] out of range. *)
Definition at_index {A : Type} (l : list A) (i : Z) : option A :=
  if Z.ltb i 0 then None else nth_error l (Z.to_nat i).

(** [array.findIndex(p)]; [None] is [-1]. *)
Fixpoint findIndex {A : Type} (p : A -> bool) (l : list A) : option nat :=
  match l with
  | [] => None
  | x :: l' => if p x then Some 0 else option_map S (findIndex p l')
  end.

(** The elements of a list with their indices, from [start]. *)
Fixpoint indexedFrom {A : Type} (start : nat) (l : list A) : list (nat * A) :=
  match l with
  | [] => []
  | x :: l' => (start, x) :: indexedFrom (S start) l'
  end.

Definition indexed {A : Type} (l : list A) : list (nat * A) := indexedFrom 0 l.

(** [a || d] for strings: the empty string is falsy. *)
Definition orElse (a : option string) (d : string) : string :=
  match a with
  | Some v => if String.eqb v "" then d else v
  | None => d
  end.

(** [Object.assign(target, source)]. *)
Definition objectAssign {V : Type} (target source : JsMap V) : JsMap V :=
  fold_left (fun acc e => map_set (fst e) (snd e) acc) source target.

(** ** The execution scheduler: running the nodes *)

(** What a [catch] receives: an [Error] with its message, or another value. *)
Inductive Thrown : Type :=
| ThrownError (message : string)
| ThrownValue.

(** The calls made to the three callbacks, in order. *)
Inductive Event : Type :=
| OnProgress (nodeId : string) (progress : Z) (message : string)
| OnNodeComplete (nodeId : string) (nodeOutputs : JsMap JsValue)
| OnNodeError (nodeId : string) (error : string).

(** What the [switch] on the node type of [executeNode] does: the progress it
    reports, and the outputs it leaves or the error it throws. *)
Inductive CapabilityResult : Type :=
| Returns (progress : list (Z * string)) (outputs : JsMap JsValue)
| Throws (progress : list (Z * string)) (error : Thrown).

Record RunState : Type := {
  nodeOutputs : JsMap (JsMap JsValue);
  trace : list Event;
  (** ghost: the nodes handed to [executeNode], in order *)
  attempted : list string
}.

Section Scheduler.
(** The definition registry and the capability calls are collaborators. *)
Variable getNodeDefinition : string -> option NodeDefinition.
Variable capability : NodeInstance -> JsMap JsValue -> CapabilityResult.

Definition getNodeInputs (node : NodeInstance) (connections : list Connection)
    (outputsSoFar : JsMap (JsMap JsValue)) : JsMap JsValue :=
  fold_left
    (fun inputs ip =>
       let index := fst ip in
       let input := snd ip in
       match find (fun c => String.eqb (targetNodeId c) (nid node)
                            && String.eqb (targetPortId c) (inputId index))
                  connections with
       | None => inputs
       | Some connection =>
           match map_get (sourceNodeId connection) outputsSoFar with
           | None => inputs
           | Some sourceNode =>
               match parseInt (removeFirst "output-" (sourcePortId connection)) with
               | None => inputs
               | Some sourcePortIndex =>
                   match at_index (map_keys sourceNode) sourcePortIndex with
                   | None => inputs
                   | Some key =>
                       map_set (pname input)
                               (match map_get key sourceNode with
                                | Some v => v
                                | None => JUndefined
                                end) inputs
                   end
               end
           end
       end)
    (indexed (inputs node))
    (objectAssign [] (data node)).

Definition progressEvents (nodeId : string) (progress : list (Z * string))
    : list Event :=
  List.map (fun p => OnProgress nodeId (fst p) (snd p)) progress.

(** [executeNode]: the callbacks it makes, and its outputs or what it
    throws. *)
Definition executeNode (node : NodeInstance) (connections : list Connection)
    (outputsSoFar : JsMap (JsMap JsValue))
    : list Event * (JsMap JsValue + Thrown) :=
  match getNodeDefinition (ntype node) with
  | None => ([], inr (ThrownError ("未知节点类型: " ++ ntype node)))
  | Some _ =>
      let inputs := getNodeInputs node connections outputsSoFar in
      let preparing := OnProgress (nid node) 10 "准备执行..." in
      match capability node inputs with
      | Returns progress outputs =>
          (preparing :: progressEvents (nid node) progress
             ++ [OnProgress (nid node) 100 "完成"],
           inl outputs)
      | Throws progress error =>
          let errorMessage :=
            match error with
            | ThrownError message => message
            | ThrownValue => "未知错误"
            end in
          (preparing :: progressEvents (nid node) progress
             ++ [OnNodeError (nid node) errorMessage],
           inr error)
      end
  end.

(** The body of the [for] loop of [executeWorkflow]. *)
Definition runNode (nodes : list NodeInstance) (connections : list Connection)
    (st : RunState) (nodeId : string) : RunState :=
  match find (fun n => String.eqb (nid n) nodeId) nodes with
  | None => st
  | Some node =>
      let r := executeNode node connections (nodeOutputs st) in
      match snd r with
      | inl outputs =>
          {| nodeOutputs := map_set nodeId outputs (nodeOutputs st);
             trace := trace st ++ fst r ++ [OnNodeComplete nodeId outputs];
             attempted := attempted st ++ [nodeId] |}
      | inr error =>
          let errorMessage :=
            match error with
            | ThrownError message => message
            | ThrownValue => "执行失败"
            end in
          {| nodeOutputs := nodeOutputs st;
             trace := trace st ++ fst r ++ [OnNodeError nodeId errorMessage];
             attempted := attempted st ++ [nodeId] |}
      end
  end.

Definition executeWorkflow (nodes : list NodeInstance)
    (connections : list Connection) : RunState :=
  fold_left (runNode nodes connections)
            (getExecutionOrder nodes connections)
            {| nodeOutputs := []; trace := []; attempted := [] |}.
End Scheduler.

(** The node ids the error callback was called with. *)
Definition errorCalls (events : list Event) : list string :=
  flat_map (fun e => match e with OnNodeError nodeId _ => [nodeId] | _ => [] end)
           events.

(** ** The format translator *)

(** The external workflow; node ids, link ids and slots are indices. *)
Record ComfyInput : Type := {
  ciName : string;
  ciType : string;
  link : option nat
}.

Record ComfyOutput : Type := {
  coName : string;
  coType : string;
  links : option (list nat);
  slot_index : option nat
}.

Record ComfyUINode : Type := {
  comfyId : nat;
  comfyType : string;
  pos : Z * Z;
  comfySize : option (Z * Z);
  comfyInputs : option (list ComfyInput);
  comfyOutputs : option (list ComfyOutput);
  widgets_values : option (list JsValue)
}.

Record ComfyUILink : Type := {
  linkId : nat;
  linkSourceNode : nat;
  linkSourceSlot : nat;
  linkTargetNode : nat;
  linkTargetSlot : nat;
  linkType : string
}.

Record ComfyUIWorkflow : Type := {
  last_node_id : nat;
  last_link_id : nat;
  comfyNodes : list ComfyUINode;
  comfyLinks : list ComfyUILink
}.

(** The two dictionaries are plain objects, read as [dictionary[key]].  The
    model reads the entries of the dictionary.  For a key that names a
    member of [Object.prototype] the source reads that member instead (a
    function, or an object for [__proto__]), which is no string; the
    statements that read a kind or a type tag take keys that are entries
    of the dictionary or stay outside these names. *)
Definition objectPrototypeKeys : list string :=
  [ "constructor"; "toString"; "toLocaleString"; "valueOf"; "hasOwnProperty";
    "isPrototypeOf"; "propertyIsEnumerable"; "__proto__"; "__defineGetter__";
    "__defineSetter__"; "__lookupGetter__"; "__lookupSetter__" ].

Definition comfyTypeMap : JsMap string :=
  [ ("MODEL", "model"); ("CLIP", "clip"); ("VAE", "vae"); ("LATENT", "latent");
    ("IMAGE", "image"); ("MASK", "mask"); ("CONDITIONING", "conditioning");
    ("CONTROL_NET", "control_net"); ("INT", "int"); ("FLOAT", "float");
    ("STRING", "text"); ("BOOLEAN", "boolean") ].

Definition comfyNodeTypeMap : JsMap string :=
  [ ("CheckpointLoaderSimple", "checkpoint-loader"); ("KSampler", "ksampler");
    ("CLIPTextEncode", "clip-text-encode"); ("VAEDecode", "vae-decode");
    ("VAEEncode", "vae-encode"); ("EmptyLatentImage", "empty-latent");
    ("SaveImage", "image-output"); ("LoadImage", "image-upload");
    ("PreviewImage", "image-output") ].

(** A [Map<number, string>]. *)
Fixpoint num_get (k : nat) (m : list (nat * string)) : option string :=
  match m with
  | [] => None
  | (k', v) :: m' => if Nat.eqb k' k then Some v else num_get k m'
  end.

Fixpoint num_set (k : nat) (v : string) (m : list (nat * string))
    : list (nat * string) :=
  match m with
  | [] => [(k, v)]
  | (k', v') :: m' =>
      if Nat.eqb k' k then (k', v) :: m' else (k', v') :: num_set k v m'
  end.

Definition orNil {A : Type} (o : option (list A)) : list A :=
  match o with
  | Some l => l
  | None => []
  end.

Section Translator.
Variable getNodeDefinition : string -> option NodeDefinition.
(** The successive results of [uuidv4()]. *)
Variable uuid : nat -> string.

Definition importInputs (comfyNode : ComfyUINode) : list Port :=
  List.map (fun ip =>
              {| pid := inputId (fst ip);
                 pname := ciName (snd ip);
                 ptype := orElse (map_get (ciType (snd ip)) comfyTypeMap) "any";
                 direction := input;
                 connected := Some (match link (snd ip) with
                                    | Some _ => true
                                    | None => false
                                    end);
                 isReferenceInput := None;
                 widget := None |})
           (indexed (orNil (comfyInputs comfyNode))).

Definition importOutputs (comfyNode : ComfyUINode) : list Port :=
  List.map (fun ip =>
              {| pid := outputId (fst ip);
                 pname := coName (snd ip);
                 ptype := orElse (map_get (coType (snd ip)) comfyTypeMap) "any";
                 direction := output;
                 connected := Some (match links (snd ip) with
                                    | Some l => Nat.ltb 0 (List.length l)
                                    | None => false
                                    end);
                 isReferenceInput := None;
                 widget := None |})
           (indexed (orNil (comfyOutputs comfyNode))).

(** The literal data of an imported node. *)
Definition importData (definition : option NodeDefinition)
    (widgetsValues : option (list JsValue)) : JsMap JsValue :=
  match widgetsValues with
  | None => []
  | Some values =>
      match definition with
      | Some definition =>
          fold_left
            (fun data ip =>
               match swidget (snd ip), nth_error values (fst ip) with
               | Some _, Some v =>
                   if isUndefined v then data else map_set (sname (snd ip)) v data
               | _, _ => data
               end)
            (indexed (dinputs definition)) []
      | None =>
          fold_left
            (fun data iv => map_set ("param_" ++ decimal (fst iv)) (snd iv) data)
            (indexed values) []
      end
  end.

(** The same step in [PluginManager.importComfyWorkflow], the other
    importer of the repository: a counter [widgetIndex] runs over the
    inputs that carry a widget. *)
Definition pluginImportData (definition : NodeDefinition)
    (widgetsValues : option (list JsValue)) : JsMap JsValue :=
  match widgetsValues with
  | None => []
  | Some values =>
      fst (fold_left
             (fun acc input =>
                let widgetIndex := snd acc in
                match swidget input, nth_error values widgetIndex with
                | Some _, Some v =>
                    (map_set (sname input) v (fst acc), S widgetIndex)
                | _, _ => acc
                end)
             (dinputs definition) ([], 0))
  end.

Definition importNodeType (comfyNode : ComfyUINode) : string :=
  orElse (map_get (comfyType comfyNode) comfyNodeTypeMap)
         ("comfy-" ++ toLowerCase (comfyType comfyNode)).

Definition importNode (nodeId : string) (comfyNode : ComfyUINode) : NodeInstance :=
  let nodeType := importNodeType comfyNode in
  let definition := getNodeDefinition nodeType in
  {| nid := nodeId;
     ntype := nodeType;
     position := pos comfyNode;
     data := importData definition (widgets_values comfyNode);
     inputs := importInputs comfyNode;
     outputs := importOutputs comfyNode;
     size := comfySize comfyNode |}.

(** The first loop: the nodes, the id map and the number of ids drawn. *)
Definition importNodes (workflowNodes : list ComfyUINode)
    : list NodeInstance * list (nat * string) * nat :=
  fold_left
    (fun acc comfyNode =>
       let nodes := fst (fst acc) in
       let nodeIdMap := snd (fst acc) in
       let drawn := snd acc in
       let nodeId := uuid drawn in
       (nodes ++ [importNode nodeId comfyNode],
        num_set (comfyId comfyNode) nodeId nodeIdMap,
        S drawn))
    workflowNodes ([], [], 0).

Definition truthy (o : option string) : bool :=
  match o with
  | Some s => negb (String.eqb s "")
  | None => false
  end.

(** The second loop: the connections. *)
Definition importLinks (nodeIdMap : list (nat * string)) (drawn : nat)
    (workflowLinks : list ComfyUILink) : list Connection * nat :=
  fold_left
    (fun acc l =>
       let sourceId := num_get (linkSourceNode l) nodeIdMap in
       let targetId := num_get (linkTargetNode l) nodeIdMap in
       if truthy sourceId && truthy targetId then
         (fst acc ++
            [{| cid := uuid (snd acc);
                sourceNodeId := orElse sourceId "";
                sourcePortId := outputId (linkSourceSlot l);
                targetNodeId := orElse targetId "";
                targetPortId := inputId (linkTargetSlot l);
                ctype := Some (orElse (map_get (linkType l) comfyTypeMap) "any") |}],
          S (snd acc))
       else acc)
    workflowLinks ([], drawn).

Definition importComfyUIWorkflow (workflow : ComfyUIWorkflow)
    : list NodeInstance * list Connection :=
  let r := importNodes (comfyNodes workflow) in
  (fst (fst r),
   fst (importLinks (snd (fst r)) (snd r) (comfyLinks workflow))).

(** [reverseTypeMap] and [reverseNodeTypeMap]: a later entry of the forward
    dictionary overwrites an earlier one with the same value. *)
Definition reverseMap (m : JsMap string) : JsMap string :=
  fold_left (fun acc e => map_set (snd e) (fst e) acc) m [].

Definition reverseTypeMap : JsMap string := reverseMap comfyTypeMap.
Definition reverseNodeTypeMap : JsMap string := reverseMap comfyNodeTypeMap.

Definition exportNodeType (nodeType : string) : string :=
  match map_get nodeType reverseNodeTypeMap with
  | Some comfy => if String.eqb comfy "" then
                    (if String.prefix "comfy-" nodeType
                     then capitalize (removeDashes (removeFirst "comfy-" nodeType))
                     else nodeType)
                  else comfy
  | None =>
      if String.prefix "comfy-" nodeType
      then capitalize (removeDashes (removeFirst "comfy-" nodeType))
      else nodeType
  end.

Definition exportNode (comfyId : nat) (node : NodeInstance) : ComfyUINode :=
  {| comfyId := comfyId;
     comfyType := exportNodeType (ntype node);
     pos := position node;
     comfySize := Some (match size node with
                        | Some wh => wh
                        | None => (200, 100)%Z
                        end);
     comfyInputs :=
       Some (List.map (fun p => {| ciName := pname p;
                                   ciType := orElse (map_get (ptype p) reverseTypeMap) "STRING";
                                   link := None |})
                      (inputs node));
     comfyOutputs :=
       Some (List.map (fun ip => {| coName := pname (snd ip);
                                    coType := orElse (map_get (ptype (snd ip)) reverseTypeMap) "STRING";
                                    links := Some [];
                                    slot_index := Some (fst ip) |})
                      (indexed (outputs node)));
     widgets_values := Some (map_values (data node)) |}.

(** The first loop of the export: the external nodes, the id map and the
    node counter. *)
Definition exportNodes (nodes : list NodeInstance)
    : list ComfyUINode * JsMap nat * nat :=
  fold_left
    (fun acc node =>
       let nodeIdCounter := snd acc in
       (fst (fst acc) ++ [exportNode nodeIdCounter node],
        map_set (nid node) nodeIdCounter (snd (fst acc)),
        S nodeIdCounter))
    nodes ([], [], 1).

(** Update of the first element that satisfies [p] (the object [find]
    returns is changed in place). *)
Fixpoint updateFirst {A : Type} (p : A -> bool) (f : A -> A) (l : list A) : list A :=
  match l with
  | [] => []
  | x :: l' => if p x then f x :: l' else x :: updateFirst p f l'
  end.

Fixpoint updateNth {A : Type} (n : nat) (f : A -> A) (l : list A) : list A :=
  match n, l with
  | _, [] => []
  | 0, x :: l' => f x :: l'
  | S n', x :: l' => x :: updateNth n' f l'
  end.

Definition pushLink (linkId : nat) (o : ComfyOutput) : ComfyOutput :=
  {| coName := coName o; coType := coType o;
     links := Some (orNil (links o) ++ [linkId]);
     slot_index := slot_index o |}.

Definition setLink (linkId : nat) (i : ComfyInput) : ComfyInput :=
  {| ciName := ciName i; ciType := ciType i; link := Some linkId |}.

Definition withComfyOutputs (n : ComfyUINode) (f : list ComfyOutput -> list ComfyOutput)
    : ComfyUINode :=
  {| comfyId := comfyId n; comfyType := comfyType n; pos := pos n;
     comfySize := comfySize n; comfyInputs := comfyInputs n;
     comfyOutputs := option_map f (comfyOutputs n);
     widgets_values := widgets_values n |}.

Definition withComfyInputs (n : ComfyUINode) (f : list ComfyInput -> list ComfyInput)
    : ComfyUINode :=
  {| comfyId := comfyId n; comfyType := comfyType n; pos := pos n;
     comfySize := comfySize n; comfyInputs := option_map f (comfyInputs n);
     comfyOutputs := comfyOutputs n;
     widgets_values := widgets_values n |}.

(** The second loop of the export, on the triple of the external nodes, the
    links and the link counter. *)
Definition exportLink (nodes : list NodeInstance) (nodeIdMap : JsMap nat)
    (acc : list ComfyUINode * list ComfyUILink * nat) (conn : Connection)
    : list ComfyUINode * list ComfyUILink * nat :=
  match map_get (sourceNodeId conn) nodeIdMap,
        map_get (targetNodeId conn) nodeIdMap with
  | Some sourceComfyId, Some targetComfyId =>
      match find (fun n => String.eqb (nid n) (sourceNodeId conn)) nodes,
            find (fun n => String.eqb (nid n) (targetNodeId conn)) nodes with
      | Some sourceNode, Some targetNode =>
          match findIndex (fun o => String.eqb (pid o) (sourcePortId conn))
                          (outputs sourceNode),
                findIndex (fun i => String.eqb (pid i) (targetPortId conn))
                          (inputs targetNode) with
          | Some sourceSlot, Some targetSlot =>
              let linkId := snd acc in
              let sourceType :=
                match nth_error (outputs sourceNode) sourceSlot with
                | Some sourceOutput => orElse (map_get (ptype sourceOutput) reverseTypeMap) "STRING"
                | None => "STRING"
                end in
              let l := {| linkId := linkId;
                          linkSourceNode := sourceComfyId;
                          linkSourceSlot := sourceSlot;
                          linkTargetNode := targetComfyId;
                          linkTargetSlot := targetSlot;
                          linkType := sourceType |} in
              let nodes1 :=
                updateFirst (fun n => Nat.eqb (comfyId n) sourceComfyId)
                            (fun n => withComfyOutputs n (updateNth sourceSlot (pushLink linkId)))
                            (fst (fst acc)) in
              let nodes2 :=
                updateFirst (fun n => Nat.eqb (comfyId n) targetComfyId)
                            (fun n => withComfyInputs n (updateNth targetSlot (setLink linkId)))
                            nodes1 in
              (nodes2, snd (fst acc) ++ [l], S linkId)
          | _, _ => acc
          end
      | _, _ => acc
      end
  | _, _ => acc
  end.

Definition exportToComfyUIWorkflow (nodes : list NodeInstance)
    (connections : list Connection) : ComfyUIWorkflow :=
  let r := exportNodes nodes in
  let comfyNodes0 := fst (fst r) in
  let nodeIdMap := snd (fst r) in
  let nodeIdCounter := snd r in
  let r2 := fold_left (exportLink nodes nodeIdMap) connections (comfyNodes0, [], 1) in
  {| last_node_id := nodeIdCounter - 1;
     last_link_id := snd r2 - 1;
     comfyNodes := fst (fst r2);
     comfyLinks := snd (fst r2) |}.
End Translator.

(** ** The validator *)

(** The messages, by their template: [WEmpty] is the text for an empty
    workflow, [WUnconnectedNode t] the text that names a node of type [t] as
    not connected to other nodes, [WUnconnectedInput d i] the text that names
    input [i] of a node whose definition is called [d] as not connected, and
    [ECycle] the text for a circular dependency. *)
Inductive ValidationWarning : Type :=
| WEmpty
| WUnconnectedNode (nodeType : string)
| WUnconnectedInput (definitionName inputName : string).

Inductive ValidationError : Type :=
| ECycle.

Record ValidationResult : Type := {
  valid : bool;
  errors : list ValidationError;
  warnings : list ValidationWarning
}.

(** A [Set<string>]. *)
Definition set_add (x : string) (s : list string) : list string :=
  if includes s x then s else s ++ [x].

Definition set_delete (x : string) (s : list string) : list string :=
  filter (fun y => negb (String.eqb y x)) s.

Record DfsState : Type := {
  visited : list string;
  recursionStack : list string
}.

(** The [for] loop over the outgoing connections of [nodeId] inside
    [hasCycle]; [recur] is the recursive call. *)
Fixpoint scanOutgoing (recur : string -> DfsState -> option (bool * DfsState))
    (nodeId : string) (outgoing : list Connection) (st : DfsState)
    : option (bool * DfsState) :=
  match outgoing with
  | [] =>
      Some (false, {| visited := visited st;
                      recursionStack := set_delete nodeId (recursionStack st) |})
  | conn :: rest =>
      if negb (includes (visited st) (targetNodeId conn)) then
        match recur (targetNodeId conn) st with
        | None => None
        | Some (true, st') => Some (true, st')
        | Some (false, st') => scanOutgoing recur nodeId rest st'
        end
      else if includes (recursionStack st) (targetNodeId conn) then
        Some (true, st)
      else scanOutgoing recur nodeId rest st
  end.

(** The recursive [hasCycle], with the two sets passed along.  [fuel] bounds
    the depth of the recursion; [None] is a recursion cut short. *)
Fixpoint hasCycle (fuel : nat) (connections : list Connection) (nodeId : string)
    (st : DfsState) : option (bool * DfsState) :=
  match fuel with
  | 0 => None
  | S fuel' =>
      let entered := {| visited := set_add nodeId (visited st);
                        recursionStack := set_add nodeId (recursionStack st) |} in
      let outgoing := filter (fun c => String.eqb (sourceNodeId c) nodeId) connections in
      scanOutgoing (hasCycle fuel' connections) nodeId outgoing entered
  end.

(** The loop over the nodes that starts the searches; it stops at the first
    cycle. *)
Fixpoint findCycle (connections : list Connection) (nodes : list NodeInstance)
    (st : DfsState) : option (list ValidationError) :=
  match nodes with
  | [] => Some []
  | node :: rest =>
      if negb (includes (visited st) (nid node)) then
        match hasCycle (S (List.length connections)) connections (nid node) st with
        | None => None
        | Some (true, _) => Some [ECycle]
        | Some (false, st') => findCycle connections rest st'
        end
      else findCycle connections rest st
  end.

Definition connectedNodeIds (connections : list Connection) : list string :=
  fold_left (fun s conn => set_add (targetNodeId conn) (set_add (sourceNodeId conn) s))
            connections [].

Definition truthyFlag (o : option bool) : bool :=
  match o with
  | Some b => b
  | None => false
  end.

Definition isSome {A : Type} (o : option A) : bool :=
  match o with
  | Some _ => true
  | None => false
  end.

Section Validator.
Variable getNodeDefinition : string -> option NodeDefinition.

Definition isolatedWarnings (nodes : list NodeInstance)
    (connections : list Connection) : list ValidationWarning :=
  flat_map (fun node =>
              if negb (includes (connectedNodeIds connections) (nid node))
                 && Nat.ltb 1 (List.length nodes)
              then [WUnconnectedNode (ntype node)] else [])
           nodes.

Definition inputWarnings (nodes : list NodeInstance)
    (connections : list Connection) : list ValidationWarning :=
  flat_map (fun node =>
              match getNodeDefinition (ntype node) with
              | None => []
              | Some definition =>
                  flat_map (fun i =>
                              if negb (isSome (widget i)) && negb (truthyFlag (connected i))
                              then
                                if existsb (fun c => String.eqb (targetNodeId c) (nid node)
                                                     && String.eqb (targetPortId c) (pid i))
                                           connections
                                then []
                                else [WUnconnectedInput (dname definition) (pname i)]
                              else [])
                           (inputs node)
              end)
           nodes.

(** [None] only if a search for a cycle was cut short. *)
Definition validateWorkflow (nodes : list NodeInstance)
    (connections : list Connection) : option ValidationResult :=
  match nodes with
  | [] => Some {| valid := true; errors := []; warnings := [WEmpty] |}
  | _ =>
      match findCycle connections nodes {| visited := []; recursionStack := [] |} with
      | None => None
      | Some errs =>
          Some {| valid := Nat.eqb (List.length errs) 0;
                  errors := errs;
                  warnings := isolatedWarnings nodes connections
                              ++ inputWarnings nodes connections |}
      end
  end.
End Validator.

Definition isUnconnectedNodeWarning (w : ValidationWarning) : bool :=
  match w with
  | WUnconnectedNode _ => true
  | _ => false
  end.

(** ** The graph store: the other operations *)

(** [createNodeInstance]; [newId] is the result of [uuidv4()]. *)
Definition createNodeInstance (newId : string) (definition : NodeDefinition)
    (position : Z * Z) : NodeInstance :=
  {| nid := newId;
     ntype := dtype definition;
     position := position;
     data := objectAssign [] (match defaultData definition with
                              | Some d => d
                              | None => []
                              end);
     inputs :=
       List.map (fun ip => {| pid := inputId (fst ip);
                              pname := sname (snd ip);
                              ptype := stype (snd ip);
                              direction := input;
                              connected := Some false;
                              isReferenceInput := sisReferenceInput (snd ip);
                              widget := swidget (snd ip) |})
                (indexed (dinputs definition));
     outputs :=
       List.map (fun ip => {| pid := outputId (fst ip);
                              pname := sname (snd ip);
                              ptype := stype (snd ip);
                              direction := output;
                              connected := Some false;
                              isReferenceInput := None;
                              widget := None |})
                (indexed (doutputs definition));
     size := None |}.

Definition addNode (getNodeDefinition : string -> option NodeDefinition)
    (newId : string) (type : string) (position : Z * Z) (state : WorkflowStore)
    : WorkflowStore :=
  match getNodeDefinition type with
  | None => state
  | Some definition =>
      {| nodes := nodes state ++ [createNodeInstance newId definition position];
         connections := connections state;
         selectedNodeIds := selectedNodeIds state |}
  end.

Definition updateNodePosition (nodeId : string) (position : Z * Z)
    (state : WorkflowStore) : WorkflowStore :=
  {| nodes :=
       List.map (fun n =>
                   if String.eqb (nid n) nodeId
                   then {| nid := nid n; ntype := ntype n; position := position;
                           data := data n; inputs := inputs n; outputs := outputs n;
                           size := size n |}
                   else n) (nodes state);
     connections := connections state;
     selectedNodeIds := selectedNodeIds state |}.

(** [updateNodeData]: [{ ...n.data, ...data }]. *)
Definition updateNodeData (nodeId : string) (patch : JsMap JsValue)
    (state : WorkflowStore) : WorkflowStore :=
  {| nodes :=
       List.map (fun n =>
                   if String.eqb (nid n) nodeId
                   then {| nid := nid n; ntype := ntype n; position := position n;
                           data := objectAssign (objectAssign [] (data n)) patch;
                           inputs := inputs n; outputs := outputs n;
                           size := size n |}
                   else n) (nodes state);
     connections := connections state;
     selectedNodeIds := selectedNodeIds state |}.

Definition selectNode (nodeId : string) (multi : bool) (state : WorkflowStore)
    : WorkflowStore :=
  {| nodes := nodes state;
     connections := connections state;
     selectedNodeIds :=
       if multi then
         if includes (selectedNodeIds state) nodeId
         then filter (fun id => negb (String.eqb id nodeId)) (selectedNodeIds state)
         else selectedNodeIds state ++ [nodeId]
       else [nodeId] |}.

(** The state of a connection being drawn. *)
Record ConnectionState : Type := {
  isConnecting : bool;
  drawSourceNodeId : option string;
  drawSourcePortId : option string;
  drawSourcePortType : option PortType;
  mousePosition : option (Z * Z)
}.

Definition idleConnection : ConnectionState :=
  {| isConnecting := false; drawSourceNodeId := None; drawSourcePortId := None;
     drawSourcePortType := None; mousePosition := None |}.

Definition startConnection (nodeId portId portType : string) : ConnectionState :=
  {| isConnecting := true; drawSourceNodeId := Some nodeId;
     drawSourcePortId := Some portId; drawSourcePortType := Some portType;
     mousePosition := None |}.

(** [endConnection]: the connection is added when a connection is being
    drawn and the four ids are truthy; [cancelConnection] follows in every
    case. *)
Definition endConnection (newId : string) (targetNodeId targetPortId : option string)
    (s : ConnectionState * WorkflowStore) : ConnectionState * WorkflowStore :=
  (idleConnection,
   if isConnecting (fst s) && truthy (drawSourceNodeId (fst s))
      && truthy (drawSourcePortId (fst s))
      && truthy targetNodeId && truthy targetPortId
   then addConnection newId
          {| argSourceNodeId := orElse (drawSourceNodeId (fst s)) "";
             argSourcePortId := orElse (drawSourcePortId (fst s)) "";
             argTargetNodeId := orElse targetNodeId "";
             argTargetPortId := orElse targetPortId "";
             argType := None |}
          (snd s)
   else snd s).

(** The execution state of a node, as the store lists it. *)
Inductive ExecutionStatus : Type := idle | running | completed | error.

Record NodeExecutionState : Type := {
  stateNodeId : string;
  status : ExecutionStatus;
  progress : option Z;
  stateError : option string;
  stateMessage : option string
}.

(** [setNodeExecutionState], on the list [executionStates] of the store. *)
Definition setNodeExecutionState (state : NodeExecutionState)
    (executionStates : list NodeExecutionState) : list NodeExecutionState :=
  filter (fun e => negb (String.eqb (stateNodeId e) (stateNodeId state))) executionStates
  ++ [state].

(** The three callbacks that [runAll] hands to [executeWorkflow], as one
    step on the list of execution states. *)
Definition recordEvent (executionStates : list NodeExecutionState) (e : Event)
    : list NodeExecutionState :=
  match e with
  | OnProgress nodeId percent message =>
      setNodeExecutionState
        {| stateNodeId := nodeId; status := running; progress := Some percent;
           stateError := None; stateMessage := Some message |} executionStates
  | OnNodeComplete nodeId _ =>
      setNodeExecutionState
        {| stateNodeId := nodeId; status := completed; progress := Some 100%Z;
           stateError := None; stateMessage := None |} executionStates
  | OnNodeError nodeId message =>
      setNodeExecutionState
        {| stateNodeId := nodeId; status := error; progress := Some 0%Z;
           stateError := Some message; stateMessage := None |} executionStates
  end.

(** [runAll]: the execution states and the node outputs it leaves in the
    store; nothing is run for an empty node list. *)
Definition runAll (getNodeDefinition : string -> option NodeDefinition)
    (capability : NodeInstance -> JsMap JsValue -> CapabilityResult)
    (state : WorkflowStore) (executionStates : list NodeExecutionState)
    (storedOutputs : JsMap (JsMap JsValue))
    : list NodeExecutionState * JsMap (JsMap JsValue) :=
  match nodes state with
  | [] => (executionStates, storedOutputs)
  | _ =>
      let run := executeWorkflow getNodeDefinition capability
                                 (nodes state) (connections state) in
      (fold_left recordEvent (trace run) [],
       fold_left (fun m e => match e with
                             | OnNodeComplete nodeId outputs => map_set nodeId outputs m
                             | _ => m
                             end) (trace run) [])
  end.

(** ** The registry of custom nodes *)

Section CustomNodes.
(** A configuration, of which the registry reads the [id]. *)
Variable CustomNodeConfig : Type.
Variable configId : CustomNodeConfig -> string.

(** Assignment to [array[i]] for an index within the array. *)
Fixpoint replaceAt (i : nat) (x : CustomNodeConfig) (l : list CustomNodeConfig)
    : list CustomNodeConfig :=
  match i, l with
  | _, [] => []
  | 0, _ :: l' => x :: l'
  | S i', y :: l' => y :: replaceAt i' x l'
  end.

(** [addCustomNode], on the module variable [customNodes]. *)
Definition addCustomNode (config : CustomNodeConfig)
    (customNodes : list CustomNodeConfig) : list CustomNodeConfig :=
  match findIndex (fun n => String.eqb (configId n) (configId config)) customNodes with
  | Some existing => replaceAt existing config customNodes
  | None => customNodes ++ [config]
  end.

Definition removeCustomNode (id : string) (customNodes : list CustomNodeConfig)
    : list CustomNodeConfig :=
  filter (fun n => negb (String.eqb (configId n) id)) customNodes.
End CustomNodes.

(** * Properties *)

(** ** Containers *)

Section JsMapFacts.
Context {V : Type}.

Lemma map_get_set (k k' : string) (v : V) (m : JsMap V) :
  map_get k' (map_set k v m) = if String.eqb k k' then Some v else map_get k' m.
Proof.
  induction m as [|[k0 v0] m IH]; simpl.
  - destruct (String.eqb k k'); reflexivity.
  - destruct (String.eqb k0 k) eqn:E0; simpl.
    + apply String.eqb_eq in E0. subst k0.
      destruct (String.eqb k k'); reflexivity.
    + destruct (String.eqb k0 k') eqn:E1.
      * apply String.eqb_eq in E1. subst k0.
        rewrite String.eqb_sym, E0. reflexivity.
      * exact IH.
Qed.

Lemma map_keys_set (k : string) (v : V) (m : JsMap V) :
  map_keys (map_set k v m) =
  if includes (map_keys m) k then map_keys m else map_keys m ++ [k].
Proof.
  unfold map_keys, includes.
  induction m as [|[k0 v0] m IH]; simpl; [reflexivity|].
  rewrite (String.eqb_sym k k0).
  destruct (String.eqb k0 k); simpl; [reflexivity|].
  rewrite IH.
  destruct (existsb (String.eqb k) (List.map fst m)); reflexivity.
Qed.
End JsMapFacts.

Lemma includes_In (l : list string) (x : string) :
  includes l x = true <-> In x l.
Proof.
  unfold includes. rewrite existsb_exists. split.
  - intros [y [Hy E]]. apply String.eqb_eq in E. subst. exact Hy.
  - intros H. exists x. split; [exact H | apply String.eqb_refl].
Qed.

Lemma includes_not_In (l : list string) (x : string) :
  includes l x = false <-> ~ In x l.
Proof.
  rewrite <- includes_In. destruct (includes l x); split; congruence.
Qed.

Lemma map_keys_set_NoDup {V : Type} (k : string) (v : V) (m : JsMap V) :
  NoDup (map_keys m) -> NoDup (map_keys (map_set k v m)).
Proof.
  intros H. rewrite map_keys_set.
  destruct (includes (map_keys m) k) eqn:E; [exact H|].
  apply includes_not_In in E.
  apply NoDup_app; [exact H | repeat constructor; simpl; tauto |].
  intros x Hx [Hk|[]]. subst. contradiction.
Qed.

Lemma map_keys_set_In {V : Type} (k x : string) (v : V) (m : JsMap V) :
  In x (map_keys (map_set k v m)) <-> x = k \/ In x (map_keys m).
Proof.
  rewrite map_keys_set.
  destruct (includes (map_keys m) k) eqn:E.
  - apply includes_In in E. split; [tauto | intros [->|H]; assumption].
  - rewrite in_app_iff. simpl. split.
    + intros [H|[H|[]]]; auto.
    + intros [->|H]; auto.
Qed.

(** ** The graph store *)

Lemma sameEndpoints_true (connection : ConnectionArg) (c : Connection) :
  sameEndpoints connection c = true <->
  sourceNodeId c = argSourceNodeId connection /\
  sourcePortId c = argSourcePortId connection /\
  targetNodeId c = argTargetNodeId connection /\
  targetPortId c = argTargetPortId connection.
Proof.
  unfold sameEndpoints. rewrite !andb_true_iff, !String.eqb_eq. tauto.
Qed.

Lemma sameTarget_true (connection : ConnectionArg) (c : Connection) :
  sameTarget connection c = true <->
  targetNodeId c = argTargetNodeId connection /\
  targetPortId c = argTargetPortId connection.
Proof.
  unfold sameTarget. rewrite andb_true_iff, !String.eqb_eq. tauto.
Qed.

Lemma sameTarget_mkConnection (newId : string) (connection : ConnectionArg) :
  sameTarget connection (mkConnection newId connection) = true.
Proof.
  apply sameTarget_true. split; reflexivity.
Qed.

Lemma filter_none {A : Type} (p : A -> bool) (l : list A) :
  (forall x, In x l -> p x = false) -> filter p l = [].
Proof.
  induction l as [|x l IH]; intros H; simpl; [reflexivity|].
  rewrite (H x (or_introl eq_refl)). apply IH. intros y Hy. apply H. right. exact Hy.
Qed.

Lemma filter_all {A : Type} (p : A -> bool) (l : list A) :
  (forall x, In x l -> p x = true) -> filter p l = l.
Proof.
  induction l as [|x l IH]; intros H; simpl; [reflexivity|].
  rewrite (H x (or_introl eq_refl)). f_equal. apply IH. intros y Hy. apply H. right. exact Hy.
Qed.

Lemma addConnection_fresh (newId : string) (connection : ConnectionArg)
    (state : WorkflowStore) :
  existsb (sameEndpoints connection) (connections state) = false ->
  connections (addConnection newId connection state) =
  filter (fun c => negb (sameTarget connection c)) (connections state)
  ++ [mkConnection newId connection].
Proof.
  intros H. unfold addConnection. rewrite H. simpl.
  destruct (existsb (sameTarget connection) (connections state)) eqn:E; [reflexivity|].
  f_equal. symmetry. apply filter_all. intros c Hc.
  destruct (sameTarget connection c) eqn:Ec; [|reflexivity].
  assert (existsb (sameTarget connection) (connections state) = true)
    by (apply existsb_exists; exists c; auto).
  congruence.
Qed.

(** A graph with two connections into the one input [input-0] of node [T]. *)
Definition plainPort (portId : string) (d : PortDirection) (flag : bool) : Port :=
  {| pid := portId; pname := portId; ptype := "any"; direction := d;
     connected := Some flag; isReferenceInput := None; widget := None |}.

Definition plainNode (nodeId : string) (ins outs : list Port) : NodeInstance :=
  {| nid := nodeId; ntype := "text-input"; position := (0, 0)%Z; data := [];
     inputs := ins; outputs := outs; size := None |}.

Definition wire (connId s sp t tp : string) : Connection :=
  {| cid := connId; sourceNodeId := s; sourcePortId := sp;
     targetNodeId := t; targetPortId := tp; ctype := None |}.

Definition wireArg (s sp t tp : string) : ConnectionArg :=
  {| argSourceNodeId := s; argSourcePortId := sp;
     argTargetNodeId := t; argTargetPortId := tp; argType := None |}.

Definition twoIntoOne : WorkflowStore :=
  {| nodes := [ plainNode "A" [] [plainPort "output-0" output true];
                plainNode "B" [] [plainPort "output-0" output true];
                plainNode "T" [plainPort "input-0" input true] [] ];
     connections := [ wire "c1" "A" "output-0" "T" "input-0";
                      wire "c2" "B" "output-0" "T" "input-0" ];
     selectedNodeIds := [] |}.

(** C4 as the specification words it: whenever some connection terminates at
    the target port of [connection], adding [connection] leaves exactly the
    new connection there. *)
Definition last_write_wins_as_stated (newId : string) (connection : ConnectionArg)
    (state : WorkflowStore) : Prop :=
  terminatingAt connection state <> [] ->
  terminatingAt connection (addConnection newId connection state)
  = [mkConnection newId connection].

(** Adding again the connection from [A] leaves both old connections in
    place. *)
Lemma last_write_wins_counterexample :
  ~ last_write_wins_as_stated "c3" (wireArg "A" "output-0" "T" "input-0") twoIntoOne.
Proof.
  unfold last_write_wins_as_stated. intros H.
  assert (H0 : terminatingAt (wireArg "A" "output-0" "T" "input-0") twoIntoOne <> [])
    by (vm_compute; discriminate).
  specialize (H H0). vm_compute in H. discriminate H.
Qed.

(** C4 (amended): adding a connection that is not a duplicate of an existing
    one (same source port and same target port) leaves exactly one
    connection terminating at its target port, the new one; the connections
    that terminated there before are gone. *)
Theorem addConnection_last_write_wins (newId : string) (connection : ConnectionArg)
    (state : WorkflowStore) :
  terminatingAt connection state <> [] ->
  (forall c, In c (connections state) ->
             ~ (sourceNodeId c = argSourceNodeId connection /\
                sourcePortId c = argSourcePortId connection /\
                targetNodeId c = argTargetNodeId connection /\
                targetPortId c = argTargetPortId connection)) ->
  terminatingAt connection (addConnection newId connection state)
  = [mkConnection newId connection].
Proof.
  intros _ Hfresh.
  assert (E : existsb (sameEndpoints connection) (connections state) = false).
  { destruct (existsb (sameEndpoints connection) (connections state)) eqn:E; [|reflexivity].
    apply existsb_exists in E. destruct E as [c [Hc Hs]].
    apply sameEndpoints_true in Hs. exfalso. exact (Hfresh c Hc Hs). }
  unfold terminatingAt. rewrite (addConnection_fresh newId _ _ E).
  rewrite filter_app. simpl. rewrite sameTarget_mkConnection.
  rewrite filter_none; [reflexivity|].
  intros c Hc. apply filter_In in Hc. destruct Hc as [_ Hc].
  destruct (sameTarget connection c); [discriminate | reflexivity].
Qed.

Lemma addConnection_last_write_wins_witness :
  terminatingAt (wireArg "B" "output-1" "T" "input-0")
                (addConnection "c3" (wireArg "B" "output-1" "T" "input-0") twoIntoOne)
  = [mkConnection "c3" (wireArg "B" "output-1" "T" "input-0")].
Proof.
  apply addConnection_last_write_wins.
  - vm_compute. discriminate.
  - intros c Hc [H1 [H2 _]]. simpl in Hc.
    destruct Hc as [<-|[<-|[]]]; simpl in *; discriminate.
Defined.

(** A single node with one output and one input, and no connection. *)
Definition loneNode : WorkflowStore :=
  {| nodes := [ plainNode "A" [plainPort "input-0" input false]
                              [plainPort "output-0" output false] ];
     connections := [];
     selectedNodeIds := [] |}.

(** C5 as the specification words it, for a self-loop: the connection set is
    unchanged. *)
Definition self_loop_rejected_as_stated (newId : string) (connection : ConnectionArg)
    (state : WorkflowStore) : Prop :=
  argSourceNodeId connection = argTargetNodeId connection ->
  connections (addConnection newId connection state) = connections state.

(** A connection from the output of [A] to the input of [A] is stored. *)
Lemma self_loop_rejected_counterexample :
  ~ self_loop_rejected_as_stated "c1" (wireArg "A" "output-0" "A" "input-0") loneNode.
Proof.
  unfold self_loop_rejected_as_stated. intros H.
  specialize (H eq_refl). vm_compute in H. discriminate H.
Qed.

(** C5 (amended): a duplicate connection (same source port and same target
    port as an existing connection) is a no-op, the whole store is returned
    as it was; a self-loop is not rejected: unless it is a duplicate it is
    stored like any other connection. *)
Theorem addConnection_duplicate_noop (newId : string) (connection : ConnectionArg)
    (state : WorkflowStore) :
  ((exists c, In c (connections state) /\
              sourceNodeId c = argSourceNodeId connection /\
              sourcePortId c = argSourcePortId connection /\
              targetNodeId c = argTargetNodeId connection /\
              targetPortId c = argTargetPortId connection) ->
   addConnection newId connection state = state)
  /\
  (argSourceNodeId connection = argTargetNodeId connection ->
   existsb (sameEndpoints connection) (connections state) = false ->
   In (mkConnection newId connection)
      (connections (addConnection newId connection state))).
Proof.
  split.
  - intros [c [Hc Hs]]. unfold addConnection.
    assert (E : existsb (sameEndpoints connection) (connections state) = true).
    { apply existsb_exists. exists c. split; [exact Hc|].
      apply sameEndpoints_true. exact Hs. }
    rewrite E. reflexivity.
  - intros _ E. rewrite (addConnection_fresh newId _ _ E).
    apply in_or_app. right. left. reflexivity.
Qed.

Lemma addConnection_duplicate_noop_witness :
  addConnection "c3" (wireArg "A" "output-0" "T" "input-0") twoIntoOne = twoIntoOne
  /\ In (mkConnection "c1" (wireArg "A" "output-0" "A" "input-0"))
        (connections (addConnection "c1" (wireArg "A" "output-0" "A" "input-0") loneNode)).
Proof.
  split.
  - apply (proj1 (addConnection_duplicate_noop "c3"
                    (wireArg "A" "output-0" "T" "input-0") twoIntoOne)).
    exists (wire "c1" "A" "output-0" "T" "input-0").
    simpl. repeat split. left. reflexivity.
  - apply (proj2 (addConnection_duplicate_noop "c1"
                    (wireArg "A" "output-0" "A" "input-0") loneNode));
      reflexivity.
Defined.

(** One connection, from [A], into the input of [T]; [B] is not connected. *)
Definition occupiedInput : WorkflowStore :=
  {| nodes := [ plainNode "A" [] [plainPort "output-0" output true];
                plainNode "B" [] [plainPort "output-0" output false];
                plainNode "T" [plainPort "input-0" input true] [] ];
     connections := [ wire "c1" "A" "output-0" "T" "input-0" ];
     selectedNodeIds := [] |}.

(** C6 (the code departs from it): connecting [B] to the occupied input of
    [T] removes the connection from [A], after which no connection
    originates from the output of [A]; yet the [connected] flag of that
    output is still [true].  [removeConnection] on the same connection
    clears the flag. *)
Theorem addConnection_replaced_source_flag_stale :
  let after := addConnection "c2" (wireArg "B" "output-0" "T" "input-0") occupiedInput in
  connections after = [wire "c2" "B" "output-0" "T" "input-0"]
  /\ originatingFrom "A" "output-0" after = []
  /\ outputFlag "A" "output-0" after = Some true
  /\ outputFlag "A" "output-0" (removeConnection "c1" occupiedInput) = Some false.
Proof.
  vm_compute. repeat split.
Qed.

(** A store without nodes that holds a connection left dangling. *)
Definition danglingStore : WorkflowStore :=
  {| nodes := [];
     connections := [ wire "c1" "X" "output-0" "Y" "input-0" ];
     selectedNodeIds := [] |}.

(** C8 as the specification words it, for an unknown id: the node set and
    the connection set are unchanged. *)
Definition removeNode_unknown_as_stated (nodeId : string) (state : WorkflowStore)
    : Prop :=
  (forall n, In n (nodes state) -> nid n <> nodeId) ->
  (forall n, In n (nodes (removeNode nodeId state)) <-> In n (nodes state))
  /\ (forall c, In c (connections (removeNode nodeId state))
                <-> In c (connections state)).

(** No node has the id [X], and removing [X] removes the connection. *)
Lemma removeNode_unknown_counterexample :
  ~ removeNode_unknown_as_stated "X" danglingStore.
Proof.
  unfold removeNode_unknown_as_stated. intros H.
  destruct H as [_ H]; [intros n []|].
  specialize (H (wire "c1" "X" "output-0" "Y" "input-0")).
  destruct H as [_ H]. simpl in H. destruct H. left. reflexivity.
Qed.

(** C8 (amended): [removeNode] removes exactly the nodes with the given id
    and exactly the connections that reference it as source or target, no
    other node and no other connection; for an unknown id the node set is
    unchanged, and so is the connection set when no connection references
    the id (a connection left dangling on it is removed). *)
Theorem removeNode_frame (nodeId : string) (state : WorkflowStore) :
  (forall n, In n (nodes (removeNode nodeId state))
             <-> In n (nodes state) /\ nid n <> nodeId)
  /\ (forall c, In c (connections (removeNode nodeId state))
                <-> In c (connections state)
                    /\ sourceNodeId c <> nodeId /\ targetNodeId c <> nodeId)
  /\ ((forall n, In n (nodes state) -> nid n <> nodeId) ->
      nodes (removeNode nodeId state) = nodes state)
  /\ ((forall c, In c (connections state) ->
                 sourceNodeId c <> nodeId /\ targetNodeId c <> nodeId) ->
      connections (removeNode nodeId state) = connections state).
Proof.
  unfold removeNode. simpl. repeat split.
  - apply filter_In in H. tauto.
  - apply filter_In in H. destruct H as [_ H].
    apply negb_true_iff, String.eqb_neq in H. exact H.
  - intros [H1 H2]. apply filter_In. split; [exact H1|].
    apply negb_true_iff, String.eqb_neq. exact H2.
  - apply filter_In in H. tauto.
  - apply filter_In in H. destruct H as [_ H].
    apply andb_true_iff in H. destruct H as [H _].
    apply negb_true_iff, String.eqb_neq in H. exact H.
  - apply filter_In in H. destruct H as [_ H].
    apply andb_true_iff in H. destruct H as [_ H].
    apply negb_true_iff, String.eqb_neq in H. exact H.
  - intros [H1 [H2 H3]]. apply filter_In. split; [exact H1|].
    apply andb_true_iff. split; apply negb_true_iff, String.eqb_neq; assumption.
  - intros H. apply filter_all. intros n Hn.
    apply negb_true_iff, String.eqb_neq. exact (H n Hn).
  - intros H. apply filter_all. intros c Hc.
    destruct (H c Hc) as [H1 H2].
    apply andb_true_iff. split; apply negb_true_iff, String.eqb_neq; assumption.
Qed.

Lemma removeNode_frame_witness :
  nodes (removeNode "Z" twoIntoOne) = nodes twoIntoOne
  /\ connections (removeNode "Z" twoIntoOne) = connections twoIntoOne
  /\ (In (wire "c2" "B" "output-0" "T" "input-0") (connections (removeNode "A" twoIntoOne))
      <-> In (wire "c2" "B" "output-0" "T" "input-0") (connections twoIntoOne)
          /\ "B" <> "A" /\ "T" <> "A").
Proof.
  pose proof (removeNode_frame "Z" twoIntoOne) as [_ [_ [Hn Hc]]].
  pose proof (removeNode_frame "A" twoIntoOne) as [_ [Hc' _]].
  split; [|split].
  - apply Hn. intros n Hn'. simpl in Hn'.
    destruct Hn' as [<-|[<-|[<-|[]]]]; simpl; discriminate.
  - apply Hc. intros c Hc0. simpl in Hc0.
    destruct Hc0 as [<-|[<-|[]]]; simpl; split; discriminate.
  - exact (Hc' (wire "c2" "B" "output-0" "T" "input-0")).
Defined.

(** ** The execution order *)

Lemma degreeOf_set (k v : string) (d : Z) (m : JsMap Z) :
  degreeOf (map_set k d m) v = if String.eqb k v then d else degreeOf m v.
Proof.
  unfold degreeOf. rewrite map_get_set. destruct (String.eqb k v); reflexivity.
Qed.

Lemma targetsOf_set (k u : string) (ts : list string) (m : JsMap (list string)) :
  targetsOf (map_set k ts m) u = if String.eqb k u then ts else targetsOf m u.
Proof.
  unfold targetsOf. rewrite map_get_set. destruct (String.eqb k u); reflexivity.
Qed.

(** The number of connections into [v]. *)
Definition inDegreeOf (connections : list Connection) (v : string) : nat :=
  List.length (filter (fun c => String.eqb (targetNodeId c) v) connections).

(** The targets of the connections out of [u], in the order of the
    connections. *)
Definition successors (connections : list Connection) (u : string) : list string :=
  List.map targetNodeId (filter (fun c => String.eqb (sourceNodeId c) u) connections).

(** The number of connections into [v] whose source is not among [done]. *)
Definition pending (connections : list Connection) (done : list string)
    (v : string) : nat :=
  List.length (filter (fun c => String.eqb (targetNodeId c) v
                                && negb (includes done (sourceNodeId c)))
                      connections).

Lemma addEdge_all_degree (connections : list Connection)
    (m : JsMap Z * JsMap (list string)) (v : string) :
  degreeOf (fst (fold_left addEdge connections m)) v
  = (degreeOf (fst m) v + Z.of_nat (inDegreeOf connections v))%Z.
Proof.
  revert m. induction connections as [|c cs IH]; intros m; simpl.
  - unfold inDegreeOf. simpl. lia.
  - rewrite IH. unfold addEdge at 1. simpl. rewrite degreeOf_set.
    unfold inDegreeOf. simpl.
    destruct (String.eqb (targetNodeId c) v) eqn:E; simpl.
    + apply String.eqb_eq in E. subst v. lia.
    + lia.
Qed.

Lemma addEdge_all_targets (connections : list Connection)
    (m : JsMap Z * JsMap (list string)) (u : string) :
  targetsOf (snd (fold_left addEdge connections m)) u
  = targetsOf (snd m) u ++ successors connections u.
Proof.
  revert m. induction connections as [|c cs IH]; intros m; simpl.
  - unfold successors. simpl. rewrite app_nil_r. reflexivity.
  - rewrite IH. unfold addEdge at 1. simpl. rewrite targetsOf_set.
    unfold successors. simpl.
    destruct (String.eqb (sourceNodeId c) u) eqn:E; simpl.
    + apply String.eqb_eq in E. subst u. rewrite <- app_assoc. reflexivity.
    + reflexivity.
Qed.

Lemma addEdge_all_keys (connections : list Connection)
    (m : JsMap Z * JsMap (list string)) :
  NoDup (map_keys (fst m)) ->
  NoDup (map_keys (fst (fold_left addEdge connections m)))
  /\ forall x, In x (map_keys (fst (fold_left addEdge connections m))) ->
               In x (map_keys (fst m)) \/ In x (List.map targetNodeId connections).
Proof.
  revert m. induction connections as [|c cs IH]; intros m Hm; simpl.
  - split; [exact Hm | intros x Hx; left; exact Hx].
  - destruct (IH (addEdge m c)) as [H1 H2].
    + unfold addEdge. simpl. apply map_keys_set_NoDup. exact Hm.
    + split; [exact H1|]. intros x Hx. destruct (H2 x Hx) as [H|H].
      * unfold addEdge in H. simpl in H. apply map_keys_set_In in H.
        destruct H as [->|H]; auto.
      * auto.
Qed.

Lemma initMaps_spec (nodes : list NodeInstance) :
  (forall v, degreeOf (fst (initMaps nodes)) v = 0%Z)
  /\ (forall u, targetsOf (snd (initMaps nodes)) u = [])
  /\ NoDup (map_keys (fst (initMaps nodes)))
  /\ (forall x, In x (map_keys (fst (initMaps nodes))) -> In x (List.map nid nodes)).
Proof.
  unfold initMaps.
  set (step := fun (m : JsMap Z * JsMap (list string)) (node : NodeInstance) =>
                 (map_set (nid node) 0%Z (fst m), map_set (nid node) [] (snd m))).
  assert (G : forall l m,
             (forall v, degreeOf (fst m) v = 0%Z) ->
             (forall u, targetsOf (snd m) u = []) ->
             NoDup (map_keys (fst m)) ->
             (forall v, degreeOf (fst (fold_left step l m)) v = 0%Z)
             /\ (forall u, targetsOf (snd (fold_left step l m)) u = [])
             /\ NoDup (map_keys (fst (fold_left step l m)))
             /\ (forall x, In x (map_keys (fst (fold_left step l m))) ->
                           In x (map_keys (fst m)) \/ In x (List.map nid l))).
  { induction l as [|n ns IH]; intros m Hd Ht Hk; simpl.
    - repeat split; auto.
    - destruct (IH (step m n)) as [A [B [C D]]].
      + intros v. unfold step. simpl. rewrite degreeOf_set.
        destruct (String.eqb (nid n) v); [reflexivity | apply Hd].
      + intros u. unfold step. simpl. rewrite targetsOf_set.
        destruct (String.eqb (nid n) u); [reflexivity | apply Ht].
      + unfold step. simpl. apply map_keys_set_NoDup. exact Hk.
      + repeat split; auto. intros x Hx. destruct (D x Hx) as [H|H]; auto.
        unfold step in H. simpl in H. apply map_keys_set_In in H.
        destruct H as [->|H]; auto. }
  destruct (G nodes ([], [])) as [A [B [C D]]];
    [reflexivity | reflexivity | constructor |].
  repeat split; auto. intros x Hx. destruct (D x Hx) as [[]|H]. exact H.
Qed.

Lemma buildMaps_degree (nodes : list NodeInstance) (connections : list Connection)
    (v : string) :
  degreeOf (fst (buildMaps nodes connections)) v = Z.of_nat (inDegreeOf connections v).
Proof.
  unfold buildMaps. rewrite addEdge_all_degree.
  rewrite (proj1 (initMaps_spec nodes)). lia.
Qed.

Lemma buildMaps_targets (nodes : list NodeInstance) (connections : list Connection)
    (u : string) :
  targetsOf (snd (buildMaps nodes connections)) u = successors connections u.
Proof.
  unfold buildMaps. rewrite addEdge_all_targets.
  rewrite (proj1 (proj2 (initMaps_spec nodes))). reflexivity.
Qed.

Lemma buildMaps_keys (nodes : list NodeInstance) (connections : list Connection) :
  NoDup (map_keys (fst (buildMaps nodes connections)))
  /\ forall x, In x (map_keys (fst (buildMaps nodes connections))) ->
               In x (List.map nid nodes) \/ In x (List.map targetNodeId connections).
Proof.
  unfold buildMaps.
  destruct (initMaps_spec nodes) as [_ [_ [C D]]].
  destruct (addEdge_all_keys connections (initMaps nodes) C) as [H1 H2].
  split; [exact H1|]. intros x Hx. destruct (H2 x Hx); auto.
Qed.

Lemma initialQueue_spec (inDegree : JsMap Z) :
  NoDup (map_keys inDegree) ->
  NoDup (initialQueue inDegree)
  /\ forall x, In x (initialQueue inDegree) ->
               In x (map_keys inDegree) /\ degreeOf inDegree x = 0%Z.
Proof.
  unfold initialQueue, map_keys, degreeOf.
  induction inDegree as [|[k d] m IH]; simpl; intros H.
  - split; [constructor | intros x []].
  - inversion H as [|? ? Hk Hm]; subst. destruct (IH Hm) as [I1 I2].
    destruct (Z.eqb_spec d 0) as [Hd|Hd]; simpl.
    + split.
      * constructor; [|exact I1]. intros Hin. apply Hk. apply (I2 k Hin).
      * intros x [<-|Hx].
        -- rewrite String.eqb_refl. auto.
        -- destruct (I2 x Hx) as [J1 J2]. split; [auto|].
           destruct (String.eqb k x) eqn:E; [|exact J2].
           apply String.eqb_eq in E. subst. contradiction.
    + split; [exact I1|]. intros x Hx. destruct (I2 x Hx) as [J1 J2].
      split; [auto|].
      destruct (String.eqb k x) eqn:E; [|exact J2].
      apply String.eqb_eq in E. subst. contradiction.
Qed.

Lemma includes_app (l1 l2 : list string) (x : string) :
  includes (l1 ++ l2) x = includes l1 x || includes l2 x.
Proof.
  unfold includes. apply existsb_app.
Qed.

(** What one pass over the targets of a visited node does to the in-degrees
    and to the queue, when each degree is at least the number of times the
    node occurs among the targets. *)
Lemma relax_all_spec (targets : list string) :
  forall (inDegree : JsMap Z) (queue : list string),
    (forall v, (Z.of_nat (count_occ string_dec targets v) <= degreeOf inDegree v)%Z) ->
    (forall v, degreeOf (fst (fold_left relax targets (inDegree, queue))) v
               = (degreeOf inDegree v - Z.of_nat (count_occ string_dec targets v))%Z)
    /\ exists fresh,
         snd (fold_left relax targets (inDegree, queue)) = queue ++ fresh
         /\ NoDup fresh
         /\ forall v, In v fresh <->
                      In v targets
                      /\ degreeOf inDegree v = Z.of_nat (count_occ string_dec targets v).
Proof.
  induction targets as [|t ts IH]; intros inDegree queue Hge.
  - simpl. split; [intros v; lia|].
    exists []. split; [rewrite app_nil_r; reflexivity|].
    split; [constructor|]. intros v. simpl. tauto.
  - simpl fold_left.
    set (d := degreeOf inDegree t) in *.
    set (inDegree1 := map_set t (d - 1)%Z inDegree).
    set (queue1 := if Z.eqb (d - 1) 0 then queue ++ [t] else queue).
    change (relax (inDegree, queue) t) with (inDegree1, queue1).
    assert (Hd1 : forall v, degreeOf inDegree1 v
                            = if string_dec t v then (d - 1)%Z else degreeOf inDegree v).
    { intros v. unfold inDegree1. rewrite degreeOf_set.
      destruct (string_dec t v) as [->|Hn].
      - rewrite String.eqb_refl. reflexivity.
      - apply String.eqb_neq in Hn. rewrite Hn. reflexivity. }
    assert (Hge1 : forall v, (Z.of_nat (count_occ string_dec ts v)
                              <= degreeOf inDegree1 v)%Z).
    { intros v. rewrite Hd1. specialize (Hge v). simpl in Hge.
      destruct (string_dec t v) as [->|Hn]; [fold d in Hge|]; lia. }
    destruct (IH inDegree1 queue1 Hge1) as [Hdeg [fresh [Hq [Hnd Hin]]]].
    split.
    + intros v. rewrite Hdeg, Hd1. simpl.
      destruct (string_dec t v) as [->|Hn]; [fold d|]; lia.
    + subst queue1. destruct (Z.eqb_spec (d - 1) 0) as [Hz|Hz].
      * exists (t :: fresh). rewrite Hq, <- app_assoc.
        split; [reflexivity|].
        assert (Hts : count_occ string_dec ts t = 0).
        { specialize (Hge t). simpl in Hge.
          destruct (string_dec t t) as [_|Hn]; [|congruence].
          fold d in Hge. lia. }
        assert (Hnt : ~ In t ts) by (apply (count_occ_not_In string_dec); exact Hts).
        split.
        -- constructor; [|exact Hnd]. intros Hf. apply Hin in Hf. tauto.
        -- intros v. simpl. rewrite Hin, Hd1.
           destruct (string_dec t v) as [->|Hn].
           ++ fold d. split; [intros _; split; [auto|lia]|auto].
           ++ split; [intros [H|H]; [contradiction|tauto] | intros [[H|H] H']; [contradiction|auto]].
      * exists fresh. split; [exact Hq|].
        split; [exact Hnd|].
        intros v. simpl. rewrite Hin, Hd1.
        destruct (string_dec t v) as [->|Hn].
        -- fold d. split.
           ++ intros [H1 H2]. split; [auto|lia].
           ++ intros [_ H2]. split; [|lia].
              apply (count_occ_In string_dec). lia.
        -- split; [intros [H1 H2]; auto | intros [[H|H] H']; [contradiction|auto]].
Qed.

Section Kahn.
Variable connections : list Connection.

Lemma pending_visit (done : list string) (u v : string) :
  ~ In u done ->
  pending connections (done ++ [u]) v
  + count_occ string_dec (successors connections u) v
  = pending connections done v.
Proof.
  intros Hu. unfold pending, successors.
  induction connections as [|c cs IH]; simpl; [reflexivity|].
  rewrite includes_app. unfold includes at 2. simpl. rewrite orb_false_r.
  destruct (String.eqb_spec u (sourceNodeId c)) as [E|E].
  - rewrite <- E, String.eqb_refl.
    apply includes_not_In in Hu. rewrite Hu. simpl.
    rewrite andb_false_r, andb_true_r.
    destruct (String.eqb_spec (targetNodeId c) v) as [Ev|Ev]; simpl.
    + destruct (string_dec (targetNodeId c) v); [|contradiction]. lia.
    + destruct (string_dec (targetNodeId c) v); [contradiction|]. exact IH.
  - assert (Es : String.eqb (sourceNodeId c) u = false)
      by (apply String.eqb_neq; congruence).
    rewrite Es, orb_false_r.
    destruct (String.eqb (targetNodeId c) v && negb (includes done (sourceNodeId c)));
      simpl; lia.
Qed.

Lemma pending_zero (done : list string) (v : string) :
  pending connections done v = 0 <->
  forall c, In c connections -> targetNodeId c = v -> In (sourceNodeId c) done.
Proof.
  unfold pending. split.
  - intros H c Hc Hv. apply length_zero_iff_nil in H.
    destruct (includes done (sourceNodeId c)) eqn:E.
    + apply includes_In. exact E.
    + exfalso.
      assert (Hin : In c (filter (fun c => String.eqb (targetNodeId c) v
                                           && negb (includes done (sourceNodeId c)))
                                 connections)).
      { apply filter_In. split; [exact Hc|]. rewrite E.
        subst v. rewrite String.eqb_refl. reflexivity. }
      rewrite H in Hin. exact Hin.
  - intros H. rewrite filter_none; [reflexivity|].
    intros c Hc. destruct (String.eqb_spec (targetNodeId c) v) as [Ev|Ev]; [|reflexivity].
    simpl. apply negb_false_iff, includes_In. exact (H c Hc Ev).
Qed.

(** The state of the loop: the in-degree map, the queue and the result. *)
Record loop_invariant (inDegree : JsMap Z) (queue result : list string) : Prop := {
  inv_nodup : NoDup (result ++ queue);
  inv_degree : forall v, degreeOf inDegree v = Z.of_nat (pending connections result v);
  inv_queue : forall v, In v queue -> degreeOf inDegree v = 0%Z;
  inv_before : forall l1 v l2, result = l1 ++ v :: l2 ->
               forall c, In c connections -> targetNodeId c = v ->
                         In (sourceNodeId c) l1;
  inv_keys : forall v, In v (result ++ queue) ->
                       degreeOf inDegree v = 0%Z
}.
Arguments inv_nodup {inDegree queue result} _.
Arguments inv_degree {inDegree queue result} _ v.
Arguments inv_queue {inDegree queue result} _ v _.
Arguments inv_before {inDegree queue result} _ l1 v l2 _ c _ _.
Arguments inv_keys {inDegree queue result} _ v _.

Lemma loop_invariant_result_done (inDegree : JsMap Z) (queue result : list string)
    (v : string) :
  loop_invariant inDegree queue result -> In v result ->
  pending connections result v = 0.
Proof.
  intros Inv Hv. apply pending_zero. intros c Hc Ht.
  destruct (in_split _ _ Hv) as [l1 [l2 E]].
  pose proof (inv_before Inv l1 v l2 E c Hc Ht) as H.
  rewrite E. apply in_or_app. left. exact H.
Qed.

Lemma loop_invariant_step (adjacency : JsMap (list string))
    (inDegree : JsMap Z) (nodeId : string) (queue result : list string) :
  (forall u, targetsOf adjacency u = successors connections u) ->
  loop_invariant inDegree (nodeId :: queue) result ->
  loop_invariant (fst (fold_left relax (targetsOf adjacency nodeId) (inDegree, queue)))
                 (snd (fold_left relax (targetsOf adjacency nodeId) (inDegree, queue)))
                 (result ++ [nodeId]).
Proof.
  intros Hadj Inv. rewrite Hadj.
  assert (Hnd := inv_nodup Inv).
  assert (Hu : ~ In nodeId result).
  { apply NoDup_remove_2 in Hnd. intros H. apply Hnd. apply in_or_app. left. exact H. }
  assert (Hge : forall v, (Z.of_nat (count_occ string_dec (successors connections nodeId) v)
                           <= degreeOf inDegree v)%Z).
  { intros v. rewrite (inv_degree Inv). pose proof (pending_visit result nodeId v Hu). lia. }
  destruct (relax_all_spec (successors connections nodeId) inDegree queue Hge)
    as [Hdeg [fresh [Hq [Hfnd Hfin]]]].
  assert (Hdeg' : forall v,
             degreeOf (fst (fold_left relax (successors connections nodeId)
                                      (inDegree, queue))) v
             = Z.of_nat (pending connections (result ++ [nodeId]) v)).
  { intros v. rewrite Hdeg, (inv_degree Inv). pose proof (pending_visit result nodeId v Hu). lia. }
  assert (Hfresh : forall v, In v fresh ->
                             ~ In v (result ++ nodeId :: queue)).
  { intros v Hv Hold. apply Hfin in Hv. destruct Hv as [Hv1 Hv2].
    apply (count_occ_In string_dec) in Hv1.
    pose proof (inv_keys Inv v Hold). lia. }
  rewrite Hq. constructor.
  - rewrite <- app_assoc. simpl.
    replace (result ++ nodeId :: queue ++ fresh)
      with ((result ++ nodeId :: queue) ++ fresh)
      by (rewrite <- app_assoc; reflexivity).
    apply NoDup_app; [exact Hnd | exact Hfnd |].
    intros x Hx Hf. exact (Hfresh x Hf Hx).
  - exact Hdeg'.
  - intros v Hv. rewrite Hdeg. apply in_app_or in Hv. destruct Hv as [Hv|Hv].
    + pose proof (inv_queue Inv v (or_intror Hv)). specialize (Hge v). lia.
    + apply Hfin in Hv. lia.
  - intros l1 v l2 E c Hc Ht.
    destruct l2 as [|x l2'] using rev_ind.
    + apply app_inj_tail in E. destruct E as [E1 E2]. subst l1 v.
      pose proof (inv_queue Inv nodeId (or_introl eq_refl)) as H0.
      rewrite (inv_degree Inv) in H0.
      assert (Hp : pending connections result nodeId = 0) by lia.
      exact (proj1 (pending_zero result nodeId) Hp c Hc Ht).
    + clear IHl2'.
      replace (l1 ++ v :: l2' ++ [x]) with ((l1 ++ v :: l2') ++ [x]) in E
        by (rewrite <- app_assoc; reflexivity).
      apply app_inj_tail in E. destruct E as [E1 E2].
      exact (inv_before Inv l1 v l2' E1 c Hc Ht).
  - intros v Hv. rewrite Hdeg'.
    rewrite <- app_assoc in Hv. simpl in Hv.
    apply in_app_or in Hv. destruct Hv as [Hv|[Hv|Hv]].
    + assert (pending connections result v = 0)
        by (apply (loop_invariant_result_done _ _ _ _ Inv); exact Hv).
      pose proof (pending_visit result nodeId v Hu). lia.
    + subst v. pose proof (inv_queue Inv nodeId (or_introl eq_refl)) as H0.
      rewrite (inv_degree Inv) in H0. pose proof (pending_visit result nodeId nodeId Hu). lia.
    + apply in_app_or in Hv. destruct Hv as [Hv|Hv].
      * pose proof (inv_queue Inv v (or_intror Hv)) as H0.
        rewrite (inv_degree Inv) in H0. pose proof (pending_visit result nodeId v Hu). lia.
      * apply Hfin in Hv. rewrite (inv_degree Inv) in Hv.
        pose proof (pending_visit result nodeId v Hu). lia.
Qed.
End Kahn.

Lemma drain_sound (connections : list Connection) (adjacency : JsMap (list string))
    (s : JsMap Z * list string) (result : list string) :
  (forall u, targetsOf adjacency u = successors connections u) ->
  loop_invariant connections (fst s) (snd s) result ->
  NoDup (drain adjacency s result)
  /\ forall l1 v l2, drain adjacency s result = l1 ++ v :: l2 ->
     forall c, In c connections -> targetNodeId c = v -> In (sourceNodeId c) l1.
Proof.
  intros Hadj. funelim (drain adjacency s result); intros Inv; simpl in Inv.
  - destruct Inv as [Hnd _ _ Hbefore _]. rewrite app_nil_r in Hnd.
    split; [exact Hnd | exact Hbefore].
  - apply H; [exact Hadj|].
    apply loop_invariant_step; assumption.
Qed.

Lemma relax_all_queue (targets : list string) (s : JsMap Z * list string) (x : string) :
  In x (snd (fold_left relax targets s)) -> In x (snd s) \/ In x targets.
Proof.
  revert s. induction targets as [|t ts IH]; intros s H; simpl in *.
  - left. exact H.
  - destruct (IH _ H) as [H1|H1]; [|auto].
    unfold relax in H1. simpl in H1.
    destruct (Z.eqb (degreeOf (fst s) t - 1) 0); [|auto].
    apply in_app_or in H1. destruct H1 as [H1|[H1|[]]]; auto.
Qed.

Lemma drain_members (adjacency : JsMap (list string))
    (s : JsMap Z * list string) (result : list string) (x : string) :
  In x (drain adjacency s result) ->
  In x result \/ In x (snd s) \/ exists u, In x (targetsOf adjacency u).
Proof.
  funelim (drain adjacency s result); intros Hx.
  - left. exact Hx.
  - destruct (H x Hx) as [H1|[H1|H1]].
    + apply in_app_or in H1. destruct H1 as [H1|[H1|[]]]; [auto|].
      subst. right. left. left. reflexivity.
    + apply relax_all_queue in H1. simpl in H1. destruct H1 as [H1|H1].
      * right. left. right. exact H1.
      * right. right. exists nodeId. exact H1.
    + right. right. exact H1.
Qed.

Lemma initial_invariant (nodes : list NodeInstance) (connections : list Connection) :
  loop_invariant connections (fst (buildMaps nodes connections))
                 (initialQueue (fst (buildMaps nodes connections))) [].
Proof.
  destruct (buildMaps_keys nodes connections) as [Hnd _].
  destruct (initialQueue_spec _ Hnd) as [Hq1 Hq2].
  constructor.
  - exact Hq1.
  - intros v. rewrite buildMaps_degree. unfold pending, inDegreeOf.
    f_equal. f_equal. apply filter_ext. intros c. simpl. rewrite andb_true_r. reflexivity.
  - intros v Hv. apply (Hq2 v Hv).
  - intros l1 v l2 E. destruct l1; discriminate E.
  - intros v Hv. apply (Hq2 v Hv).
Qed.

(** The order puts the source of every connection strictly before its
    target, for every graph. *)
Lemma getExecutionOrder_sources_first (nodes : list NodeInstance)
    (connections : list Connection) :
  forall l1 v l2, getExecutionOrder nodes connections = l1 ++ v :: l2 ->
  forall c, In c connections -> targetNodeId c = v -> In (sourceNodeId c) l1.
Proof.
  unfold getExecutionOrder.
  apply (drain_sound connections).
  - intros u. apply buildMaps_targets.
  - apply initial_invariant.
Qed.

Lemma getExecutionOrder_NoDup (nodes : list NodeInstance)
    (connections : list Connection) :
  NoDup (getExecutionOrder nodes connections).
Proof.
  unfold getExecutionOrder.
  apply (drain_sound connections).
  - intros u. apply buildMaps_targets.
  - apply initial_invariant.
Qed.

Lemma getExecutionOrder_members (nodes : list NodeInstance)
    (connections : list Connection) (x : string) :
  In x (getExecutionOrder nodes connections) ->
  In x (List.map nid nodes) \/ In x (List.map targetNodeId connections).
Proof.
  unfold getExecutionOrder. intros H.
  apply drain_members in H. destruct H as [[]|[H|[u H]]].
  - simpl in H.
    destruct (buildMaps_keys nodes connections) as [Hnd Hk].
    destruct (initialQueue_spec _ Hnd) as [_ Hq].
    apply Hk. apply (Hq x H).
  - rewrite buildMaps_targets in H. right. unfold successors in H.
    apply in_map_iff in H. destruct H as [c [E Hc]].
    apply filter_In in Hc. apply in_map_iff. exists c. tauto.
Qed.

(** ** Cycles *)

(** [edge connections u v]: some connection leads from [u] to [v]. *)
Definition edge (connections : list Connection) (u v : string) : Prop :=
  exists c, In c connections /\ sourceNodeId c = u /\ targetNodeId c = v.

(** [v] lies on a cycle: a path of one or more connections leads from [v]
    back to [v]. *)
Definition onCycle (connections : list Connection) (v : string) : Prop :=
  clos_trans string (edge connections) v v.

Definition acyclic (connections : list Connection) : Prop :=
  forall v, ~ onCycle connections v.

Lemma getExecutionOrder_path_first (nodes : list NodeInstance)
    (connections : list Connection) (u v : string) :
  clos_trans string (edge connections) u v ->
  forall l1 l2, getExecutionOrder nodes connections = l1 ++ v :: l2 -> In u l1.
Proof.
  intros H. apply clos_trans_tn1 in H.
  induction H as [v [c [Hc [Hs Ht]]] | v w [c [Hc [Hs Ht]]] Hpath IH]; intros l1 l2 E.
  - subst u. exact (getExecutionOrder_sources_first nodes connections l1 v l2 E c Hc Ht).
  - pose proof (getExecutionOrder_sources_first nodes connections l1 w l2 E c Hc Ht) as Hv.
    rewrite Hs in Hv.
    destruct (in_split _ _ Hv) as [a [b Eab]].
    assert (E' : getExecutionOrder nodes connections = a ++ v :: (b ++ w :: l2)).
    { rewrite E, Eab, <- app_assoc. reflexivity. }
    specialize (IH a _ E'). rewrite Eab. apply in_or_app. left. exact IH.
Qed.

Lemma getExecutionOrder_skips_cycles (nodes : list NodeInstance)
    (connections : list Connection) (v : string) :
  onCycle connections v -> ~ In v (getExecutionOrder nodes connections).
Proof.
  intros Hcyc Hin.
  destruct (in_split _ _ Hin) as [l1 [l2 E]].
  pose proof (getExecutionOrder_path_first nodes connections v v Hcyc l1 l2 E) as H1.
  pose proof (getExecutionOrder_NoDup nodes connections) as Hnd.
  rewrite E in Hnd. apply NoDup_remove_2 in Hnd. apply Hnd.
  apply in_or_app. left. exact H1.
Qed.

(** Two small graphs: the chain [A -> B], and the loop [A -> B -> A]. *)
Definition chainNodes : list NodeInstance := [plainNode "A" [] []; plainNode "B" [] []].
Definition chainWires : list Connection := [wire "c1" "A" "output-0" "B" "input-0"].
Definition loopWires : list Connection :=
  [wire "c1" "A" "output-0" "B" "input-0"; wire "c2" "B" "output-0" "A" "input-0"].

Lemma chainWires_paths (u v : string) :
  clos_trans string (edge chainWires) u v -> u = "A" /\ v = "B".
Proof.
  induction 1 as [u v [c [Hc [Hs Ht]]] | u w v _ [_ IH1] _ [IH2 _]].
  - destruct Hc as [<-|[]]. simpl in *. auto.
  - subst w. discriminate IH2.
Qed.

Lemma chainWires_acyclic : acyclic chainWires.
Proof.
  intros v H. apply chainWires_paths in H. destruct H as [H1 H2].
  subst v. discriminate H2.
Qed.

Lemma loopWires_cycle : onCycle loopWires "A".
Proof.
  apply t_trans with (y := "B"); apply t_step.
  - exists (wire "c1" "A" "output-0" "B" "input-0"). simpl. auto.
  - exists (wire "c2" "B" "output-0" "A" "input-0"). simpl. auto.
Qed.

(** C1: for an acyclic graph, wherever the target of a connection stands in
    the execution order, the source of the connection stands before it and
    not after it; and a node that lies on a cycle is nowhere in the order.
    (The first part holds for every graph, see
    [getExecutionOrder_sources_first].) *)
Theorem getExecutionOrder_topological (nodes : list NodeInstance)
    (connections : list Connection) :
  (acyclic connections ->
   forall c, In c connections ->
   forall l1 l2, getExecutionOrder nodes connections = l1 ++ targetNodeId c :: l2 ->
                 In (sourceNodeId c) l1 /\ ~ In (sourceNodeId c) (targetNodeId c :: l2))
  /\ (forall v, onCycle connections v -> ~ In v (getExecutionOrder nodes connections)).
Proof.
  split.
  - intros _ c Hc l1 l2 E.
    pose proof (getExecutionOrder_sources_first nodes connections l1 _ l2 E c Hc eq_refl) as H.
    split; [exact H|].
    pose proof (getExecutionOrder_NoDup nodes connections) as Hnd.
    rewrite E in Hnd. intros Hin.
    destruct (in_split _ _ H) as [x [y Exy]]. rewrite Exy, <- app_assoc in Hnd.
    apply NoDup_remove_2 in Hnd. apply Hnd.
    apply in_or_app. right. apply in_or_app. right. exact Hin.
  - intros v. apply getExecutionOrder_skips_cycles.
Qed.

Lemma getExecutionOrder_topological_witness :
  (forall l1 l2, getExecutionOrder chainNodes chainWires = l1 ++ "B" :: l2 ->
                 In "A" l1 /\ ~ In "A" ("B" :: l2))
  /\ ~ In "A" (getExecutionOrder chainNodes loopWires).
Proof.
  split.
  - apply (proj1 (getExecutionOrder_topological chainNodes chainWires)
                 chainWires_acyclic (wire "c1" "A" "output-0" "B" "input-0")).
    left. reflexivity.
  - apply (proj2 (getExecutionOrder_topological chainNodes loopWires) "A").
    exact loopWires_cycle.
Defined.

(** ** Each node at most once *)

Lemma runNode_all_attempted (getNodeDefinition : string -> option NodeDefinition)
    (capability : NodeInstance -> JsMap JsValue -> CapabilityResult)
    (nodes : list NodeInstance) (connections : list Connection) (order : list string) :
  forall st,
    attempted (fold_left (runNode getNodeDefinition capability nodes connections) order st)
    = attempted st
      ++ filter (fun id => isSome (find (fun n => String.eqb (nid n) id) nodes)) order.
Proof.
  induction order as [|x xs IH]; intros st; simpl.
  - rewrite app_nil_r. reflexivity.
  - rewrite IH. unfold runNode.
    destruct (find (fun n => String.eqb (nid n) x) nodes) as [node|]; simpl.
    + destruct (snd (executeNode getNodeDefinition capability node connections
                                 (nodeOutputs st))); simpl;
        rewrite <- app_assoc; reflexivity.
    + reflexivity.
Qed.

(** A connection from [A] to an id that no node has. *)
Definition strayTarget : list Connection := [wire "c1" "A" "output-0" "X" "input-0"].

(** C10 as written, in its second part: every id of the order is the id of a
    node of the input list. *)
Definition order_within_nodes_as_stated (nodes : list NodeInstance)
    (connections : list Connection) : Prop :=
  forall x, In x (getExecutionOrder nodes connections) -> In x (List.map nid nodes).

(** The order of the single node [A] with a connection to [X] holds [X]. *)
Lemma order_within_nodes_counterexample :
  ~ order_within_nodes_as_stated [plainNode "A" [] []] strayTarget.
Proof.
  intros H. specialize (H "X").
  assert (Hx : In "X" (getExecutionOrder [plainNode "A" [] []] strayTarget))
    by (vm_compute; auto).
  specialize (H Hx). simpl in H. destruct H as [H|[]]. discriminate H.
Qed.

(** C10 (amended): the execution order holds no id twice, and every id in it
    is the id of a node or the target of a connection (so every id is the
    id of a node when every connection leads to a node of the list);
    [executeWorkflow] skips the ids that no node has and hands each node to
    [executeNode] at most once. *)
Theorem getExecutionOrder_distinct (nodes : list NodeInstance)
    (connections : list Connection) :
  NoDup (getExecutionOrder nodes connections)
  /\ (forall x, In x (getExecutionOrder nodes connections) ->
                In x (List.map nid nodes) \/ In x (List.map targetNodeId connections))
  /\ ((forall c, In c connections -> In (targetNodeId c) (List.map nid nodes)) ->
      forall x, In x (getExecutionOrder nodes connections) -> In x (List.map nid nodes))
  /\ (forall getNodeDefinition capability,
        NoDup (attempted (executeWorkflow getNodeDefinition capability nodes connections))
        /\ forall x, In x (attempted (executeWorkflow getNodeDefinition capability
                                                      nodes connections)) ->
                     In x (List.map nid nodes)).
Proof.
  split; [apply getExecutionOrder_NoDup|].
  split; [apply getExecutionOrder_members|].
  split.
  - intros Hc x Hx. destruct (getExecutionOrder_members nodes connections x Hx) as [H|H].
    + exact H.
    + apply in_map_iff in H. destruct H as [c [E Hin]]. subst x. exact (Hc c Hin).
  - intros getNodeDefinition capability. unfold executeWorkflow.
    rewrite runNode_all_attempted. simpl. split.
    + apply NoDup_filter. apply getExecutionOrder_NoDup.
    + intros x Hx. apply filter_In in Hx. destruct Hx as [_ Hx].
      destruct (find (fun n => String.eqb (nid n) x) nodes) as [node|] eqn:E;
        [|discriminate Hx].
      apply find_some in E. destruct E as [E1 E2].
      apply String.eqb_eq in E2. subst x. apply in_map. exact E1.
Qed.

Lemma getExecutionOrder_distinct_witness :
  Forall (fun x => In x (List.map nid chainNodes))
         (getExecutionOrder chainNodes chainWires).
Proof.
  apply Forall_forall.
  apply (proj1 (proj2 (proj2 (getExecutionOrder_distinct chainNodes chainWires)))).
  intros c [<-|[]]. simpl. auto.
Defined.

(** ** A run with one failing node *)

Lemma errorCalls_app (l1 l2 : list Event) :
  errorCalls (l1 ++ l2) = errorCalls l1 ++ errorCalls l2.
Proof.
  unfold errorCalls. apply flat_map_app.
Qed.

Lemma errorCalls_progress (nodeId : string) (progress : list (Z * string)) :
  errorCalls (progressEvents nodeId progress) = [].
Proof.
  induction progress as [|p ps IH]; simpl; [reflexivity | exact IH].
Qed.

Section ChainRun.
Variable getNodeDefinition : string -> option NodeDefinition.
Variable capability : NodeInstance -> JsMap JsValue -> CapabilityResult.
(** The graph [a -> b -> c]. *)
Variables a b c : NodeInstance.
Variables ab bc : Connection.
Hypothesis a_b : nid a <> nid b.
Hypothesis a_c : nid a <> nid c.
Hypothesis b_c : nid b <> nid c.
Hypothesis ab_source : sourceNodeId ab = nid a.
Hypothesis ab_target : targetNodeId ab = nid b.
Hypothesis bc_source : sourceNodeId bc = nid b.
Hypothesis bc_target : targetNodeId bc = nid c.
(** The three kinds are registered, so that each node reaches its
    capability call. *)
Hypothesis a_known : getNodeDefinition (ntype a) <> None.
Hypothesis b_known : getNodeDefinition (ntype b) <> None.
Hypothesis c_known : getNodeDefinition (ntype c) <> None.
(** The call of [b] throws, the calls of [a] and [c] return. *)
Hypothesis a_returns : forall inputs, exists progress outputs,
    capability a inputs = Returns progress outputs.
Hypothesis b_throws : forall inputs, exists progress error,
    capability b inputs = Throws progress error.
Hypothesis c_returns : forall inputs, exists progress outputs,
    capability c inputs = Returns progress outputs.

Ltac distinct_ids :=
  assert (E1 : String.eqb (nid a) (nid b) = false) by (apply String.eqb_neq; auto);
  assert (E2 : String.eqb (nid a) (nid c) = false) by (apply String.eqb_neq; auto);
  assert (E3 : String.eqb (nid b) (nid c) = false) by (apply String.eqb_neq; auto);
  assert (E4 : String.eqb (nid b) (nid a) = false) by (apply String.eqb_neq; auto);
  assert (E5 : String.eqb (nid c) (nid a) = false) by (apply String.eqb_neq; auto);
  assert (E6 : String.eqb (nid c) (nid b) = false) by (apply String.eqb_neq; auto).

Lemma chain_order :
  getExecutionOrder [a; b; c] [ab; bc] = [nid a; nid b; nid c].
Proof.
  distinct_ids.
  unfold getExecutionOrder, buildMaps, initMaps, addEdge, initialQueue,
    degreeOf, targetsOf.
  simpl fold_left.
  rewrite ab_source, ab_target, bc_source, bc_target.
  repeat (progress (cbn -[drain String.eqb];
                    rewrite ?E1, ?E2, ?E3, ?E4, ?E5, ?E6, ?String.eqb_refl)).
  repeat (progress (simp drain; unfold targetsOf, relax, degreeOf;
                    cbn -[drain String.eqb];
                    rewrite ?E1, ?E2, ?E3, ?E4, ?E5, ?E6, ?String.eqb_refl)).
  reflexivity.
Qed.

Lemma executeNode_returns (node : NodeInstance) (connections : list Connection)
    (outputsSoFar : JsMap (JsMap JsValue)) (d : NodeDefinition)
    (progress : list (Z * string)) (outputs : JsMap JsValue) :
  getNodeDefinition (ntype node) = Some d ->
  capability node (getNodeInputs node connections outputsSoFar)
  = Returns progress outputs ->
  executeNode getNodeDefinition capability node connections outputsSoFar
  = (OnProgress (nid node) 10 "准备执行..." :: progressEvents (nid node) progress
       ++ [OnProgress (nid node) 100 "完成"],
     inl outputs).
Proof.
  intros Hd Hc. unfold executeNode. rewrite Hd, Hc. reflexivity.
Qed.

Lemma executeNode_throws (node : NodeInstance) (connections : list Connection)
    (outputsSoFar : JsMap (JsMap JsValue)) (d : NodeDefinition)
    (progress : list (Z * string)) (error : Thrown) :
  getNodeDefinition (ntype node) = Some d ->
  capability node (getNodeInputs node connections outputsSoFar)
  = Throws progress error ->
  executeNode getNodeDefinition capability node connections outputsSoFar
  = (OnProgress (nid node) 10 "准备执行..." :: progressEvents (nid node) progress
       ++ [OnNodeError (nid node)
                       match error with
                       | ThrownError message => message
                       | ThrownValue => "未知错误"
                       end],
     inr error).
Proof.
  intros Hd Hc. unfold executeNode. rewrite Hd, Hc. reflexivity.
Qed.

(** The run, callback by callback. *)
Lemma chain_run :
  exists pa oa pb eb pc oc m1 m2,
    executeWorkflow getNodeDefinition capability [a; b; c] [ab; bc]
    = {| nodeOutputs := [(nid a, oa); (nid c, oc)];
         trace :=
           (OnProgress (nid a) 10 "准备执行..." :: progressEvents (nid a) pa
              ++ [OnProgress (nid a) 100 "完成"]) ++ [OnNodeComplete (nid a) oa]
           ++ (OnProgress (nid b) 10 "准备执行..." :: progressEvents (nid b) pb
                 ++ [OnNodeError (nid b) m1]) ++ [OnNodeError (nid b) m2]
           ++ (OnProgress (nid c) 10 "准备执行..." :: progressEvents (nid c) pc
                 ++ [OnProgress (nid c) 100 "完成"]) ++ [OnNodeComplete (nid c) oc];
         attempted := [nid a; nid b; nid c] |}
    /\ capability b (getNodeInputs b [ab; bc] [(nid a, oa)]) = Throws pb eb.
Proof.
  distinct_ids.
  destruct (getNodeDefinition (ntype a)) as [da|] eqn:Da; [|contradiction].
  destruct (getNodeDefinition (ntype b)) as [db|] eqn:Db; [|contradiction].
  destruct (getNodeDefinition (ntype c)) as [dc|] eqn:Dc; [|contradiction].
  destruct (a_returns (getNodeInputs a [ab; bc] [])) as [pa [oa Ea]].
  destruct (b_throws (getNodeInputs b [ab; bc] [(nid a, oa)])) as [pb [eb Eb]].
  destruct (c_returns (getNodeInputs c [ab; bc] [(nid a, oa)])) as [pc [oc Ec]].
  exists pa, oa, pb, eb, pc, oc.
  exists (match eb with ThrownError message => message | ThrownValue => "未知错误" end).
  exists (match eb with ThrownError message => message | ThrownValue => "执行失败" end).
  split; [|exact Eb].
  unfold executeWorkflow. rewrite chain_order. simpl fold_left.
  unfold runNode at 3. simpl find. rewrite String.eqb_refl. simpl nodeOutputs.
  rewrite (executeNode_returns a [ab; bc] [] da pa oa Da Ea).
  simpl snd. simpl fst. cbn [map_set].
  unfold runNode at 2. simpl find. rewrite E1, String.eqb_refl. simpl nodeOutputs.
  rewrite (executeNode_throws b [ab; bc] [(nid a, oa)] db pb eb Db Eb).
  simpl snd. simpl fst.
  unfold runNode at 1. simpl find. rewrite E2, E3, String.eqb_refl. simpl nodeOutputs.
  rewrite (executeNode_returns c [ab; bc] [(nid a, oa)] dc pc oc Dc Ec).
  simpl snd. simpl fst. cbn [map_set]. rewrite E2.
  f_equal. repeat (progress (simpl; rewrite <- ?app_assoc)). reflexivity.
Qed.

(** The error callback is reached twice for the failing node: from the
    handler of [executeNode], which throws the error again, and from the
    handler of [executeWorkflow]. *)
Lemma chain_run_error_calls :
  errorCalls (trace (executeWorkflow getNodeDefinition capability [a; b; c] [ab; bc]))
  = [nid b; nid b].
Proof.
  destruct chain_run as [pa [oa [pb [eb [pc [oc [m1 [m2 [E _]]]]]]]]].
  rewrite E. simpl trace.
  repeat (rewrite ?errorCalls_app; simpl; rewrite ?errorCalls_progress).
  reflexivity.
Qed.

(** C2 (amended): with [b] the one node whose capability call throws, the
    run does not halt, all three nodes are handed to [executeNode] in
    order; the error callback is called for [b] and for no other node; and
    the returned map has an entry for [a] and an entry for [c] and none
    for [b]. *)
Theorem executeWorkflow_continues_past_failure :
  let run := executeWorkflow getNodeDefinition capability [a; b; c] [ab; bc] in
  attempted run = [nid a; nid b; nid c]
  /\ In (nid b) (errorCalls (trace run))
  /\ (forall x, In x (errorCalls (trace run)) -> x = nid b)
  /\ map_keys (nodeOutputs run) = [nid a; nid c]
  /\ ~ In (nid b) (map_keys (nodeOutputs run)).
Proof.
  intros run. pose proof chain_run_error_calls as Herr. fold run in Herr.
  destruct chain_run as [pa [oa [pb [eb [pc [oc [m1 [m2 [E _]]]]]]]]].
  fold run in E. rewrite Herr. rewrite E. simpl.
  repeat split; auto.
  - intros x [H|[H|[]]]; auto.
  - intros [H|[H|[]]]; [exact (a_b H) | apply b_c; auto].
Qed.
End ChainRun.

(** The built-in definition of a text input, and a registry that knows it. *)
Definition textInputDefinition : NodeDefinition :=
  {| dtype := "text-input"; dname := "文本输入"; dinputs := [];
     doutputs := [ {| sname := "文本"; stype := "text"; sconnected := None;
                      sisReferenceInput := None; swidget := None |} ];
     defaultData := Some [("text", JStr "")] |}.

Definition textRegistry (type : string) : option NodeDefinition :=
  if String.eqb type "text-input" then Some textInputDefinition else None.

(** The capability call of node [B] throws; every other call returns. *)
Definition failingAtB (node : NodeInstance) (inputs : JsMap JsValue) : CapabilityResult :=
  if String.eqb (nid node) "B"
  then Throws [] (ThrownError "boom")
  else Returns [] [("文本", JStr "hello")].

Definition nodeA : NodeInstance := plainNode "A" [] [plainPort "output-0" output true].
Definition nodeB : NodeInstance :=
  plainNode "B" [plainPort "input-0" input true] [plainPort "output-0" output true].
Definition nodeC : NodeInstance := plainNode "C" [plainPort "input-0" input true] [].
Definition wireAB : Connection := wire "c1" "A" "output-0" "B" "input-0".
Definition wireBC : Connection := wire "c2" "B" "output-0" "C" "input-0".

(** C2 as the specification words it: exactly one error callback, for the
    failing node, and output entries for [A] but not for [B] or [C]. *)
Definition single_failure_as_stated (run : RunState) (idA idB idC : string) : Prop :=
  errorCalls (trace run) = [idB]
  /\ In idA (map_keys (nodeOutputs run))
  /\ ~ In idB (map_keys (nodeOutputs run))
  /\ ~ In idC (map_keys (nodeOutputs run)).

Lemma single_failure_run :
  let run := executeWorkflow textRegistry failingAtB [nodeA; nodeB; nodeC] [wireAB; wireBC] in
  errorCalls (trace run) = ["B"; "B"]
  /\ map_keys (nodeOutputs run) = ["A"; "C"].
Proof.
  vm_compute. split; reflexivity.
Qed.

(** On the chain [A -> B -> C] with [B] failing, the error callback is called
    twice and [C] has an entry in the returned map. *)
Lemma single_failure_counterexample :
  ~ single_failure_as_stated
      (executeWorkflow textRegistry failingAtB [nodeA; nodeB; nodeC] [wireAB; wireBC])
      "A" "B" "C".
Proof.
  destruct single_failure_run as [Herr Hkeys].
  intros [H1 [_ [_ H4]]].
  apply H4. rewrite Hkeys. simpl. auto.
Qed.

Lemma executeWorkflow_continues_past_failure_witness :
  let run := executeWorkflow textRegistry failingAtB [nodeA; nodeB; nodeC] [wireAB; wireBC] in
  attempted run = ["A"; "B"; "C"]
  /\ In "B" (errorCalls (trace run))
  /\ (forall x, In x (errorCalls (trace run)) -> x = "B")
  /\ map_keys (nodeOutputs run) = ["A"; "C"]
  /\ ~ In "B" (map_keys (nodeOutputs run)).
Proof.
  apply (executeWorkflow_continues_past_failure textRegistry failingAtB
           nodeA nodeB nodeC wireAB wireBC).
  - discriminate.
  - discriminate.
  - discriminate.
  - reflexivity.
  - reflexivity.
  - reflexivity.
  - reflexivity.
  - discriminate.
  - discriminate.
  - discriminate.
  - intros inputs. exists [], [("文本", JStr "hello")]. reflexivity.
  - intros inputs. exists [], (ThrownError "boom"). reflexivity.
  - intros inputs. exists [], [("文本", JStr "hello")]. reflexivity.
Defined.

(** ** The format translator *)

Lemma findIndex_Some {A : Type} (p : A -> bool) (l : list A) (i : nat) :
  findIndex p l = Some i ->
  exists x, nth_error l i = Some x /\ find p l = Some x /\ p x = true.
Proof.
  revert i. induction l as [|y l IH]; intros i H; simpl in *; [discriminate|].
  destruct (p y) eqn:E.
  - inversion H. subst. exists y. simpl. auto.
  - destruct (findIndex p l) as [j|]; [|discriminate].
    inversion H. subst. destruct (IH j eq_refl) as [x [H1 [H2 H3]]].
    exists x. simpl. auto.
Qed.

Lemma findIndex_None {A : Type} (p : A -> bool) (l : list A) :
  findIndex p l = None -> find p l = None.
Proof.
  induction l as [|y l IH]; intros H; simpl in *; [reflexivity|].
  destruct (p y); [discriminate|].
  destruct (findIndex p l); [discriminate|]. apply IH. reflexivity.
Qed.

Lemma findIndex_lt {A : Type} (p : A -> bool) (l : list A) (i : nat) :
  findIndex p l = Some i -> i < List.length l.
Proof.
  intros H. destruct (findIndex_Some p l i H) as [x [Hx _]].
  apply nth_error_Some. congruence.
Qed.

Lemma indexedFrom_length {A : Type} (l : list A) (k : nat) :
  List.length (indexedFrom k l) = List.length l.
Proof.
  revert k. induction l as [|x l IH]; intros k; simpl; [reflexivity|].
  rewrite IH. reflexivity.
Qed.

Lemma indexedFrom_nth {A : Type} (l : list A) (k i : nat) :
  nth_error (indexedFrom k l) i = option_map (fun x => (k + i, x)) (nth_error l i).
Proof.
  revert k i. induction l as [|x l IH]; intros k i; destruct i; simpl; try reflexivity.
  - rewrite Nat.add_0_r. reflexivity.
  - rewrite IH. rewrite Nat.add_succ_r. reflexivity.
Qed.

Lemma indexedFrom_app {A : Type} (l1 l2 : list A) (k : nat) :
  indexedFrom k (l1 ++ l2) = indexedFrom k l1 ++ indexedFrom (k + List.length l1) l2.
Proof.
  revert k. induction l1 as [|x l1 IH]; intros k; simpl.
  - rewrite Nat.add_0_r. reflexivity.
  - rewrite IH. rewrite Nat.add_succ_r. reflexivity.
Qed.

Lemma to_uint_nonnil (n : nat) : Nat.to_uint n <> Decimal.Nil.
Proof.
  destruct n as [|n]; intros H.
  - vm_compute in H. discriminate H.
  - apply (f_equal Nat.of_uint) in H.
    rewrite DecimalNat.Unsigned.of_to in H. discriminate H.
Qed.

(** [`input-${i}`] determines [i]. *)
Lemma decimal_inj (i j : nat) : decimal i = decimal j -> i = j.
Proof.
  unfold decimal. intros H.
  assert (E : NilZero.uint_of_string (NilZero.string_of_uint (Nat.to_uint i))
              = NilZero.uint_of_string (NilZero.string_of_uint (Nat.to_uint j)))
    by (rewrite H; reflexivity).
  rewrite !NilZero.usu in E by apply to_uint_nonnil.
  inversion E as [E']. apply DecimalNat.Unsigned.to_uint_inj. exact E'.
Qed.

Lemma inputId_inj (i j : nat) : inputId i = inputId j -> i = j.
Proof.
  unfold inputId. intros H. inversion H. apply decimal_inj. assumption.
Qed.

Lemma outputId_inj (i j : nat) : outputId i = outputId j -> i = j.
Proof.
  unfold outputId. intros H. inversion H. apply decimal_inj. assumption.
Qed.

(** *** Widget values *)

Definition linkOnly (name type : string) : PortSpec :=
  {| sname := name; stype := type; sconnected := None;
     sisReferenceInput := None; swidget := None |}.

Definition withWidget (name type widgetType : string) : PortSpec :=
  {| sname := name; stype := type; sconnected := None; sisReferenceInput := None;
     swidget := Some {| wtype := widgetType; wdefault := None; wmin := None;
                        wmax := None; wstep := None; woptions := None |} |}.

(** A definition as the plugin manager registers them: two inputs that only
    take a connection, then three inputs with a widget. *)
Definition loraDefinition : NodeDefinition :=
  {| dtype := "comfy-lora"; dname := "lora";
     dinputs := [ linkOnly "model" "model"; linkOnly "clip" "clip";
                  withWidget "lora_name" "combo" "combo";
                  withWidget "strength_model" "int" "number";
                  withWidget "strength_clip" "int" "number" ];
     doutputs := [ linkOnly "MODEL" "model"; linkOnly "CLIP" "clip" ];
     defaultData := None |}.

Definition loraRegistry (type : string) : option NodeDefinition :=
  if String.eqb type "comfy-lora" then Some loraDefinition else None.

Definition loraNode : ComfyUINode :=
  {| comfyId := 7; comfyType := "lora"; pos := (0, 0)%Z; comfySize := None;
     comfyInputs := Some [ {| ciName := "model"; ciType := "MODEL"; link := None |};
                           {| ciName := "clip"; ciType := "CLIP"; link := None |} ];
     comfyOutputs := None;
     widgets_values := Some [JStr "style.safetensors"; JNum 1; JNum 2] |}.

(** C7 (the code departs from it): the external node has three widget
    values for the three inputs that carry a widget.  The importer reads
    [widgets_values] at the absolute index of the port, so the first
    widget-bearing input, at index 2, receives the third value and the
    other two receive nothing; the importer of the plugin manager gives
    the k-th value to the k-th widget-bearing input. *)
Theorem importComfyUIWorkflow_widget_by_port_index :
  importNodeType loraNode = "comfy-lora"
  /\ data (importNode loraRegistry "n1" loraNode) = [("lora_name", JNum 2)]
  /\ pluginImportData loraDefinition (widgets_values loraNode)
     = [ ("lora_name", JStr "style.safetensors");
         ("strength_model", JNum 1); ("strength_clip", JNum 2) ].
Proof.
  vm_compute. repeat split.
Qed.

(** ** The validator *)

Lemma set_add_In (x t : string) (s : list string) :
  In x (set_add t s) <-> x = t \/ In x s.
Proof.
  unfold set_add. destruct (includes s t) eqn:E.
  - apply includes_In in E. split; [auto | intros [->|H]; assumption].
  - rewrite in_app_iff. simpl. split.
    + intros [H|[H|[]]]; auto.
    + intros [->|H]; auto.
Qed.

Lemma filter_length_mono {A : Type} (p q : A -> bool) (l : list A) :
  (forall x, In x l -> p x = true -> q x = true) ->
  List.length (filter p l) <= List.length (filter q l).
Proof.
  induction l as [|x l IH]; intros H; simpl; [lia|].
  assert (IH' : List.length (filter p l) <= List.length (filter q l))
    by (apply IH; intros y Hy; apply H; right; exact Hy).
  destruct (p x) eqn:Ep.
  - rewrite (H x (or_introl eq_refl) Ep). simpl. lia.
  - destruct (q x); simpl; lia.
Qed.

Lemma filter_length_strict {A : Type} (p q : A -> bool) (l : list A) (t : A) :
  (forall x, In x l -> p x = true -> q x = true) ->
  In t l -> p t = false -> q t = true ->
  List.length (filter p l) < List.length (filter q l).
Proof.
  induction l as [|x l IH]; intros H Ht Hp Hq; simpl; [destruct Ht|].
  assert (Hl : forall y, In y l -> p y = true -> q y = true)
    by (intros y Hy; apply H; right; exact Hy).
  destruct Ht as [->|Ht].
  - rewrite Hp, Hq. simpl. pose proof (filter_length_mono p q l Hl). lia.
  - specialize (IH Hl Ht Hp Hq).
    destruct (p x) eqn:Ep.
    + rewrite (H x (or_introl eq_refl) Ep). simpl. lia.
    + destruct (q x); simpl; lia.
Qed.

(** The targets of connections that a search has not visited yet, each
    counted once: the depth that the recursion of [hasCycle] can still
    reach. *)
Definition unvisited (connections : list Connection) (seen : list string)
    : list string :=
  filter (fun x => negb (includes seen x))
         (nodup string_dec (List.map targetNodeId connections)).

Lemma unvisited_le (connections : list Connection) (seen seen' : list string) :
  (forall x, In x seen -> In x seen') ->
  List.length (unvisited connections seen') <= List.length (unvisited connections seen).
Proof.
  intros H. apply filter_length_mono. intros x _ Hx.
  apply negb_true_iff, includes_not_In in Hx.
  apply negb_true_iff, includes_not_In. intros Hin. apply Hx. apply H. exact Hin.
Qed.

Lemma unvisited_lt (connections : list Connection) (seen : list string) (t : string) :
  In t (List.map targetNodeId connections) -> ~ In t seen ->
  List.length (unvisited connections (set_add t seen))
  < List.length (unvisited connections seen).
Proof.
  intros Ht Hs. apply filter_length_strict with (t := t).
  - intros x _ Hx. apply negb_true_iff, includes_not_In in Hx.
    apply negb_true_iff, includes_not_In. intros Hin. apply Hx.
    apply set_add_In. right. exact Hin.
  - apply nodup_In. exact Ht.
  - apply negb_false_iff, includes_In, set_add_In. left. reflexivity.
  - apply negb_true_iff, includes_not_In. exact Hs.
Qed.

Lemma nodup_length_le (l : list string) :
  List.length (nodup string_dec l) <= List.length l.
Proof.
  induction l as [|x l IH]; simpl; [lia|].
  destruct (in_dec string_dec x l); simpl; lia.
Qed.

Lemma unvisited_bound (connections : list Connection) (seen : list string) :
  List.length (unvisited connections seen) <= List.length connections.
Proof.
  unfold unvisited.
  pose proof (List.filter_length_le (fun x => negb (includes seen x))
                (nodup string_dec (List.map targetNodeId connections))) as H1.
  pose proof (nodup_length_le (List.map targetNodeId connections)) as H2.
  rewrite length_map in H2. lia.
Qed.

(** With fuel above the number of unvisited targets, the search returns. *)
Lemma hasCycle_total (connections : list Connection) :
  forall fuel nodeId st,
    List.length (unvisited connections (set_add nodeId (visited st))) < fuel ->
    exists b st',
      hasCycle fuel connections nodeId st = Some (b, st')
      /\ forall x, In x (set_add nodeId (visited st)) -> In x (visited st').
Proof.
  induction fuel as [|fuel IH]; intros nodeId st Hfuel; [lia|].
  simpl hasCycle.
  set (entered := {| visited := set_add nodeId (visited st);
                     recursionStack := set_add nodeId (recursionStack st) |}).
  assert (Hscan : forall outgoing st1,
             (forall c, In c outgoing -> In c connections) ->
             List.length (unvisited connections (visited st1)) <= fuel ->
             exists b st',
               scanOutgoing (hasCycle fuel connections) nodeId outgoing st1 = Some (b, st')
               /\ forall x, In x (visited st1) -> In x (visited st')).
  { induction outgoing as [|conn rest IHo]; intros st1 Hsub Hm; simpl.
    - eexists. eexists. split; [reflexivity|]. simpl. auto.
    - assert (Hrest : forall c, In c rest -> In c connections)
        by (intros c0 Hc0; apply Hsub; right; exact Hc0).
      destruct (includes (visited st1) (targetNodeId conn)) eqn:Ev; simpl.
      + destruct (includes (recursionStack st1) (targetNodeId conn)).
        * eexists. eexists. split; [reflexivity|]. auto.
        * apply IHo; assumption.
      + apply includes_not_In in Ev.
        assert (Ht : In (targetNodeId conn) (List.map targetNodeId connections))
          by (apply in_map, Hsub; left; reflexivity).
        pose proof (unvisited_lt connections (visited st1) (targetNodeId conn) Ht Ev) as Hlt.
        destruct (IH (targetNodeId conn) st1) as [b [st2 [E2 Hmono]]]; [lia|].
        rewrite E2.
        assert (Hsub2 : forall x, In x (visited st1) -> In x (visited st2))
          by (intros x Hx; apply Hmono, set_add_In; right; exact Hx).
        destruct b.
        * eexists. eexists. split; [reflexivity|]. exact Hsub2.
        * destruct (IHo st2 Hrest) as [b' [st3 [E3 Hmono3]]].
          -- pose proof (unvisited_le connections (visited st1) (visited st2) Hsub2). lia.
          -- exists b', st3. split; [exact E3|]. auto. }
  destruct (Hscan (filter (fun c => String.eqb (sourceNodeId c) nodeId) connections) entered)
    as [b [st' [E Hmono]]].
  - intros c Hc. apply filter_In in Hc. tauto.
  - simpl. lia.
  - exists b, st'. split; [exact E|]. exact Hmono.
Qed.

Lemma findCycle_total (connections : list Connection) (nodes : list NodeInstance) :
  forall st, exists errs, findCycle connections nodes st = Some errs.
Proof.
  induction nodes as [|node rest IH]; intros st; cbn [findCycle].
  - exists []. reflexivity.
  - destruct (negb (includes (visited st) (nid node))); [|apply IH].
    destruct (hasCycle_total connections (S (List.length connections)) (nid node) st)
      as [b [st' [E _]]].
    + pose proof (unvisited_bound connections (set_add (nid node) (visited st))). lia.
    + rewrite E. destruct b; [exists [ECycle]; reflexivity | apply IH].
Qed.

(** [validateWorkflow] returns on every workflow: the searches for a cycle
    are never cut short. *)
Lemma validateWorkflow_total (getNodeDefinition : string -> option NodeDefinition)
    (nodes : list NodeInstance) (connections : list Connection) :
  exists r, validateWorkflow getNodeDefinition nodes connections = Some r.
Proof.
  unfold validateWorkflow. destruct nodes as [|n ns]; [eexists; reflexivity|].
  destruct (findCycle_total connections (n :: ns) {| visited := []; recursionStack := [] |})
    as [errs E].
  rewrite E. eexists. reflexivity.
Qed.

Lemma inputWarnings_kind (getNodeDefinition : string -> option NodeDefinition)
    (nodes : list NodeInstance) (connections : list Connection) :
  filter isUnconnectedNodeWarning (inputWarnings getNodeDefinition nodes connections) = [].
Proof.
  unfold inputWarnings.
  induction nodes as [|node rest IH]; simpl; [reflexivity|].
  rewrite filter_app, IH, app_nil_r.
  destruct (getNodeDefinition (ntype node)) as [definition|]; [|reflexivity].
  induction (inputs node) as [|i ps IHi]; simpl; [reflexivity|].
  rewrite filter_app, IHi, app_nil_r.
  destruct (negb (isSome (widget i)) && negb (truthyFlag (connected i))); [|reflexivity].
  destruct (existsb _ connections); reflexivity.
Qed.

Lemma isolatedWarnings_kind (nodes : list NodeInstance) (connections : list Connection) :
  filter isUnconnectedNodeWarning (isolatedWarnings nodes connections)
  = isolatedWarnings nodes connections.
Proof.
  unfold isolatedWarnings.
  generalize (Nat.ltb 1 (List.length nodes)). intros several.
  induction nodes as [|node rest IH]; simpl; [reflexivity|].
  rewrite filter_app, IH.
  destruct (negb (includes (connectedNodeIds connections) (nid node)) && several);
    reflexivity.
Qed.

Lemma isolatedWarnings_single (nodes : list NodeInstance) (connections : list Connection) :
  List.length nodes <= 1 -> isolatedWarnings nodes connections = [].
Proof.
  intros H. unfold isolatedWarnings.
  assert (E : Nat.ltb 1 (List.length nodes) = false) by (apply Nat.ltb_ge; exact H).
  rewrite E. clear E H.
  induction nodes as [|node rest IH]; simpl; [reflexivity|].
  rewrite andb_false_r. exact IH.
Qed.

Lemma validateWorkflow_nonempty (getNodeDefinition : string -> option NodeDefinition)
    (nodes : list NodeInstance) (connections : list Connection) :
  nodes <> [] ->
  validateWorkflow getNodeDefinition nodes connections
  = match findCycle connections nodes {| visited := []; recursionStack := [] |} with
    | None => None
    | Some errs =>
        Some {| valid := Nat.eqb (List.length errs) 0;
                errors := errs;
                warnings := isolatedWarnings nodes connections
                            ++ inputWarnings getNodeDefinition nodes connections |}
    end.
Proof.
  intros H. destruct nodes; [contradiction | reflexivity].
Qed.

Section IsolatedNode.
Variable getNodeDefinition : string -> option NodeDefinition.
(** Two nodes [a] and [b] joined by the connection [ab], and a third
    node [c]. *)
Variables a b c : NodeInstance.
Variable ab : Connection.
Hypothesis a_b : nid a <> nid b.
Hypothesis a_c : nid a <> nid c.
Hypothesis b_c : nid b <> nid c.
Hypothesis ab_source : sourceNodeId ab = nid a.
Hypothesis ab_target : targetNodeId ab = nid b.

Ltac evaluate_ids :=
  assert (E1 : String.eqb (nid a) (nid b) = false) by (apply String.eqb_neq; auto);
  assert (E2 : String.eqb (nid a) (nid c) = false) by (apply String.eqb_neq; auto);
  assert (E3 : String.eqb (nid b) (nid c) = false) by (apply String.eqb_neq; auto);
  assert (E4 : String.eqb (nid b) (nid a) = false) by (apply String.eqb_neq; auto);
  assert (E5 : String.eqb (nid c) (nid a) = false) by (apply String.eqb_neq; auto);
  assert (E6 : String.eqb (nid c) (nid b) = false) by (apply String.eqb_neq; auto);
  repeat (progress (unfold set_add, includes, set_delete;
                    cbn -[String.eqb];
                    rewrite ?ab_source, ?ab_target, ?E1, ?E2, ?E3, ?E4, ?E5, ?E6,
                      ?String.eqb_refl)).

(** The six orders in which the three nodes can be listed. *)
Lemma three_nodes_orders (nodes : list NodeInstance) :
  Permutation [a; b; c] nodes ->
  nodes = [a; b; c] \/ nodes = [a; c; b] \/ nodes = [b; a; c]
  \/ nodes = [b; c; a] \/ nodes = [c; a; b] \/ nodes = [c; b; a].
Proof.
  intros H.
  assert (Hnd : NoDup [a; b; c]).
  { repeat constructor; simpl; intros Hin;
      repeat (destruct Hin as [Hin|Hin]; [subst; congruence|]); exact Hin. }
  pose proof (Permutation_length H) as Hlen.
  pose proof (Permutation_NoDup H Hnd) as Hnd'.
  destruct nodes as [|x [|y [|z [|w t]]]]; try discriminate Hlen.
  assert (Hx : In x [a; b; c])
    by (apply (Permutation_in x (Permutation_sym H)); simpl; auto).
  assert (Hy : In y [a; b; c])
    by (apply (Permutation_in y (Permutation_sym H)); simpl; auto).
  assert (Hz : In z [a; b; c])
    by (apply (Permutation_in z (Permutation_sym H)); simpl; auto).
  inversion Hnd' as [|? ? Hx' Hyz]; subst.
  inversion Hyz as [|? ? Hy' _]; subst.
  simpl in Hx, Hy, Hz, Hx', Hy'.
  destruct Hx as [<-|[<-|[<-|[]]]]; destruct Hy as [<-|[<-|[<-|[]]]];
    destruct Hz as [<-|[<-|[<-|[]]]]; tauto.
Qed.

Lemma isolated_node_result (nodes : list NodeInstance) :
  Permutation [a; b; c] nodes ->
  findCycle [ab] nodes {| visited := []; recursionStack := [] |} = Some []
  /\ isolatedWarnings nodes [ab] = [WUnconnectedNode (ntype c)].
Proof.
  intros H. unfold isolatedWarnings, connectedNodeIds.
  destruct (three_nodes_orders nodes H) as [->|[->|[->|[->|[->| ->]]]]];
    evaluate_ids; split; reflexivity.
Qed.

(** C9: for two nodes joined by one connection and a third node without
    connections, listed in any order, [validateWorkflow] returns a result
    without errors whose warnings hold exactly one unconnected-node warning,
    the one that names the third node; and for a workflow of at most one node
    the result holds no unconnected-node warning. *)
Theorem validateWorkflow_isolated_node :
  (forall nodes, Permutation [a; b; c] nodes ->
     exists r, validateWorkflow getNodeDefinition nodes [ab] = Some r
               /\ errors r = [] /\ valid r = true
               /\ filter isUnconnectedNodeWarning (warnings r)
                  = [WUnconnectedNode (ntype c)])
  /\ (forall nodes connections, List.length nodes <= 1 ->
        exists r, validateWorkflow getNodeDefinition nodes connections = Some r
                  /\ filter isUnconnectedNodeWarning (warnings r) = []).
Proof.
  split.
  - intros nodes H. destruct (isolated_node_result nodes H) as [Hc Hw].
    rewrite validateWorkflow_nonempty, Hc.
    + eexists. split; [reflexivity|]. cbn [errors valid warnings].
      rewrite filter_app, inputWarnings_kind, app_nil_r, isolatedWarnings_kind, Hw.
      repeat split; reflexivity.
    + intros ->. apply Permutation_length in H. discriminate H.
  - intros nodes connections Hlen.
    destruct nodes as [|n ns]; [eexists; split; reflexivity|].
    rewrite validateWorkflow_nonempty by discriminate.
    destruct (findCycle_total connections (n :: ns)
                {| visited := []; recursionStack := [] |}) as [errs E].
    rewrite E. eexists. split; [reflexivity|]. cbn [warnings].
    rewrite filter_app, inputWarnings_kind, app_nil_r.
    rewrite (isolatedWarnings_single (n :: ns) connections Hlen). reflexivity.
Qed.
End IsolatedNode.

Lemma validateWorkflow_isolated_node_witness :
  (exists r, validateWorkflow textRegistry [nodeC; nodeA; nodeB] [wireAB] = Some r
             /\ errors r = [] /\ valid r = true
             /\ filter isUnconnectedNodeWarning (warnings r)
                = [WUnconnectedNode (ntype nodeC)])
  /\ (exists r, validateWorkflow textRegistry [nodeA] [wireAB] = Some r
                /\ filter isUnconnectedNodeWarning (warnings r) = []).
Proof.
  destruct (validateWorkflow_isolated_node textRegistry nodeA nodeB nodeC wireAB)
    as [H1 H2]; try discriminate; try reflexivity.
  split.
  - apply H1. apply Permutation_sym.
    apply (perm_trans (l' := [nodeA; nodeC; nodeB])).
    + apply perm_swap.
    + apply perm_skip. apply perm_swap.
  - apply H2. simpl. lia.
Defined.

(** *** Export followed by import *)

(** The positions that the four ids of a connection stand for in a graph:
    the index of the source node, the index of the port among its outputs,
    the index of the target node, the index of the port among its inputs;
    [None] when a node or a port is missing. *)
Definition resolveEnds (nodes : list NodeInstance) (s sp t tp : string)
    : option (nat * nat * nat * nat) :=
  match findIndex (fun n => String.eqb (nid n) s) nodes,
        findIndex (fun n => String.eqb (nid n) t) nodes with
  | Some si, Some ti =>
      match nth_error nodes si, nth_error nodes ti with
      | Some sn, Some tn =>
          match findIndex (fun o => String.eqb (pid o) sp) (outputs sn),
                findIndex (fun i => String.eqb (pid i) tp) (inputs tn) with
          | Some so, Some ts => Some (si, so, ti, ts)
          | _, _ => None
          end
      | _, _ => None
      end
  | _, _ => None
  end.

Definition resolve (nodes : list NodeInstance) (c : Connection)
    : option (nat * nat * nat * nat) :=
  resolveEnds nodes (sourceNodeId c) (sourcePortId c) (targetNodeId c) (targetPortId c).

(** The connection topology of a graph: its connections as edges between
    node positions and port positions, in the order of the connection list;
    the connections that do not resolve are left out. *)
Definition topology (nodes : list NodeInstance) (connections : list Connection)
    : list (nat * nat * nat * nat) :=
  flat_map (fun c => match resolve nodes c with
                     | Some e => [e]
                     | None => []
                     end) connections.

(** What the importer reads of an external node, as far as kinds, literal
    data and port positions go. *)
Definition shape (n : ComfyUINode)
    : nat * string * option (list JsValue) * option nat * option nat :=
  (comfyId n, comfyType n, widgets_values n,
   option_map (@List.length ComfyInput) (comfyInputs n),
   option_map (@List.length ComfyOutput) (comfyOutputs n)).

Definition linkEnds (l : ComfyUILink) : nat * nat * nat * nat :=
  (linkSourceNode l, linkSourceSlot l, linkTargetNode l, linkTargetSlot l).

Definition exportedNodes (k : nat) (nodes : list NodeInstance) : list ComfyUINode :=
  List.map (fun ip => exportNode (fst ip) (snd ip)) (indexedFrom k nodes).

Definition exportedIds (k : nat) (nodes : list NodeInstance) (m : JsMap nat)
    : JsMap nat :=
  fold_left (fun m ip => map_set (nid (snd ip)) (fst ip) m) (indexedFrom k nodes) m.

Lemma exportNodes_fold (nodes : list NodeInstance) :
  forall l m k,
    fold_left (fun acc node =>
                 (fst (fst acc) ++ [exportNode (snd acc) node],
                  map_set (nid node) (snd acc) (snd (fst acc)),
                  S (snd acc)))
              nodes (l, m, k)
    = (l ++ exportedNodes k nodes, exportedIds k nodes m, k + List.length nodes).
Proof.
  induction nodes as [|n ns IH]; intros l m k; simpl.
  - rewrite app_nil_r, Nat.add_0_r. reflexivity.
  - rewrite IH. unfold exportedNodes, exportedIds. simpl.
    rewrite <- app_assoc, Nat.add_succ_r. reflexivity.
Qed.

Lemma exportNodes_eq (nodes : list NodeInstance) :
  exportNodes nodes
  = (exportedNodes 1 nodes, exportedIds 1 nodes [], S (List.length nodes)).
Proof.
  unfold exportNodes. rewrite exportNodes_fold. reflexivity.
Qed.

Lemma exportedIds_other (nodes : list NodeInstance) (x : string) :
  forall k m, ~ In x (List.map nid nodes) ->
              map_get x (exportedIds k nodes m) = map_get x m.
Proof.
  unfold exportedIds.
  induction nodes as [|n ns IH]; intros k m H; simpl; [reflexivity|].
  rewrite IH by (intros Hin; apply H; right; exact Hin).
  rewrite map_get_set.
  destruct (String.eqb_spec (nid n) x) as [E|E]; [|reflexivity].
  exfalso. apply H. left. exact E.
Qed.

Lemma exportedIds_get (nodes : list NodeInstance) (x : string) :
  forall k m i,
    NoDup (List.map nid nodes) ->
    findIndex (fun n => String.eqb (nid n) x) nodes = Some i ->
    map_get x (exportedIds k nodes m) = Some (k + i).
Proof.
  induction nodes as [|n ns IH]; intros k m i Hnd Hi; simpl in *; [discriminate|].
  inversion Hnd as [|? ? Hn Hns]; subst.
  change (exportedIds k (n :: ns) m)
    with (exportedIds (S k) ns (map_set (nid n) k m)).
  destruct (String.eqb_spec (nid n) x) as [E|E].
  - inversion Hi. subst i x.
    rewrite exportedIds_other by exact Hn.
    rewrite map_get_set, String.eqb_refl, Nat.add_0_r. reflexivity.
  - destruct (findIndex (fun n0 => String.eqb (nid n0) x) ns) as [j|] eqn:Ej;
      [|discriminate].
    inversion Hi. subst i.
    rewrite (IH (S k) _ j Hns eq_refl). f_equal. lia.
Qed.

Lemma updateNth_length {A : Type} (f : A -> A) (l : list A) (n : nat) :
  List.length (updateNth n f l) = List.length l.
Proof.
  revert n. induction l as [|x l IH]; intros [|n]; simpl; auto.
Qed.

Lemma updateFirst_shape (p : ComfyUINode -> bool) (f : ComfyUINode -> ComfyUINode)
    (l : list ComfyUINode) :
  (forall n, shape (f n) = shape n) ->
  List.map shape (updateFirst p f l) = List.map shape l.
Proof.
  intros H. induction l as [|x l IH]; simpl; [reflexivity|].
  destruct (p x); simpl; [rewrite H | rewrite IH]; reflexivity.
Qed.

Lemma withComfyOutputs_shape (n : ComfyUINode) (k linkId : nat) :
  shape (withComfyOutputs n (updateNth k (pushLink linkId))) = shape n.
Proof.
  unfold shape. simpl. destruct (comfyOutputs n); simpl; [|reflexivity].
  rewrite updateNth_length. reflexivity.
Qed.

Lemma withComfyInputs_shape (n : ComfyUINode) (k linkId : nat) :
  shape (withComfyInputs n (updateNth k (setLink linkId))) = shape n.
Proof.
  unfold shape. simpl. destruct (comfyInputs n); simpl; [|reflexivity].
  rewrite updateNth_length. reflexivity.
Qed.

Definition shiftEdge (e : nat * nat * nat * nat) : nat * nat * nat * nat :=
  match e with
  | (si, so, ti, ts) => (S si, so, S ti, ts)
  end.

(** One connection through the second loop of the export. *)
Lemma exportLink_spec (nodes : list NodeInstance) (conn : Connection)
    (acc : list ComfyUINode * list ComfyUILink * nat) :
  NoDup (List.map nid nodes) ->
  let acc' := exportLink nodes (exportedIds 1 nodes []) acc conn in
  List.map shape (fst (fst acc')) = List.map shape (fst (fst acc))
  /\ List.map linkEnds (snd (fst acc'))
     = List.map linkEnds (snd (fst acc))
       ++ match resolve nodes conn with
          | Some e => [shiftEdge e]
          | None => []
          end.
Proof.
  intros Hnd. unfold exportLink, resolve, resolveEnds.
  destruct (findIndex (fun n => String.eqb (nid n) (sourceNodeId conn)) nodes)
    as [si|] eqn:Es.
  2:{ apply findIndex_None in Es. rewrite Es.
      destruct (map_get (sourceNodeId conn) (exportedIds 1 nodes []));
        [destruct (map_get (targetNodeId conn) (exportedIds 1 nodes []))|];
        simpl; rewrite app_nil_r; auto. }
  destruct (findIndex (fun n => String.eqb (nid n) (targetNodeId conn)) nodes)
    as [ti|] eqn:Et.
  2:{ apply findIndex_None in Et. rewrite Et.
      destruct (map_get (sourceNodeId conn) (exportedIds 1 nodes []));
        [destruct (map_get (targetNodeId conn) (exportedIds 1 nodes []))|];
        simpl; try rewrite app_nil_r; auto.
      destruct (find (fun n => String.eqb (nid n) (sourceNodeId conn)) nodes);
        simpl; auto. }
  rewrite (exportedIds_get nodes (sourceNodeId conn) 1 [] si Hnd Es).
  rewrite (exportedIds_get nodes (targetNodeId conn) 1 [] ti Hnd Et).
  destruct (findIndex_Some _ _ _ Es) as [sn [Hsn [Hfs _]]].
  destruct (findIndex_Some _ _ _ Et) as [tn [Htn [Hft _]]].
  rewrite Hfs, Hft, Hsn, Htn.
  destruct (findIndex (fun o => String.eqb (pid o) (sourcePortId conn)) (outputs sn))
    as [so|]; [|simpl; rewrite app_nil_r; auto].
  destruct (findIndex (fun i => String.eqb (pid i) (targetPortId conn)) (inputs tn))
    as [ts|]; [|simpl; rewrite app_nil_r; auto].
  simpl. split.
  - rewrite !updateFirst_shape; [reflexivity | |];
      intros n; [apply withComfyOutputs_shape | apply withComfyInputs_shape].
  - rewrite map_app. reflexivity.
Qed.

Lemma exportLinks_spec (nodes : list NodeInstance) (connections : list Connection) :
  NoDup (List.map nid nodes) ->
  forall acc,
    let acc' := fold_left (exportLink nodes (exportedIds 1 nodes [])) connections acc in
    List.map shape (fst (fst acc')) = List.map shape (fst (fst acc))
    /\ List.map linkEnds (snd (fst acc'))
       = List.map linkEnds (snd (fst acc))
         ++ List.map shiftEdge (topology nodes connections).
Proof.
  intros Hnd. induction connections as [|c cs IH]; intros acc; simpl.
  - rewrite app_nil_r. auto.
  - destruct (IH (exportLink nodes (exportedIds 1 nodes []) acc c)) as [H1 H2].
    destruct (exportLink_spec nodes c acc Hnd) as [H3 H4].
    split.
    + rewrite H1. exact H3.
    + rewrite H2, H4, <- app_assoc. f_equal. rewrite map_app. f_equal.
      destruct (resolve nodes c); reflexivity.
Qed.

Lemma num_get_set (k k' : nat) (v : string) (m : list (nat * string)) :
  num_get k' (num_set k v m) = if Nat.eqb k k' then Some v else num_get k' m.
Proof.
  induction m as [|[k0 v0] m IH]; simpl.
  - destruct (Nat.eqb k k'); reflexivity.
  - destruct (Nat.eqb_spec k0 k) as [E0|E0]; simpl.
    + subst k0. destruct (Nat.eqb k k'); reflexivity.
    + destruct (Nat.eqb_spec k0 k') as [E1|E1].
      * subst k0. destruct (Nat.eqb_spec k k'); [congruence | reflexivity].
      * exact IH.
Qed.

Lemma map_set_fresh {V : Type} (k : string) (v : V) (m : JsMap V) :
  ~ In k (map_keys m) -> map_set k v m = m ++ [(k, v)].
Proof.
  induction m as [|[k0 v0] m IH]; intros H; simpl; [reflexivity|].
  destruct (String.eqb_spec k0 k) as [E|E].
  - exfalso. apply H. left. exact E.
  - rewrite IH; [reflexivity|]. intros Hin. apply H. right. exact Hin.
Qed.

Section RoundTrip.
Variable getNodeDefinition : string -> option NodeDefinition.
Variable uuid : nat -> string.
(** Two calls of [uuidv4()] give two ids, and an id is not the empty
    string. *)
Hypothesis uuid_distinct : forall i j, uuid i = uuid j -> i = j.
Hypothesis uuid_nonempty : forall i, uuid i <> "".

Definition importedNodes (d : nat) (workflowNodes : list ComfyUINode)
    : list NodeInstance :=
  List.map (fun ip => importNode getNodeDefinition (uuid (fst ip)) (snd ip))
           (indexedFrom d workflowNodes).

Definition importedIds (d : nat) (workflowNodes : list ComfyUINode)
    (m : list (nat * string)) : list (nat * string) :=
  fold_left (fun m ip => num_set (comfyId (snd ip)) (uuid (fst ip)) m)
            (indexedFrom d workflowNodes) m.

Lemma importNodes_fold (workflowNodes : list ComfyUINode) :
  forall l m d,
    fold_left (fun acc comfyNode =>
                 (fst (fst acc) ++ [importNode getNodeDefinition (uuid (snd acc)) comfyNode],
                  num_set (comfyId comfyNode) (uuid (snd acc)) (snd (fst acc)),
                  S (snd acc)))
              workflowNodes (l, m, d)
    = (l ++ importedNodes d workflowNodes, importedIds d workflowNodes m,
       d + List.length workflowNodes).
Proof.
  induction workflowNodes as [|n ns IH]; intros l m d; simpl.
  - rewrite app_nil_r, Nat.add_0_r. reflexivity.
  - rewrite IH. unfold importedNodes, importedIds. simpl.
    rewrite <- app_assoc, Nat.add_succ_r. reflexivity.
Qed.

Lemma importNodes_eq (workflowNodes : list ComfyUINode) :
  importNodes getNodeDefinition uuid workflowNodes
  = (importedNodes 0 workflowNodes, importedIds 0 workflowNodes [],
     List.length workflowNodes).
Proof.
  unfold importNodes. rewrite importNodes_fold. reflexivity.
Qed.

Lemma importedIds_other (workflowNodes : list ComfyUINode) (key : nat) :
  forall d m, (forall n, In n workflowNodes -> comfyId n <> key) ->
              num_get key (importedIds d workflowNodes m) = num_get key m.
Proof.
  unfold importedIds.
  induction workflowNodes as [|n ns IH]; intros d m H; simpl; [reflexivity|].
  rewrite IH by (intros x Hx; apply H; right; exact Hx).
  rewrite num_get_set.
  destruct (Nat.eqb_spec (comfyId n) key) as [E|E]; [|reflexivity].
  exfalso. exact (H n (or_introl eq_refl) E).
Qed.

(** The id map of the import, for external nodes numbered [k], [k+1], ... *)
Lemma importedIds_get (workflowNodes : list ComfyUINode) :
  forall k d m i,
    List.map comfyId workflowNodes = seq k (List.length workflowNodes) ->
    i < List.length workflowNodes ->
    num_get (k + i) (importedIds d workflowNodes m) = Some (uuid (d + i)).
Proof.
  induction workflowNodes as [|n ns IH]; intros k d m i Hids Hi; simpl in *; [lia|].
  injection Hids as Hn Hns.
  change (importedIds d (n :: ns) m)
    with (importedIds (S d) ns (num_set (comfyId n) (uuid d) m)).
  destruct i as [|i].
  - rewrite importedIds_other.
    + rewrite num_get_set, Hn, !Nat.add_0_r, Nat.eqb_refl. reflexivity.
    + intros x Hx E.
      assert (Hin : In (comfyId x) (seq (S k) (List.length ns)))
        by (rewrite <- Hns; apply in_map; exact Hx).
      apply in_seq in Hin. lia.
  - replace (k + S i) with (S k + i) by lia.
    replace (d + S i) with (S d + i) by lia.
    apply IH; [exact Hns | lia].
Qed.

Definition connEnds (c : Connection) : string * string * string * string :=
  (sourceNodeId c, sourcePortId c, targetNodeId c, targetPortId c).

Definition importedEnds (e : nat * nat * nat * nat) : string * string * string * string :=
  match e with
  | (si, so, ti, ts) => (uuid si, outputId so, uuid ti, inputId ts)
  end.

(** The second loop of the import, on links whose node numbers are those of
    the [n] external nodes. *)
Lemma importLinks_spec (workflowNodes : list ComfyUINode)
    (workflowLinks : list ComfyUILink) (edges : list (nat * nat * nat * nat)) :
  List.map comfyId workflowNodes = seq 1 (List.length workflowNodes) ->
  List.map linkEnds workflowLinks = List.map shiftEdge edges ->
  (forall si so ti ts, In (si, so, ti, ts) edges ->
                       si < List.length workflowNodes /\ ti < List.length workflowNodes) ->
  forall acc,
    List.map connEnds
      (fst (fold_left
              (fun acc l =>
                 let sourceId := num_get (linkSourceNode l) (importedIds 0 workflowNodes []) in
                 let targetId := num_get (linkTargetNode l) (importedIds 0 workflowNodes []) in
                 if truthy sourceId && truthy targetId then
                   (fst acc ++
                      [{| cid := uuid (snd acc);
                          sourceNodeId := orElse sourceId "";
                          sourcePortId := outputId (linkSourceSlot l);
                          targetNodeId := orElse targetId "";
                          targetPortId := inputId (linkTargetSlot l);
                          ctype := Some (orElse (map_get (linkType l) comfyTypeMap) "any") |}],
                    S (snd acc))
                 else acc)
              workflowLinks acc))
    = List.map connEnds (fst acc) ++ List.map importedEnds edges.
Proof.
  intros Hids. revert edges.
  induction workflowLinks as [|l ls IH]; intros edges Hends Hbound acc.
  - destruct edges; [|discriminate]. simpl. rewrite app_nil_r. reflexivity.
  - destruct edges as [|[[[si so] ti] ts] es]; [discriminate|].
    cbn [List.map] in Hends. injection Hends as H1 H2 H3 H4 Hls.
    destruct (Hbound si so ti ts (or_introl eq_refl)) as [Hsi Hti].
    cbn [fold_left]. rewrite H1, H3.
    pose proof (importedIds_get workflowNodes 1 0 [] si Hids Hsi) as Gs.
    pose proof (importedIds_get workflowNodes 1 0 [] ti Hids Hti) as Gt.
    cbn [Nat.add] in Gs, Gt. rewrite Gs, Gt.
    unfold truthy, orElse.
    assert (Es : String.eqb (uuid si) "" = false)
      by (apply String.eqb_neq, uuid_nonempty).
    assert (Et : String.eqb (uuid ti) "" = false)
      by (apply String.eqb_neq, uuid_nonempty).
    rewrite Es, Et. cbn [negb andb].
    rewrite (IH es Hls);
      [|intros si' so' ti' ts' Hin; apply (Hbound si' so' ti' ts'); right; exact Hin].
    cbn [fst snd]. rewrite map_app, <- app_assoc. f_equal.
    simpl. unfold connEnds. simpl. rewrite H2, H4. reflexivity.
Qed.
End RoundTrip.

Lemma exportLink_shape (nodes : list NodeInstance) (nodeIdMap : JsMap nat)
    (acc : list ComfyUINode * list ComfyUILink * nat) (conn : Connection) :
  List.map shape (fst (fst (exportLink nodes nodeIdMap acc conn)))
  = List.map shape (fst (fst acc)).
Proof.
  unfold exportLink.
  repeat match goal with
         | |- context [match ?x with _ => _ end] => destruct x
         end; try reflexivity.
  all: simpl; rewrite !updateFirst_shape; [reflexivity | |];
    intros x; [apply withComfyOutputs_shape | apply withComfyInputs_shape].
Qed.

Lemma exportLinks_shape (nodes : list NodeInstance) (nodeIdMap : JsMap nat)
    (connections : list Connection) :
  forall acc,
    List.map shape (fst (fst (fold_left (exportLink nodes nodeIdMap) connections acc)))
    = List.map shape (fst (fst acc)).
Proof.
  induction connections as [|c cs IH]; intros acc; simpl; [reflexivity|].
  rewrite IH. apply exportLink_shape.
Qed.

Lemma exportToComfyUIWorkflow_shape (nodes : list NodeInstance)
    (connections : list Connection) :
  List.map shape (comfyNodes (exportToComfyUIWorkflow nodes connections))
  = List.map shape (exportedNodes 1 nodes).
Proof.
  unfold exportToComfyUIWorkflow. rewrite exportNodes_eq. simpl.
  apply exportLinks_shape.
Qed.

Lemma exportToComfyUIWorkflow_links (nodes : list NodeInstance)
    (connections : list Connection) :
  NoDup (List.map nid nodes) ->
  List.map linkEnds (comfyLinks (exportToComfyUIWorkflow nodes connections))
  = List.map shiftEdge (topology nodes connections).
Proof.
  intros Hnd. unfold exportToComfyUIWorkflow. rewrite exportNodes_eq. simpl.
  destruct (exportLinks_spec nodes connections Hnd (exportedNodes 1 nodes, [], 1))
    as [_ H].
  exact H.
Qed.

Lemma exportedNodes_length (k : nat) (nodes : list NodeInstance) :
  List.length (exportedNodes k nodes) = List.length nodes.
Proof.
  unfold exportedNodes. rewrite length_map. apply indexedFrom_length.
Qed.

Lemma exportedNodes_nth (k i : nat) (nodes : list NodeInstance) :
  nth_error (exportedNodes k nodes) i
  = option_map (exportNode (k + i)) (nth_error nodes i).
Proof.
  unfold exportedNodes. rewrite nth_error_map, indexedFrom_nth.
  destruct (nth_error nodes i); reflexivity.
Qed.

(** The external nodes of an export, seen through [shape]. *)
Lemma exported_nth_shape (nodes : list NodeInstance) (connections : list Connection)
    (i : nat) (x : ComfyUINode) :
  nth_error (comfyNodes (exportToComfyUIWorkflow nodes connections)) i = Some x ->
  exists n, nth_error nodes i = Some n /\ shape x = shape (exportNode (S i) n).
Proof.
  intros H.
  assert (E : nth_error (List.map shape (comfyNodes (exportToComfyUIWorkflow nodes connections))) i
              = Some (shape x))
    by (rewrite nth_error_map, H; reflexivity).
  rewrite exportToComfyUIWorkflow_shape, nth_error_map, exportedNodes_nth in E.
  destruct (nth_error nodes i) as [n|]; [|discriminate E].
  exists n. split; [reflexivity|]. simpl in E. congruence.
Qed.

Lemma exported_length (nodes : list NodeInstance) (connections : list Connection) :
  List.length (comfyNodes (exportToComfyUIWorkflow nodes connections))
  = List.length nodes.
Proof.
  rewrite <- (length_map shape), exportToComfyUIWorkflow_shape, length_map.
  apply exportedNodes_length.
Qed.

Lemma exported_ids (nodes : list NodeInstance) (connections : list Connection) :
  List.map comfyId (comfyNodes (exportToComfyUIWorkflow nodes connections))
  = seq 1 (List.length (comfyNodes (exportToComfyUIWorkflow nodes connections))).
Proof.
  rewrite exported_length.
  assert (E : List.map comfyId (comfyNodes (exportToComfyUIWorkflow nodes connections))
              = List.map (fun s => fst (fst (fst (fst s))))
                         (List.map shape (comfyNodes (exportToComfyUIWorkflow nodes connections))))
    by (rewrite map_map; reflexivity).
  rewrite E, exportToComfyUIWorkflow_shape, map_map. unfold exportedNodes.
  rewrite map_map. simpl. clear E. generalize 1.
  induction nodes as [|n ns IH]; intros k; simpl; [reflexivity|].
  rewrite IH. reflexivity.
Qed.

(** Ports made from their index: the port with id [mkId j] is the j-th. *)
Lemma findIndex_made_ports {A : Type} (mkId : nat -> string) (f : nat -> A -> Port)
    (l : list A) :
  (forall i j, mkId i = mkId j -> i = j) ->
  (forall i x, pid (f i x) = mkId i) ->
  forall k j, j < List.length l ->
    findIndex (fun p => String.eqb (pid p) (mkId (k + j)))
              (List.map (fun ip => f (fst ip) (snd ip)) (indexedFrom k l))
    = Some j.
Proof.
  intros Hinj Hpid. induction l as [|x l IH]; intros k j Hj; simpl in *; [lia|].
  rewrite Hpid. destruct j as [|j].
  - rewrite Nat.add_0_r, String.eqb_refl. reflexivity.
  - destruct (String.eqb_spec (mkId k) (mkId (k + S j))) as [E|E].
    + apply Hinj in E. lia.
    + replace (k + S j) with (S k + j) by lia.
      rewrite IH by lia. reflexivity.
Qed.

Lemma importOutputs_index (x : ComfyUINode) (so : nat) :
  so < List.length (orNil (comfyOutputs x)) ->
  findIndex (fun p => String.eqb (pid p) (outputId so)) (importOutputs x) = Some so.
Proof.
  intros H. unfold importOutputs, indexed.
  apply (findIndex_made_ports outputId
           (fun i o => {| pid := outputId i; pname := coName o;
                          ptype := orElse (map_get (coType o) comfyTypeMap) "any";
                          direction := output;
                          connected := Some (match links o with
                                             | Some l => Nat.ltb 0 (List.length l)
                                             | None => false
                                             end);
                          isReferenceInput := None; widget := None |})
           (orNil (comfyOutputs x)) outputId_inj (fun _ _ => eq_refl) 0 so H).
Qed.

Lemma importInputs_index (x : ComfyUINode) (ts : nat) :
  ts < List.length (orNil (comfyInputs x)) ->
  findIndex (fun p => String.eqb (pid p) (inputId ts)) (importInputs x) = Some ts.
Proof.
  intros H. unfold importInputs, indexed.
  apply (findIndex_made_ports inputId
           (fun i c => {| pid := inputId i; pname := ciName c;
                          ptype := orElse (map_get (ciType c) comfyTypeMap) "any";
                          direction := input;
                          connected := Some (match link c with
                                             | Some _ => true
                                             | None => false
                                             end);
                          isReferenceInput := None; widget := None |})
           (orNil (comfyInputs x)) inputId_inj (fun _ _ => eq_refl) 0 ts H).
Qed.

(** The values of the literal data of a node imported without a definition
    are the widget values, in order, under the names [param_0],
    [param_1], ... *)
Lemma importData_generic_fold (values : list JsValue) :
  forall k acc,
    (forall key, In key (map_keys acc) -> exists j, j < k /\ key = ("param_" ++ decimal j)%string) ->
    map_values (fold_left (fun data iv => map_set ("param_" ++ decimal (fst iv))%string (snd iv) data)
                          (indexedFrom k values) acc)
    = map_values acc ++ values.
Proof.
  induction values as [|v vs IH]; intros k acc Hacc;
    cbn [fold_left indexedFrom fst snd].
  - rewrite app_nil_r. reflexivity.
  - assert (Hfresh : ~ In ("param_" ++ decimal k)%string (map_keys acc)).
    { intros Hin. destruct (Hacc _ Hin) as [j [Hj E]].
      inversion E as [E']. apply decimal_inj in E'. lia. }
    rewrite (map_set_fresh _ v acc Hfresh). rewrite IH.
    + unfold map_values. rewrite map_app, <- app_assoc. reflexivity.
    + intros key Hin. unfold map_keys in Hin. rewrite map_app in Hin.
      apply in_app_or in Hin. destruct Hin as [Hin|[Hin|[]]].
      * destruct (Hacc key Hin) as [j [Hj E]]. exists j. split; [lia | exact E].
      * exists k. split; [lia | symmetry; exact Hin].
Qed.

Lemma importData_generic (values : list JsValue) :
  map_values (importData None (Some values)) = values.
Proof.
  unfold importData, indexed.
  rewrite importData_generic_fold; [reflexivity|]. intros key [].
Qed.

(** The same, with the names: the literal data are the widget values under
    [param_0], [param_1], ..., in order. *)
Lemma importData_generic_named_fold (values : list JsValue) :
  forall k acc,
    (forall key, In key (map_keys acc) -> exists j, j < k /\ key = ("param_" ++ decimal j)%string) ->
    fold_left (fun data iv => map_set ("param_" ++ decimal (fst iv))%string (snd iv) data)
              (indexedFrom k values) acc
    = acc ++ List.map (fun iv => (("param_" ++ decimal (fst iv))%string, snd iv))
                      (indexedFrom k values).
Proof.
  induction values as [|v vs IH]; intros k acc Hacc;
    cbn [fold_left indexedFrom fst snd List.map].
  - rewrite app_nil_r. reflexivity.
  - assert (Hfresh : ~ In ("param_" ++ decimal k)%string (map_keys acc)).
    { intros Hin. destruct (Hacc _ Hin) as [j [Hj E]].
      inversion E as [E']. apply decimal_inj in E'. lia. }
    rewrite (map_set_fresh _ v acc Hfresh). rewrite IH.
    + rewrite <- app_assoc. reflexivity.
    + intros key Hin. unfold map_keys in Hin. rewrite map_app in Hin.
      apply in_app_or in Hin. destruct Hin as [Hin|[Hin|[]]].
      * destruct (Hacc key Hin) as [j [Hj E]]. exists j. split; [lia | exact E].
      * exists k. split; [lia | symmetry; exact Hin].
Qed.

Lemma importData_generic_named (values : list JsValue) :
  importData None (Some values)
  = List.map (fun iv => (("param_" ++ decimal (fst iv))%string, snd iv)) (indexed values).
Proof.
  unfold importData, indexed.
  rewrite importData_generic_named_fold; [reflexivity|]. intros key [].
Qed.

(** A definition none of whose inputs carries a widget takes no widget
    value: the literal data of the imported node are empty. *)
Lemma importData_no_widget (definition : NodeDefinition) (values : list JsValue) :
  Forall (fun p => swidget p = None) (dinputs definition) ->
  importData (Some definition) (Some values) = [].
Proof.
  unfold importData, indexed. generalize 0. generalize (@nil (string * JsValue)).
  induction (dinputs definition) as [|p ps IH]; intros acc k H;
    cbn [fold_left indexedFrom fst snd].
  - reflexivity.
  - inversion H as [|x xs Hp Hps]; subst. rewrite Hp. apply IH. exact Hps.
Qed.

(** The eight kinds with an entry in the internal-to-external dictionary
    come back from the external name. *)
Lemma explicit_kind_round_trip (kind : string) :
  In kind (map_keys reverseNodeTypeMap) ->
  orElse (map_get (exportNodeType kind) comfyNodeTypeMap)
         ("comfy-" ++ toLowerCase (exportNodeType kind))%string
  = kind.
Proof.
  intros H. vm_compute in H.
  repeat (destruct H as [<-|H]; [vm_compute; reflexivity|]).
  destruct H.
Qed.

Section RoundTripResult.
Variable getNodeDefinition : string -> option NodeDefinition.
Variable uuid : nat -> string.
Hypothesis uuid_distinct : forall i j, uuid i = uuid j -> i = j.
Hypothesis uuid_nonempty : forall i, uuid i <> "".

(** [importComfyUIWorkflow(exportToComfyUIWorkflow(nodes, connections))]. *)
Definition roundTrip (nodes : list NodeInstance) (connections : list Connection)
    : list NodeInstance * list Connection :=
  importComfyUIWorkflow getNodeDefinition uuid
                        (exportToComfyUIWorkflow nodes connections).

Lemma importedNodes_index (workflowNodes : list ComfyUINode) :
  forall d i, i < List.length workflowNodes ->
    findIndex (fun n => String.eqb (nid n) (uuid (d + i)))
              (importedNodes getNodeDefinition uuid d workflowNodes)
    = Some i.
Proof.
  unfold importedNodes.
  induction workflowNodes as [|x xs IH]; intros d i Hi; simpl in *; [lia|].
  destruct i as [|i].
  - rewrite Nat.add_0_r, String.eqb_refl. reflexivity.
  - destruct (String.eqb_spec (uuid d) (uuid (d + S i))) as [E|E].
    + apply uuid_distinct in E. lia.
    + replace (d + S i) with (S d + i) by lia.
      rewrite IH by lia. reflexivity.
Qed.

Lemma importedNodes_nth (workflowNodes : list ComfyUINode) (d i : nat) :
  nth_error (importedNodes getNodeDefinition uuid d workflowNodes) i
  = option_map (importNode getNodeDefinition (uuid (d + i))) (nth_error workflowNodes i).
Proof.
  unfold importedNodes. rewrite nth_error_map, indexedFrom_nth.
  destruct (nth_error workflowNodes i); reflexivity.
Qed.

Lemma resolveEnds_imported (workflowNodes : list ComfyUINode)
    (si so ti ts : nat) (x y : ComfyUINode) :
  nth_error workflowNodes si = Some x ->
  nth_error workflowNodes ti = Some y ->
  so < List.length (orNil (comfyOutputs x)) ->
  ts < List.length (orNil (comfyInputs y)) ->
  resolveEnds (importedNodes getNodeDefinition uuid 0 workflowNodes)
              (uuid si) (outputId so) (uuid ti) (inputId ts)
  = Some (si, so, ti, ts).
Proof.
  intros Hx Hy Hso Hts. unfold resolveEnds.
  assert (Hsi : si < List.length workflowNodes) by (apply nth_error_Some; congruence).
  assert (Hti : ti < List.length workflowNodes) by (apply nth_error_Some; congruence).
  pose proof (importedNodes_index workflowNodes 0 si Hsi) as Es.
  pose proof (importedNodes_index workflowNodes 0 ti Hti) as Et.
  cbn [Nat.add] in Es, Et. rewrite Es, Et.
  rewrite !importedNodes_nth, Hx, Hy. simpl.
  rewrite (importOutputs_index x so Hso), (importInputs_index y ts Hts).
  reflexivity.
Qed.

Lemma resolve_bounds (nodes : list NodeInstance) (c : Connection)
    (si so ti ts : nat) :
  resolve nodes c = Some (si, so, ti, ts) ->
  exists sn tn, nth_error nodes si = Some sn /\ nth_error nodes ti = Some tn
                /\ so < List.length (outputs sn) /\ ts < List.length (inputs tn).
Proof.
  unfold resolve, resolveEnds. intros H.
  destruct (findIndex _ nodes) as [si'|]; [|discriminate].
  destruct (findIndex _ nodes) as [ti'|]; [|discriminate].
  destruct (nth_error nodes si') as [sn|] eqn:Esn; [|discriminate].
  destruct (nth_error nodes ti') as [tn|] eqn:Etn; [|discriminate].
  destruct (findIndex _ (outputs sn)) as [so'|] eqn:Eso; [|discriminate].
  destruct (findIndex _ (inputs tn)) as [ts'|] eqn:Ets; [|discriminate].
  inversion H. subst. exists sn, tn.
  repeat split; auto; eapply findIndex_lt; eassumption.
Qed.

Lemma topology_bounds (nodes : list NodeInstance) (connections : list Connection)
    (si so ti ts : nat) :
  In (si, so, ti, ts) (topology nodes connections) ->
  exists sn tn, nth_error nodes si = Some sn /\ nth_error nodes ti = Some tn
                /\ so < List.length (outputs sn) /\ ts < List.length (inputs tn).
Proof.
  unfold topology. intros H. apply in_flat_map in H. destruct H as [c [_ H]].
  destruct (resolve nodes c) as [e|] eqn:E; [|destruct H].
  destruct H as [->|[]]. exact (resolve_bounds nodes c si so ti ts E).
Qed.
Lemma roundTrip_nodes (nodes : list NodeInstance) (connections : list Connection) :
  fst (roundTrip nodes connections)
  = importedNodes getNodeDefinition uuid 0
      (comfyNodes (exportToComfyUIWorkflow nodes connections)).
Proof.
  unfold roundTrip, importComfyUIWorkflow. rewrite importNodes_eq. reflexivity.
Qed.

(** The node at position [i] after the round trip, from the node at
    position [i] before it. *)
Lemma roundTrip_nth (nodes : list NodeInstance) (connections : list Connection)
    (i : nat) :
  match nth_error nodes i with
  | Some n =>
      exists x, nth_error (comfyNodes (exportToComfyUIWorkflow nodes connections)) i = Some x
                /\ shape x = shape (exportNode (S i) n)
                /\ nth_error (fst (roundTrip nodes connections)) i
                   = Some (importNode getNodeDefinition (uuid i) x)
  | None => nth_error (fst (roundTrip nodes connections)) i = None
  end.
Proof.
  rewrite roundTrip_nodes, importedNodes_nth.
  destruct (nth_error (comfyNodes (exportToComfyUIWorkflow nodes connections)) i)
    as [x|] eqn:Ex.
  - destruct (exported_nth_shape nodes connections i x Ex) as [n [Hn Hs]].
    rewrite Hn. exists x. auto.
  - apply nth_error_None in Ex. rewrite exported_length in Ex.
    apply nth_error_None in Ex. rewrite Ex. reflexivity.
Qed.

Lemma roundTrip_connections (nodes : list NodeInstance) (connections : list Connection) :
  NoDup (List.map nid nodes) ->
  List.map connEnds (snd (roundTrip nodes connections))
  = List.map (importedEnds uuid) (topology nodes connections).
Proof.
  intros Hnd. unfold roundTrip, importComfyUIWorkflow. rewrite importNodes_eq.
  cbn [fst snd]. unfold importLinks.
  rewrite (importLinks_spec uuid uuid_nonempty
             (comfyNodes (exportToComfyUIWorkflow nodes connections))
             (comfyLinks (exportToComfyUIWorkflow nodes connections))
             (topology nodes connections)).
  - reflexivity.
  - apply exported_ids.
  - apply exportToComfyUIWorkflow_links. exact Hnd.
  - intros si so ti ts Hin. rewrite exported_length.
    destruct (topology_bounds nodes connections si so ti ts Hin)
      as [sn [tn [Hs [Ht _]]]].
    split; apply nth_error_Some; congruence.
Qed.

(** C3 (amended): for a graph all of whose node kinds have an explicit
    entry in the internal-to-external dictionary, exporting it and
    importing the result gives as many nodes, in the same order, with
    - the same kinds;
    - the same connection topology, when the node ids are distinct: the
      connections that come back are, in order, the connections whose nodes
      and ports exist in the graph, each between the same node positions
      and the same port positions (the export drops the others);
    - for every node whose kind has no registered definition, the same
      literal-data values, in the same order, under the names [param_0],
      [param_1], ...;
    - for every node whose kind has a registered definition none of whose
      inputs carries a widget, no literal data at all. *)
Theorem roundTrip_preserves (nodes : list NodeInstance)
    (connections : list Connection) :
  Forall (fun n => In (ntype n) (map_keys reverseNodeTypeMap)) nodes ->
  List.length (fst (roundTrip nodes connections)) = List.length nodes
  /\ List.map ntype (fst (roundTrip nodes connections)) = List.map ntype nodes
  /\ (NoDup (List.map nid nodes) ->
      List.map (resolve (fst (roundTrip nodes connections)))
               (snd (roundTrip nodes connections))
      = List.map Some (topology nodes connections))
  /\ (forall i n n',
        nth_error nodes i = Some n ->
        nth_error (fst (roundTrip nodes connections)) i = Some n' ->
        getNodeDefinition (ntype n') = None ->
        data n' = List.map (fun iv => (("param_" ++ decimal (fst iv))%string, snd iv))
                           (indexed (map_values (data n))))
  /\ (forall i n n' definition,
        nth_error nodes i = Some n ->
        nth_error (fst (roundTrip nodes connections)) i = Some n' ->
        getNodeDefinition (ntype n') = Some definition ->
        Forall (fun p => swidget p = None) (dinputs definition) ->
        data n' = []).
Proof.
  intros Hkinds. split; [|split; [|split; [|split]]].
  - rewrite roundTrip_nodes. unfold importedNodes.
    rewrite length_map, indexedFrom_length. apply exported_length.
  - apply nth_error_ext. intros i. rewrite !nth_error_map.
    pose proof (roundTrip_nth nodes connections i) as H.
    destruct (nth_error nodes i) as [n|] eqn:En.
    + destruct H as [x [_ [Hs Hx]]]. rewrite Hx. simpl. f_equal.
      unfold importNodeType.
      assert (Et : comfyType x = exportNodeType (ntype n))
        by (unfold shape in Hs; simpl in Hs; congruence).
      rewrite Et. apply explicit_kind_round_trip.
      apply nth_error_In in En.
      exact (proj1 (Forall_forall _ nodes) Hkinds n En).
    + rewrite H. reflexivity.
  - intros Hnd.
    assert (E : List.map (resolve (fst (roundTrip nodes connections)))
                         (snd (roundTrip nodes connections))
                = List.map (fun e => match e with
                                     | (s, sp, t, tp) =>
                                         resolveEnds (fst (roundTrip nodes connections)) s sp t tp
                                     end)
                           (List.map connEnds (snd (roundTrip nodes connections))))
      by (rewrite map_map; reflexivity).
    rewrite E, (roundTrip_connections nodes connections Hnd), map_map.
    apply map_ext_in. intros [[[si so] ti] ts] Hin. unfold importedEnds.
    destruct (topology_bounds nodes connections si so ti ts Hin)
      as [sn [tn [Hs [Ht [Hso Hts]]]]].
    pose proof (roundTrip_nth nodes connections si) as Hsi. rewrite Hs in Hsi.
    pose proof (roundTrip_nth nodes connections ti) as Hti. rewrite Ht in Hti.
    destruct Hsi as [x [Hx [Hxs _]]]. destruct Hti as [y [Hy [Hys _]]].
    rewrite roundTrip_nodes.
    apply (resolveEnds_imported _ si so ti ts x y Hx Hy).
    + unfold shape in Hxs. simpl in Hxs.
      destruct (comfyOutputs x) as [l|]; simpl in Hxs; [|discriminate].
      injection Hxs as _ _ _ _ Hl. simpl. rewrite Hl, length_map.
      unfold indexed. rewrite indexedFrom_length. exact Hso.
    + unfold shape in Hys. simpl in Hys.
      destruct (comfyInputs y) as [l|]; simpl in Hys; [|discriminate].
      injection Hys as _ _ _ Hl _. simpl. rewrite Hl, length_map. exact Hts.
  - intros i n n' Hn Hn' Hdef.
    pose proof (roundTrip_nth nodes connections i) as H. rewrite Hn in H.
    destruct H as [x [_ [Hs Hx]]]. rewrite Hx in Hn'. injection Hn' as <-.
    simpl in Hdef. simpl. rewrite Hdef.
    assert (Ew : widgets_values x = Some (map_values (data n)))
      by (unfold shape in Hs; simpl in Hs; congruence).
    rewrite Ew. apply importData_generic_named.
  - intros i n n' definition Hn Hn' Hdef Hno.
    pose proof (roundTrip_nth nodes connections i) as H. rewrite Hn in H.
    destruct H as [x [_ [Hs Hx]]]. rewrite Hx in Hn'. injection Hn' as <-.
    simpl in Hdef. simpl. rewrite Hdef.
    assert (Ew : widgets_values x = Some (map_values (data n)))
      by (unfold shape in Hs; simpl in Hs; congruence).
    rewrite Ew. apply importData_no_widget. exact Hno.
Qed.
End RoundTripResult.

(** A graph with one [image-upload] node that holds a file name, under a
    registry that knows the built-in definition of that kind. *)
Definition imageUploadDefinition : NodeDefinition :=
  {| dtype := "image-upload"; dname := "图像上传"; dinputs := [];
     doutputs := [ linkOnly "图像" "image" ];
     defaultData := Some [("imageUrl", JStr ""); ("fileName", JStr "")] |}.

Definition builtinRegistry (type : string) : option NodeDefinition :=
  if String.eqb type "image-upload" then Some imageUploadDefinition else None.

Definition uploadNode : NodeInstance :=
  {| nid := "n1"; ntype := "image-upload"; position := (0, 0)%Z;
     data := [("imageUrl", JStr "cat.png"); ("fileName", JStr "cat")];
     inputs := []; outputs := [plainPort "output-0" output false];
     size := None |}.

(** The results of [uuidv4()] taken to be [id-0], [id-1], ... *)
Definition countedIds (i : nat) : string := "id-" ++ decimal i.

Lemma countedIds_distinct (i j : nat) : countedIds i = countedIds j -> i = j.
Proof.
  unfold countedIds. intros H. inversion H. apply decimal_inj. assumption.
Qed.

Lemma countedIds_nonempty (i : nat) : countedIds i <> "".
Proof.
  unfold countedIds. discriminate.
Qed.

(** C3 as the specification words it, for the literal data: when every
    kind has an explicit entry in the dictionary, the values that the nodes
    hold after the round trip are the values they held before. *)
Definition literal_data_preserved_as_stated
    (getNodeDefinition : string -> option NodeDefinition) (uuid : nat -> string)
    (nodes : list NodeInstance) (connections : list Connection) : Prop :=
  Forall (fun n => In (ntype n) (map_keys reverseNodeTypeMap)) nodes ->
  List.map (fun n => map_values (data n))
           (fst (roundTrip getNodeDefinition uuid nodes connections))
  = List.map (fun n => map_values (data n)) nodes.

(** The kind [image-upload] has the explicit external name [LoadImage] and
    a built-in definition without inputs; the two values of the node are
    exported and then dropped by the import. *)
Lemma literal_data_preserved_counterexample :
  ~ literal_data_preserved_as_stated builtinRegistry countedIds [uploadNode] [].
Proof.
  unfold literal_data_preserved_as_stated. intros H.
  assert (Hkind : Forall (fun n => In (ntype n) (map_keys reverseNodeTypeMap))
                         [uploadNode])
    by (repeat constructor; vm_compute; tauto).
  specialize (H Hkind). vm_compute in H. discriminate H.
Qed.

(** The built-in definitions of the two kinds of the dictionary that the
    registry always knows. *)
Definition imageOutputDefinition : NodeDefinition :=
  {| dtype := "image-output"; dname := "图像输出";
     dinputs := [ linkOnly "图像" "image" ]; doutputs := [];
     defaultData := Some [("format", JStr "png"); ("quality", JNum 90)] |}.

Definition builtinKinds (type : string) : option NodeDefinition :=
  if String.eqb type "image-upload" then Some imageUploadDefinition
  else if String.eqb type "image-output" then Some imageOutputDefinition
  else None.

(** A sampler node wired to an output node, and a connection to a port that
    the output node does not have.  The kind [ksampler] is in the
    dictionary and has no definition; [image-output] is built in. *)
Definition samplerNode : NodeInstance :=
  {| nid := "n1"; ntype := "ksampler"; position := (0, 0)%Z;
     data := [("seed", JNum 7); ("steps", JNum 20)];
     inputs := []; outputs := [plainPort "output-0" output true];
     size := None |}.

Definition outputNode : NodeInstance :=
  {| nid := "n2"; ntype := "image-output"; position := (300, 0)%Z;
     data := [("format", JStr "png"); ("quality", JNum 90)];
     inputs := [plainPort "input-0" input true]; outputs := [];
     size := None |}.

Definition samplerToOutput : list Connection :=
  [ wire "c1" "n1" "output-0" "n2" "input-0";
    wire "c2" "n1" "output-0" "n2" "input-7" ].

Lemma roundTrip_preserves_witness :
  List.map ntype (fst (roundTrip builtinKinds countedIds
                                 [samplerNode; outputNode] samplerToOutput))
  = ["ksampler"; "image-output"]
  /\ List.map (resolve (fst (roundTrip builtinKinds countedIds
                                       [samplerNode; outputNode] samplerToOutput)))
              (snd (roundTrip builtinKinds countedIds
                              [samplerNode; outputNode] samplerToOutput))
     = [Some (0, 0, 1, 0)]
  /\ (exists n', nth_error (fst (roundTrip builtinKinds countedIds
                                           [samplerNode; outputNode] samplerToOutput)) 0
                 = Some n'
                 /\ data n' = [("param_0", JNum 7); ("param_1", JNum 20)])
  /\ (exists n', nth_error (fst (roundTrip builtinKinds countedIds
                                           [samplerNode; outputNode] samplerToOutput)) 1
                 = Some n'
                 /\ data n' = []).
Proof.
  assert (Hkinds : Forall (fun n => In (ntype n) (map_keys reverseNodeTypeMap))
                          [samplerNode; outputNode])
    by (repeat constructor; vm_compute; tauto).
  pose proof (roundTrip_preserves builtinKinds countedIds
                countedIds_distinct countedIds_nonempty
                [samplerNode; outputNode] samplerToOutput Hkinds)
    as [_ [Hk [Ht [Hd He]]]].
  split; [exact Hk|]. split; [|split].
  - apply Ht. repeat constructor; simpl; intuition discriminate.
  - eexists. split; [vm_compute; reflexivity|].
    apply (Hd 0 samplerNode); reflexivity.
  - eexists. split; [vm_compute; reflexivity|].
    apply (He 1 outputNode _ imageOutputDefinition); try reflexivity.
    repeat constructor.
Defined.

(** * Further properties of the store *)

(** The port that a node id and a port id name in a store. *)
Definition outputPort (nodeId portId : string) (state : WorkflowStore) : option Port :=
  match find (fun n => String.eqb (nid n) nodeId) (nodes state) with
  | None => None
  | Some n => find (fun p => String.eqb (pid p) portId) (outputs n)
  end.

Definition inputPort (nodeId portId : string) (state : WorkflowStore) : option Port :=
  match find (fun n => String.eqb (nid n) nodeId) (nodes state) with
  | None => None
  | Some n => find (fun p => String.eqb (pid p) portId) (inputs n)
  end.

Lemma find_map_nodes (f : NodeInstance -> NodeInstance) (x : string)
    (l : list NodeInstance) :
  (forall n, nid (f n) = nid n) ->
  find (fun n => String.eqb (nid n) x) (List.map f l)
  = option_map f (find (fun n => String.eqb (nid n) x) l).
Proof.
  intros H. induction l as [|n l IH]; simpl; [reflexivity|].
  rewrite H. destruct (String.eqb (nid n) x); [reflexivity | exact IH].
Qed.

Lemma find_flagged_port (b : bool) (portId : string) (ports : list Port) :
  find (fun p => String.eqb (pid p) portId)
       (List.map (fun p => if String.eqb (pid p) portId then setConnected b p else p) ports)
  = option_map (setConnected b) (find (fun p => String.eqb (pid p) portId) ports).
Proof.
  induction ports as [|p ps IH]; simpl; [reflexivity|].
  destruct (String.eqb (pid p) portId) eqn:E; simpl; rewrite E; [reflexivity | exact IH].
Qed.

Lemma find_first_id (x : string) (l : list NodeInstance) (n : NodeInstance) :
  find (fun n => String.eqb (nid n) x) l = Some n -> nid n = x.
Proof.
  intros H. apply find_some in H. destruct H as [_ H].
  apply String.eqb_eq. exact H.
Qed.

(** The node update of [addConnection]. *)
Definition flagEndpoints (connection : ConnectionArg) (node : NodeInstance)
    : NodeInstance :=
  if String.eqb (nid node) (argSourceNodeId connection) then
    withOutputs node
      (List.map (fun p => if String.eqb (pid p) (argSourcePortId connection)
                          then setConnected true p else p) (outputs node))
  else if String.eqb (nid node) (argTargetNodeId connection) then
    withInputs node
      (List.map (fun p => if String.eqb (pid p) (argTargetPortId connection)
                          then setConnected true p else p) (inputs node))
  else node.

Lemma flagEndpoints_id (connection : ConnectionArg) (node : NodeInstance) :
  nid (flagEndpoints connection node) = nid node.
Proof.
  unfold flagEndpoints.
  destruct (String.eqb (nid node) (argSourceNodeId connection)); [reflexivity|].
  destruct (String.eqb (nid node) (argTargetNodeId connection)); reflexivity.
Qed.

Lemma addConnection_nodes (newId : string) (connection : ConnectionArg)
    (state : WorkflowStore) :
  existsb (sameEndpoints connection) (connections state) = false ->
  nodes (addConnection newId connection state)
  = List.map (flagEndpoints connection) (nodes state).
Proof.
  intros H. unfold addConnection. rewrite H. reflexivity.
Qed.

(** X1: after [addConnection] of a connection that is not a duplicate, the
    source output port is flagged as connected; the target input port is
    flagged as connected when the two nodes differ, and is left as it was
    for a connection from a node to itself.  No node is added, removed or
    renamed. *)
Theorem addConnection_flags (newId : string) (connection : ConnectionArg)
    (state : WorkflowStore) :
  existsb (sameEndpoints connection) (connections state) = false ->
  outputPort (argSourceNodeId connection) (argSourcePortId connection)
             (addConnection newId connection state)
  = option_map (setConnected true)
               (outputPort (argSourceNodeId connection) (argSourcePortId connection) state)
  /\ inputPort (argTargetNodeId connection) (argTargetPortId connection)
               (addConnection newId connection state)
     = (if String.eqb (argSourceNodeId connection) (argTargetNodeId connection)
        then inputPort (argTargetNodeId connection) (argTargetPortId connection) state
        else option_map (setConnected true)
               (inputPort (argTargetNodeId connection) (argTargetPortId connection) state))
  /\ List.map nid (nodes (addConnection newId connection state))
     = List.map nid (nodes state).
Proof.
  intros H. unfold outputPort, inputPort.
  rewrite (addConnection_nodes newId connection state H).
  rewrite !find_map_nodes by apply flagEndpoints_id.
  split; [|split].
  - destruct (find _ (nodes state)) as [n|] eqn:E; simpl; [|reflexivity].
    apply find_first_id in E. unfold flagEndpoints.
    rewrite E, String.eqb_refl. simpl. apply find_flagged_port.
  - destruct (find _ (nodes state)) as [n|] eqn:E; simpl.
    + apply find_first_id in E. unfold flagEndpoints. rewrite E.
      rewrite (String.eqb_sym (argTargetNodeId connection)).
      destruct (String.eqb (argSourceNodeId connection) (argTargetNodeId connection));
        simpl; [reflexivity|].
      rewrite String.eqb_refl. simpl. apply find_flagged_port.
    + destruct (String.eqb _ _); reflexivity.
  - rewrite map_map. apply map_ext. intros n. apply flagEndpoints_id.
Qed.

Lemma addConnection_flags_witness :
  inputPort "T" "input-0" (addConnection "c2" (wireArg "B" "output-0" "T" "input-0") occupiedInput)
  = Some (setConnected true (plainPort "input-0" input true))
  /\ outputPort "B" "output-0"
                (addConnection "c2" (wireArg "B" "output-0" "T" "input-0") occupiedInput)
     = Some (setConnected true (plainPort "output-0" output false)).
Proof.
  destruct (addConnection_flags "c2" (wireArg "B" "output-0" "T" "input-0") occupiedInput)
    as [H1 [H2 _]]; [reflexivity|].
  split; [exact H2 | exact H1].
Defined.

(** At most one connection terminates at every input port. *)
Definition singleInput (state : WorkflowStore) : Prop :=
  forall connection, List.length (terminatingAt connection state) <= 1.

Lemma filter_filter_length {A : Type} (p q : A -> bool) (l : list A) :
  List.length (filter p (filter q l)) <= List.length (filter p l).
Proof.
  induction l as [|x l IH]; simpl; [lia|].
  destruct (q x); simpl; destruct (p x); simpl; lia.
Qed.

Lemma sameTarget_transfer (c1 c2 : ConnectionArg) (c : Connection) :
  sameTarget c1 (mkConnection "" c2) = true ->
  sameTarget c1 c = sameTarget c2 c.
Proof.
  intros H. apply sameTarget_true in H. simpl in H. destruct H as [H1 H2].
  unfold sameTarget. rewrite H1, H2. reflexivity.
Qed.

(** X2: the operations of the store keep the rule of one connection per
    input port: if it holds before [addConnection], [removeConnection] or
    [removeNode], it holds after. *)
Theorem singleInput_preserved (state : WorkflowStore) :
  singleInput state ->
  (forall newId connection, singleInput (addConnection newId connection state))
  /\ (forall connectionId, singleInput (removeConnection connectionId state))
  /\ (forall nodeId, singleInput (removeNode nodeId state)).
Proof.
  intros Hs. split; [|split].
  - intros newId connection other. unfold terminatingAt.
    destruct (existsb (sameEndpoints connection) (connections state)) eqn:E.
    + unfold addConnection. rewrite E. apply Hs.
    + rewrite (addConnection_fresh newId connection state E), filter_app, length_app.
      simpl. destruct (sameTarget other (mkConnection newId connection)) eqn:Et.
      * assert (Et' : sameTarget other (mkConnection "" connection) = true) by exact Et.
        rewrite (filter_none (sameTarget other)); [simpl; lia|].
        intros c Hc. apply filter_In in Hc. destruct Hc as [_ Hc].
        rewrite (sameTarget_transfer other connection c Et').
        apply negb_true_iff. exact Hc.
      * simpl. pose proof (Hs other) as H. unfold terminatingAt in H.
        pose proof (filter_filter_length (sameTarget other)
                      (fun c => negb (sameTarget connection c)) (connections state)).
        lia.
  - intros connectionId other. unfold terminatingAt, removeConnection.
    destruct (find _ (connections state)); [|apply Hs]. simpl.
    pose proof (Hs other) as H. unfold terminatingAt in H.
    pose proof (filter_filter_length (sameTarget other)
                  (fun c => negb (String.eqb (cid c) connectionId)) (connections state)).
    lia.
  - intros nodeId other. unfold terminatingAt, removeNode. simpl.
    pose proof (Hs other) as H. unfold terminatingAt in H.
    pose proof (filter_filter_length (sameTarget other)
                  (fun c => negb (String.eqb (sourceNodeId c) nodeId)
                            && negb (String.eqb (targetNodeId c) nodeId))
                  (connections state)).
    lia.
Qed.

Lemma occupiedInput_single : singleInput occupiedInput.
Proof.
  intros connection. unfold terminatingAt. simpl.
  destruct (sameTarget connection _); simpl; lia.
Qed.

Lemma singleInput_preserved_witness :
  singleInput (addConnection "c2" (wireArg "B" "output-0" "T" "input-0") occupiedInput)
  /\ singleInput (removeNode "A" occupiedInput).
Proof.
  destruct (singleInput_preserved occupiedInput occupiedInput_single) as [H1 [_ H3]].
  split; [apply H1 | apply H3].
Defined.

(** The node update of [removeConnection]. *)
Definition unflagEndpoints (connectionId : string) (connection : Connection)
    (all : list Connection) (node : NodeInstance) : NodeInstance :=
  let viaSource :=
    if String.eqb (nid node) (sourceNodeId connection) then
      let hasOtherConnections :=
        existsb (fun c => negb (String.eqb (cid c) connectionId)
                          && String.eqb (sourceNodeId c) (nid node)
                          && String.eqb (sourcePortId c) (sourcePortId connection))
                all in
      if negb hasOtherConnections then
        Some (withOutputs node
                (List.map (fun p => if String.eqb (pid p) (sourcePortId connection)
                                    then setConnected false p else p)
                          (outputs node)))
      else None
    else None in
  match viaSource with
  | Some node' => node'
  | None =>
      if String.eqb (nid node) (targetNodeId connection) then
        withInputs node
          (List.map (fun p => if String.eqb (pid p) (targetPortId connection)
                              then setConnected false p else p)
                    (inputs node))
      else node
  end.

(** Another connection leaves the source port of [connection]. *)
Definition hasOtherConnections (connectionId : string) (connection : Connection)
    (state : WorkflowStore) : bool :=
  existsb (fun c => negb (String.eqb (cid c) connectionId)
                    && String.eqb (sourceNodeId c) (sourceNodeId connection)
                    && String.eqb (sourcePortId c) (sourcePortId connection))
          (connections state).

Lemma unflagEndpoints_id (connectionId : string) (connection : Connection)
    (all : list Connection) (node : NodeInstance) :
  nid (unflagEndpoints connectionId connection all node) = nid node.
Proof.
  unfold unflagEndpoints.
  destruct (String.eqb (nid node) (sourceNodeId connection)).
  - destruct (negb _); [reflexivity|].
    destruct (String.eqb (nid node) (targetNodeId connection)); reflexivity.
  - destruct (String.eqb (nid node) (targetNodeId connection)); reflexivity.
Qed.

Lemma removeConnection_found (connectionId : string) (connection : Connection)
    (state : WorkflowStore) :
  find (fun c => String.eqb (cid c) connectionId) (connections state) = Some connection ->
  removeConnection connectionId state
  = {| nodes := List.map (unflagEndpoints connectionId connection (connections state))
                         (nodes state);
       connections :=
         filter (fun c => negb (String.eqb (cid c) connectionId)) (connections state);
       selectedNodeIds := selectedNodeIds state |}.
Proof.
  intros H. unfold removeConnection. rewrite H. reflexivity.
Qed.

Lemma unflagEndpoints_at_source (connectionId : string) (connection : Connection)
    (state : WorkflowStore) (n : NodeInstance) :
  nid n = sourceNodeId connection ->
  unflagEndpoints connectionId connection (connections state) n
  = if hasOtherConnections connectionId connection state
    then (if String.eqb (sourceNodeId connection) (targetNodeId connection)
          then withInputs n
                 (List.map (fun p => if String.eqb (pid p) (targetPortId connection)
                                     then setConnected false p else p) (inputs n))
          else n)
    else withOutputs n
           (List.map (fun p => if String.eqb (pid p) (sourcePortId connection)
                               then setConnected false p else p) (outputs n)).
Proof.
  intros E. unfold unflagEndpoints, hasOtherConnections.
  rewrite E, String.eqb_refl.
  destruct (existsb _ (connections state)); reflexivity.
Qed.

(** X3: [removeConnection] of a stored connection removes it from the list
    and recomputes the flags of its two ports: the target input is flagged
    as unconnected, and the source output is flagged as unconnected unless
    another connection still leaves it.  For a connection from a node to
    itself whose output has no other connection the input flag is left as
    it was. *)
Theorem removeConnection_flags (connectionId : string) (connection : Connection)
    (state : WorkflowStore) :
  find (fun c => String.eqb (cid c) connectionId) (connections state) = Some connection ->
  connections (removeConnection connectionId state)
  = filter (fun c => negb (String.eqb (cid c) connectionId)) (connections state)
  /\ outputPort (sourceNodeId connection) (sourcePortId connection)
                (removeConnection connectionId state)
     = (if hasOtherConnections connectionId connection state
        then outputPort (sourceNodeId connection) (sourcePortId connection) state
        else option_map (setConnected false)
               (outputPort (sourceNodeId connection) (sourcePortId connection) state))
  /\ inputPort (targetNodeId connection) (targetPortId connection)
               (removeConnection connectionId state)
     = (if String.eqb (sourceNodeId connection) (targetNodeId connection)
           && negb (hasOtherConnections connectionId connection state)
        then inputPort (targetNodeId connection) (targetPortId connection) state
        else option_map (setConnected false)
               (inputPort (targetNodeId connection) (targetPortId connection) state)).
Proof.
  intros H. rewrite (removeConnection_found connectionId connection state H).
  unfold outputPort, inputPort. cbn [nodes connections].
  rewrite !find_map_nodes by apply unflagEndpoints_id.
  split; [reflexivity|split].
  - destruct (find _ (nodes state)) as [n|] eqn:E; simpl.
    + apply find_first_id in E.
      rewrite (unflagEndpoints_at_source connectionId connection state n E).
      destruct (hasOtherConnections connectionId connection state).
      * destruct (String.eqb (sourceNodeId connection) (targetNodeId connection));
          reflexivity.
      * simpl. apply find_flagged_port.
    + destruct (hasOtherConnections connectionId connection state); reflexivity.
  - destruct (find _ (nodes state)) as [n|] eqn:E; simpl.
    + apply find_first_id in E.
      destruct (String.eqb (sourceNodeId connection) (targetNodeId connection)) eqn:Est.
      * apply String.eqb_eq in Est.
        rewrite (unflagEndpoints_at_source connectionId connection state n)
          by congruence.
        rewrite Est, String.eqb_refl.
        destruct (hasOtherConnections connectionId connection state); simpl;
          [apply find_flagged_port | reflexivity].
      * simpl. unfold unflagEndpoints.
        rewrite E, (String.eqb_sym (targetNodeId connection)), Est, String.eqb_refl.
        simpl. apply find_flagged_port.
    + destruct (_ && _); reflexivity.
Qed.

Lemma removeConnection_flags_witness :
  connections (removeConnection "c1" occupiedInput) = []
  /\ outputPort "A" "output-0" (removeConnection "c1" occupiedInput)
     = Some (plainPort "output-0" output false)
  /\ inputPort "T" "input-0" (removeConnection "c1" occupiedInput)
     = Some (plainPort "input-0" input false).
Proof.
  exact (removeConnection_flags "c1" (wire "c1" "A" "output-0" "T" "input-0")
           occupiedInput eq_refl).
Defined.

Lemma setConnected_same (b : bool) (p : Port) :
  connected p = Some b -> setConnected b p = p.
Proof. destruct p; simpl; intros ->; reflexivity. Qed.

Lemma setConnected_twice (b b' : bool) (p : Port) :
  setConnected b (setConnected b' p) = setConnected b p.
Proof. reflexivity. Qed.

Lemma map_fixed {A : Type} (f : A -> A) (l : list A) :
  (forall x, In x l -> f x = x) -> List.map f l = l.
Proof.
  intros H. rewrite <- (map_id l) at 2. apply map_ext_in. exact H.
Qed.

(** Flagging and unflagging a port list whose port [portId] is flagged
    [false] gives the list back. *)
Lemma unflag_flag_ports (portId : string) (ports : list Port) :
  (forall p, In p ports -> pid p = portId -> connected p = Some false) ->
  List.map (fun p => if String.eqb (pid p) portId then setConnected false p else p)
    (List.map (fun p => if String.eqb (pid p) portId then setConnected true p else p) ports)
  = ports.
Proof.
  intros H. rewrite map_map. apply map_fixed. intros p Hp.
  destruct (String.eqb (pid p) portId) eqn:E; simpl; rewrite E; [|reflexivity].
  rewrite setConnected_twice. apply setConnected_same.
  apply H; [exact Hp | apply String.eqb_eq; exact E].
Qed.

Lemma flag_ports_fixed (b : bool) (portId : string) (ports : list Port) :
  (forall p, In p ports -> pid p = portId -> connected p = Some b) ->
  List.map (fun p => if String.eqb (pid p) portId then setConnected b p else p) ports
  = ports.
Proof.
  intros H. apply map_fixed. intros p Hp.
  destruct (String.eqb (pid p) portId) eqn:E; [|reflexivity].
  apply setConnected_same. apply H; [exact Hp | apply String.eqb_eq; exact E].
Qed.

Lemma find_app_last {A : Type} (p : A -> bool) (l : list A) (x : A) :
  (forall y, In y l -> p y = false) -> p x = true -> find p (l ++ [x]) = Some x.
Proof.
  intros H Hx. induction l as [|y l IH]; simpl.
  - rewrite Hx. reflexivity.
  - rewrite (H y (or_introl eq_refl)). apply IH. intros z Hz. apply H. right. exact Hz.
Qed.

Lemma existsb_ext_in {A : Type} (p q : A -> bool) (l : list A) :
  (forall x, In x l -> p x = q x) -> existsb p l = existsb q l.
Proof.
  intros H. induction l as [|x l IH]; simpl; [reflexivity|].
  rewrite (H x (or_introl eq_refl)). f_equal. apply IH.
  intros y Hy. apply H. right. exact Hy.
Qed.

(** An output port is in use: some connection leaves it. *)
Definition outputInUse (nodeId portId : string) (state : WorkflowStore) : bool :=
  existsb (fun c => String.eqb (sourceNodeId c) nodeId
                    && String.eqb (sourcePortId c) portId) (connections state).

(** X4: adding a connection under a fresh id to a free input and removing
    it again gives the store back, nodes and flags included, when the
    flags of the two ports were accurate before: the input flagged as
    unconnected and the output flagged according to whether a connection
    leaves it. *)
Theorem removeConnection_addConnection (newId : string) (connection : ConnectionArg)
    (state : WorkflowStore) :
  (forall c, In c (connections state) -> cid c <> newId) ->
  terminatingAt connection state = [] ->
  (forall n p, In n (nodes state) -> nid n = argSourceNodeId connection ->
     In p (outputs n) -> pid p = argSourcePortId connection ->
     connected p = Some (outputInUse (argSourceNodeId connection)
                                     (argSourcePortId connection) state)) ->
  (forall n p, In n (nodes state) -> nid n = argTargetNodeId connection ->
     In p (inputs n) -> pid p = argTargetPortId connection ->
     connected p = Some false) ->
  removeConnection newId (addConnection newId connection state) = state.
Proof.
  intros Hfresh Hfree Hout Hin.
  assert (Hnone : forall c, In c (connections state) -> sameTarget connection c = false).
  { intros c Hc. destruct (sameTarget connection c) eqn:E; [|reflexivity].
    assert (Hc' : In c (terminatingAt connection state))
      by (apply filter_In; split; assumption).
    rewrite Hfree in Hc'. destruct Hc'. }
  assert (Hdup : existsb (sameEndpoints connection) (connections state) = false).
  { apply not_true_is_false. intros E. apply existsb_exists in E.
    destruct E as [c [Hc E]]. apply sameEndpoints_true in E.
    assert (sameTarget connection c = true) by (apply sameTarget_true; tauto).
    rewrite (Hnone c Hc) in *. discriminate. }
  assert (Hconns : connections (addConnection newId connection state)
                   = connections state ++ [mkConnection newId connection]).
  { rewrite (addConnection_fresh newId connection state Hdup). f_equal.
    apply filter_all. intros c Hc. rewrite (Hnone c Hc). reflexivity. }
  assert (Hsel : selectedNodeIds (addConnection newId connection state)
                 = selectedNodeIds state).
  { unfold addConnection. rewrite Hdup. reflexivity. }
  assert (Hfind : find (fun c => String.eqb (cid c) newId)
                       (connections (addConnection newId connection state))
                  = Some (mkConnection newId connection)).
  { rewrite Hconns. apply find_app_last.
    - intros c Hc. apply String.eqb_neq. apply Hfresh. exact Hc.
    - simpl. apply String.eqb_refl. }
  rewrite (removeConnection_found newId _ _ Hfind).
  rewrite Hsel, Hconns, (addConnection_nodes newId connection state Hdup).
  assert (Hother : forall state',
             connections state' = connections state ++ [mkConnection newId connection] ->
             hasOtherConnections newId (mkConnection newId connection) state'
             = outputInUse (argSourceNodeId connection)
                           (argSourcePortId connection) state).
  { intros state' E'. unfold hasOtherConnections, outputInUse.
    rewrite E', existsb_app. simpl.
    rewrite String.eqb_refl. simpl. rewrite orb_false_r.
    apply existsb_ext_in. intros c Hc.
    assert (E : String.eqb (cid c) newId = false)
      by (apply String.eqb_neq; apply Hfresh; exact Hc).
    rewrite E. reflexivity. }
  destruct state as [ns cs sel]. cbn [nodes connections selectedNodeIds] in *.
  f_equal.
  - rewrite map_map. apply map_fixed. intros n Hn.
    destruct (String.eqb (nid n) (argSourceNodeId connection)) eqn:Es.
    + apply String.eqb_eq in Es.
      pose proof (Hout n) as Hp.
      assert (Ef : flagEndpoints connection n
                   = withOutputs n
                       (List.map (fun p => if String.eqb (pid p) (argSourcePortId connection)
                                           then setConnected true p else p) (outputs n))).
      { unfold flagEndpoints. rewrite Es, String.eqb_refl. reflexivity. }
      rewrite Ef.
      rewrite (unflagEndpoints_at_source newId (mkConnection newId connection)
                 {| nodes := ns; connections := cs ++ [mkConnection newId connection];
                    selectedNodeIds := sel |}) by exact Es.
      rewrite (Hother {| nodes := ns;
                         connections := cs ++ [mkConnection newId connection];
                         selectedNodeIds := sel |} eq_refl).
      destruct (outputInUse _ _ _) eqn:Eu.
      * cbn [sourceNodeId targetNodeId targetPortId mkConnection].
        assert (Eo : List.map (fun p => if String.eqb (pid p) (argSourcePortId connection)
                                        then setConnected true p else p) (outputs n)
                     = outputs n).
        { apply flag_ports_fixed. intros p Hp1 Hp2. apply Hp; assumption. }
        rewrite Eo.
        destruct (String.eqb (argSourceNodeId connection) (argTargetNodeId connection))
          eqn:Est.
        -- apply String.eqb_eq in Est. cbn [withOutputs withInputs inputs outputs].
           rewrite (flag_ports_fixed false).
           ++ destruct n; reflexivity.
           ++ intros p Hp1 Hp2. apply (Hin n); try assumption. congruence.
        -- destruct n; reflexivity.
      * cbn [sourcePortId mkConnection withOutputs outputs].
        rewrite unflag_flag_ports.
        -- destruct n; reflexivity.
        -- intros p Hp1 Hp2. apply Hp; assumption.
    + assert (Ef : flagEndpoints connection n
                   = if String.eqb (nid n) (argTargetNodeId connection)
                     then withInputs n
                            (List.map (fun p => if String.eqb (pid p) (argTargetPortId connection)
                                                then setConnected true p else p) (inputs n))
                     else n).
      { unfold flagEndpoints. rewrite Es. reflexivity. }
      rewrite Ef. unfold unflagEndpoints.
      destruct (String.eqb (nid n) (argTargetNodeId connection)) eqn:Et;
        cbn [nid withInputs sourceNodeId targetNodeId targetPortId mkConnection
             inputs outputs]; rewrite Es, Et.
      * rewrite unflag_flag_ports.
        -- destruct n; reflexivity.
        -- intros p Hp1 Hp2. apply (Hin n); try assumption.
           apply String.eqb_eq. exact Et.
      * reflexivity.
  - rewrite filter_app. simpl. rewrite String.eqb_refl. simpl. rewrite app_nil_r.
    apply filter_all. intros c Hc. apply negb_true_iff. apply String.eqb_neq.
    apply Hfresh. exact Hc.
Qed.

(** [A] feeds [T]; the input of [U] is free. *)
Definition freeInput : WorkflowStore :=
  {| nodes := [ plainNode "A" [] [plainPort "output-0" output true];
                plainNode "T" [plainPort "input-0" input true] [];
                plainNode "U" [plainPort "input-0" input false] [] ];
     connections := [ wire "c1" "A" "output-0" "T" "input-0" ];
     selectedNodeIds := [] |}.

Lemma removeConnection_addConnection_witness :
  removeConnection "c2"
    (addConnection "c2" (wireArg "A" "output-0" "U" "input-0") freeInput)
  = freeInput.
Proof.
  apply (removeConnection_addConnection "c2" (wireArg "A" "output-0" "U" "input-0")
           freeInput).
  - intros c [<-|[]]. discriminate.
  - reflexivity.
  - intros n p [<-|[<-|[<-|[]]]]; simpl; try discriminate;
      intros _ [<-|[]] _; reflexivity.
  - intros n p [<-|[<-|[<-|[]]]]; simpl; try discriminate;
      intros _ [<-|[]] _; reflexivity.
Defined.

(** Every connection of the store joins two nodes of the store. *)
Definition attached (state : WorkflowStore) : Prop :=
  forall c, In c (connections state) ->
    In (sourceNodeId c) (List.map nid (nodes state))
    /\ In (targetNodeId c) (List.map nid (nodes state)).

Lemma addConnection_ids (newId : string) (connection : ConnectionArg)
    (state : WorkflowStore) :
  List.map nid (nodes (addConnection newId connection state))
  = List.map nid (nodes state).
Proof.
  destruct (existsb (sameEndpoints connection) (connections state)) eqn:E.
  - unfold addConnection. rewrite E. reflexivity.
  - rewrite (addConnection_nodes newId connection state E), map_map.
    apply map_ext. intros n. apply flagEndpoints_id.
Qed.

Lemma removeConnection_ids (connectionId : string) (state : WorkflowStore) :
  List.map nid (nodes (removeConnection connectionId state))
  = List.map nid (nodes state).
Proof.
  destruct (find (fun c => String.eqb (cid c) connectionId) (connections state))
    as [c|] eqn:E.
  - rewrite (removeConnection_found connectionId c state E). cbn [nodes].
    rewrite map_map. apply map_ext. intros n. apply unflagEndpoints_id.
  - unfold removeConnection. rewrite E. reflexivity.
Qed.

Lemma removeConnection_subset (connectionId : string) (state : WorkflowStore)
    (c : Connection) :
  In c (connections (removeConnection connectionId state)) ->
  In c (connections state).
Proof.
  unfold removeConnection.
  destruct (find _ (connections state)); [|trivial].
  cbn [connections]. intros H. apply filter_In in H. tauto.
Qed.

Lemma removeNode_ids (nodeId x : string) (l : list NodeInstance) :
  In x (List.map nid l) -> x <> nodeId ->
  In x (List.map nid (filter (fun n => negb (String.eqb (nid n) nodeId)) l)).
Proof.
  intros H Hx. apply in_map_iff in H. destruct H as [n [En Hn]].
  apply in_map_iff. exists n. split; [exact En|].
  apply filter_In. split; [exact Hn|].
  apply negb_true_iff, String.eqb_neq. congruence.
Qed.

Lemma updateNodeData_ids (nodeId : string) (patch : JsMap JsValue)
    (state : WorkflowStore) :
  List.map nid (nodes (updateNodeData nodeId patch state)) = List.map nid (nodes state).
Proof.
  unfold updateNodeData. cbn [nodes]. rewrite map_map. apply map_ext.
  intros n. destruct (String.eqb (nid n) nodeId); reflexivity.
Qed.

Lemma updateNodePosition_ids (nodeId : string) (p : Z * Z) (state : WorkflowStore) :
  List.map nid (nodes (updateNodePosition nodeId p state)) = List.map nid (nodes state).
Proof.
  unfold updateNodePosition. cbn [nodes]. rewrite map_map. apply map_ext.
  intros n. destruct (String.eqb (nid n) nodeId); reflexivity.
Qed.

(** X5: the operations of the store keep every connection attached to two
    nodes of the store: [removeNode] (which drops the connections of the
    node), [removeConnection], [addNode], [updateNodeData],
    [updateNodePosition], and [addConnection] when the two node ids it is
    given are ids of the store. *)
Theorem attached_preserved (state : WorkflowStore) :
  attached state ->
  (forall nodeId, attached (removeNode nodeId state))
  /\ (forall connectionId, attached (removeConnection connectionId state))
  /\ (forall getNodeDefinition newId type p,
        attached (addNode getNodeDefinition newId type p state))
  /\ (forall nodeId patch, attached (updateNodeData nodeId patch state))
  /\ (forall nodeId p, attached (updateNodePosition nodeId p state))
  /\ (forall newId connection,
        In (argSourceNodeId connection) (List.map nid (nodes state)) ->
        In (argTargetNodeId connection) (List.map nid (nodes state)) ->
        attached (addConnection newId connection state)).
Proof.
  intros Ha. repeat split.
  - apply filter_In in H. destruct H as [Hc H].
    apply andb_true_iff in H. destruct H as [H _].
    apply removeNode_ids; [apply Ha; exact Hc|].
    apply String.eqb_neq, negb_true_iff. exact H.
  - apply filter_In in H. destruct H as [Hc H].
    apply andb_true_iff in H. destruct H as [_ H].
    apply removeNode_ids; [apply Ha; exact Hc|].
    apply String.eqb_neq, negb_true_iff. exact H.
  - rewrite removeConnection_ids. apply Ha.
    apply (removeConnection_subset connectionId). exact H.
  - rewrite removeConnection_ids. apply Ha.
    apply (removeConnection_subset connectionId). exact H.
  - unfold addNode in *. destruct (getNodeDefinition type); [|apply Ha; exact H].
    cbn [nodes connections] in *. rewrite map_app. apply in_or_app. left.
    apply Ha. exact H.
  - unfold addNode in *. destruct (getNodeDefinition type); [|apply Ha; exact H].
    cbn [nodes connections] in *. rewrite map_app. apply in_or_app. left.
    apply Ha. exact H.
  - rewrite updateNodeData_ids. apply Ha. exact H.
  - rewrite updateNodeData_ids. apply Ha. exact H.
  - rewrite updateNodePosition_ids. apply Ha. exact H.
  - rewrite updateNodePosition_ids. apply Ha. exact H.
  - rewrite addConnection_ids.
    destruct (existsb (sameEndpoints connection) (connections state)) eqn:E.
    + unfold addConnection in H1. rewrite E in H1. apply Ha. exact H1.
    + rewrite (addConnection_fresh newId connection state E) in H1.
      apply in_app_or in H1. destruct H1 as [H1|[<-|[]]].
      * apply filter_In in H1. apply Ha. tauto.
      * exact H.
  - rewrite addConnection_ids.
    destruct (existsb (sameEndpoints connection) (connections state)) eqn:E.
    + unfold addConnection in H1. rewrite E in H1. apply Ha. exact H1.
    + rewrite (addConnection_fresh newId connection state E) in H1.
      apply in_app_or in H1. destruct H1 as [H1|[<-|[]]].
      * apply filter_In in H1. apply Ha. tauto.
      * exact H0.
Qed.

Lemma freeInput_attached : attached freeInput.
Proof.
  intros c [<-|[]]. simpl. split; tauto.
Qed.

Lemma attached_preserved_witness :
  attached (removeNode "A" freeInput)
  /\ attached (addConnection "c2" (wireArg "A" "output-0" "U" "input-0") freeInput).
Proof.
  destruct (attached_preserved freeInput freeInput_attached) as [H1 [_ [_ [_ [_ H6]]]]].
  split; [apply H1 | apply H6; simpl; tauto].
Defined.

Lemma map_get_app {V : Type} (k : string) (a b : JsMap V) :
  map_get k (a ++ b)
  = match map_get k a with Some v => Some v | None => map_get k b end.
Proof.
  induction a as [|[k0 v0] a IH]; simpl; [reflexivity|].
  destruct (String.eqb k0 k); [reflexivity | exact IH].
Qed.

Lemma map_get_In {V : Type} (k : string) (v : V) (m : JsMap V) :
  map_get k m = Some v -> In k (map_keys m).
Proof.
  induction m as [|[k0 v0] m IH]; simpl; [discriminate|].
  destruct (String.eqb_spec k0 k) as [E|E]; [left; exact E | right; auto].
Qed.

Lemma map_get_rev {V : Type} (k : string) (m : JsMap V) :
  NoDup (map_keys m) -> map_get k (rev m) = map_get k m.
Proof.
  induction m as [|[k0 v0] m IH]; intros H; [reflexivity|].
  inversion H as [|x l Hx Hl]; subst. simpl.
  rewrite map_get_app, (IH Hl). simpl.
  destruct (map_get k m) as [v|] eqn:E; [|reflexivity].
  apply map_get_In in E.
  destruct (String.eqb_spec k0 k) as [E0|E0]; [|reflexivity].
  subst k0. contradiction.
Qed.

(** The lookup in [Object.assign(target, source)]: the last entry of the
    source for the key, and the entry of the target when the source has
    none. *)
Lemma objectAssign_get {V : Type} (k : string) (target source : JsMap V) :
  map_get k (objectAssign target source)
  = match map_get k (rev source) with
    | Some v => Some v
    | None => map_get k target
    end.
Proof.
  unfold objectAssign. revert target.
  induction source as [|[k0 v0] s IH]; intros target; simpl; [reflexivity|].
  rewrite IH, map_get_app, map_get_set. simpl.
  destruct (map_get k (rev s)); [reflexivity|].
  destruct (String.eqb k0 k); reflexivity.
Qed.

Lemma objectAssign_NoDup {V : Type} (target source : JsMap V) :
  NoDup (map_keys target) -> NoDup (map_keys (objectAssign target source)).
Proof.
  unfold objectAssign. revert target.
  induction source as [|[k0 v0] s IH]; intros target H; simpl; [exact H|].
  apply IH. apply map_keys_set_NoDup. exact H.
Qed.

(** The node update of [updateNodeData]. *)
Definition patchData (nodeId : string) (patch : JsMap JsValue) (n : NodeInstance)
    : NodeInstance :=
  if String.eqb (nid n) nodeId
  then {| nid := nid n; ntype := ntype n; position := position n;
          data := objectAssign (objectAssign [] (data n)) patch;
          inputs := inputs n; outputs := outputs n; size := size n |}
  else n.

(** X6: [updateNodeData] is a shallow merge on the nodes with the given id:
    a key of the patch reads as in the patch, every other key reads as
    before, and the merged object holds each key once.  The kind, the ports
    and the position of the node, every node with another id and the
    connections are untouched. *)
Theorem updateNodeData_merge (nodeId : string) (patch : JsMap JsValue)
    (state : WorkflowStore) (i : nat) (n : NodeInstance) :
  NoDup (map_keys patch) ->
  NoDup (map_keys (data n)) ->
  nth_error (nodes state) i = Some n ->
  exists n',
    nth_error (nodes (updateNodeData nodeId patch state)) i = Some n'
    /\ nid n' = nid n /\ ntype n' = ntype n /\ position n' = position n
    /\ inputs n' = inputs n /\ outputs n' = outputs n
    /\ (nid n = nodeId ->
        NoDup (map_keys (data n'))
        /\ forall k, map_get k (data n')
                     = match map_get k patch with
                       | Some v => Some v
                       | None => map_get k (data n)
                       end)
    /\ (nid n <> nodeId -> n' = n)
    /\ connections (updateNodeData nodeId patch state) = connections state.
Proof.
  intros Hp Hd Hn. exists (patchData nodeId patch n).
  split.
  { unfold updateNodeData. cbn [nodes].
    change (nth_error (List.map (patchData nodeId patch) (nodes state)) i
            = Some (patchData nodeId patch n)).
    rewrite nth_error_map, Hn. reflexivity. }
  unfold patchData.
  destruct (String.eqb_spec (nid n) nodeId) as [E|E]; cbn [nid ntype position inputs outputs data];
    repeat split; try reflexivity; try contradiction.
  - apply objectAssign_NoDup, objectAssign_NoDup. constructor.
  - intros k. rewrite !objectAssign_get, (map_get_rev k patch Hp),
      (map_get_rev k (data n) Hd).
    destruct (map_get k patch); [reflexivity|].
    destruct (map_get k (data n)); reflexivity.
Qed.

Definition promptNode : NodeInstance :=
  {| nid := "n1"; ntype := "text-input"; position := (0, 0)%Z;
     data := [("text", JStr "a cat"); ("seed", JNum 7%Z)];
     inputs := []; outputs := []; size := None |}.

Lemma updateNodeData_merge_witness :
  exists n',
    nth_error (nodes (updateNodeData "n1" [("text", JStr "a dog")]
                        {| nodes := [promptNode]; connections := [];
                           selectedNodeIds := [] |})) 0 = Some n'
    /\ map_get "text" (data n') = Some (JStr "a dog")
    /\ map_get "seed" (data n') = Some (JNum 7%Z).
Proof.
  destruct (updateNodeData_merge "n1" [("text", JStr "a dog")]
              {| nodes := [promptNode]; connections := []; selectedNodeIds := [] |}
              0 promptNode)
    as [n' [H1 [_ [_ [_ [_ [_ [H2 _]]]]]]]].
  - repeat constructor; simpl; tauto.
  - repeat constructor; simpl; intuition discriminate.
  - reflexivity.
  - exists n'. split; [exact H1|].
    destruct (H2 eq_refl) as [_ H3].
    split; [exact (H3 "text") | exact (H3 "seed")].
Defined.

(** X7: [selectNode] with [multi] toggles the membership of the node in the
    selection and keeps every other id as it was; a selection that holds no
    id twice stays so.  Without [multi] the selection becomes the node
    alone.  Nodes and connections are untouched. *)
Theorem selectNode_toggle (nodeId : string) (state : WorkflowStore) :
  NoDup (selectedNodeIds state) ->
  NoDup (selectedNodeIds (selectNode nodeId true state))
  /\ (In nodeId (selectedNodeIds (selectNode nodeId true state))
      <-> ~ In nodeId (selectedNodeIds state))
  /\ (forall x, x <> nodeId ->
        (In x (selectedNodeIds (selectNode nodeId true state))
         <-> In x (selectedNodeIds state)))
  /\ selectedNodeIds (selectNode nodeId false state) = [nodeId]
  /\ (forall multi, nodes (selectNode nodeId multi state) = nodes state
                    /\ connections (selectNode nodeId multi state) = connections state).
Proof.
  intros Hnd. unfold selectNode. cbn [selectedNodeIds nodes connections].
  destruct (includes (selectedNodeIds state) nodeId) eqn:E.
  - apply includes_In in E.
    split; [apply NoDup_filter; exact Hnd|].
    split; [split|].
    + intros Hx. apply filter_In in Hx. destruct Hx as [_ Hx].
      rewrite String.eqb_refl in Hx. discriminate.
    + intros Hx. contradiction.
    + split; [|split; [reflexivity | intros multi; split; reflexivity]].
      intros x Hne. split.
      * intros Hx. apply filter_In in Hx. tauto.
      * intros Hx. apply filter_In. split; [exact Hx|].
        apply negb_true_iff, String.eqb_neq. exact Hne.
  - apply includes_not_In in E.
    split.
    { apply NoDup_app; [exact Hnd | repeat constructor; simpl; tauto |].
      intros x Hx [<-|[]]. contradiction. }
    split; [split|].
    + intros _. exact E.
    + intros _. apply in_or_app. right. left. reflexivity.
    + split; [|split; [reflexivity | intros multi; split; reflexivity]].
      intros x Hne. split.
      * intros Hx. apply in_app_or in Hx. destruct Hx as [Hx|[Hx|[]]]; [exact Hx|].
        congruence.
      * intros Hx. apply in_or_app. left. exact Hx.
Qed.

Lemma selectNode_toggle_witness :
  selectedNodeIds (selectNode "A" false occupiedInput) = ["A"]
  /\ (In "B" (selectedNodeIds (selectNode "B" true (selectNode "A" false occupiedInput)))
      <-> ~ In "B" (selectedNodeIds (selectNode "A" false occupiedInput))).
Proof.
  destruct (selectNode_toggle "A" occupiedInput) as [_ [_ [_ [H _]]]];
    [constructor|].
  destruct (selectNode_toggle "B" (selectNode "A" false occupiedInput))
    as [_ [H2 _]].
  - repeat constructor. simpl. tauto.
  - split; [exact H | exact H2].
Defined.

(** X8: [setNodeExecutionState] keeps one entry per node: the entry of the
    node is the state just set, the entry of every other node is as
    before, and a list that names no node twice stays so. *)
Theorem setNodeExecutionState_latest (state : NodeExecutionState)
    (executionStates : list NodeExecutionState) :
  NoDup (List.map stateNodeId executionStates) ->
  NoDup (List.map stateNodeId (setNodeExecutionState state executionStates))
  /\ find (fun e => String.eqb (stateNodeId e) (stateNodeId state))
          (setNodeExecutionState state executionStates) = Some state
  /\ forall nodeId, nodeId <> stateNodeId state ->
       find (fun e => String.eqb (stateNodeId e) nodeId)
            (setNodeExecutionState state executionStates)
       = find (fun e => String.eqb (stateNodeId e) nodeId) executionStates.
Proof.
  intros Hnd. unfold setNodeExecutionState. split; [|split].
  - rewrite map_app. apply NoDup_app.
    + clear -Hnd. induction executionStates as [|e l IH]; simpl; [constructor|].
      inversion Hnd as [|x l' Hx Hl]; subst.
      destruct (negb _); simpl; [|apply IH; exact Hl].
      constructor; [|apply IH; exact Hl].
      intros H. apply Hx. apply in_map_iff in H. destruct H as [y [Ey Hy]].
      apply filter_In in Hy. apply in_map_iff. exists y. tauto.
    + repeat constructor. simpl. tauto.
    + intros x Hx [<-|[]]. apply in_map_iff in Hx. destruct Hx as [y [Ey Hy]].
      apply filter_In in Hy. destruct Hy as [_ Hy].
      rewrite Ey, String.eqb_refl in Hy. discriminate.
  - apply find_app_last; [|apply String.eqb_refl].
    intros y Hy. apply filter_In in Hy. destruct Hy as [_ Hy].
    apply negb_true_iff. exact Hy.
  - intros nodeId Hne. clear Hnd.
    induction executionStates as [|e l IH]; simpl.
    + destruct (String.eqb_spec (stateNodeId state) nodeId); congruence.
    + destruct (String.eqb_spec (stateNodeId e) (stateNodeId state)) as [E|E]; simpl.
      * destruct (String.eqb_spec (stateNodeId e) nodeId); [congruence | exact IH].
      * destruct (String.eqb (stateNodeId e) nodeId); [reflexivity | exact IH].
Qed.

Definition runningAt (nodeId : string) (percent : Z) : NodeExecutionState :=
  {| stateNodeId := nodeId; status := running; progress := Some percent;
     stateError := None; stateMessage := None |}.

Lemma setNodeExecutionState_latest_witness :
  find (fun e => String.eqb (stateNodeId e) "A")
       (setNodeExecutionState (runningAt "A" 100) [runningAt "A" 10; runningAt "B" 10])
  = Some (runningAt "A" 100)
  /\ NoDup (List.map stateNodeId
              (setNodeExecutionState (runningAt "A" 100)
                 [runningAt "A" 10; runningAt "B" 10])).
Proof.
  destruct (setNodeExecutionState_latest (runningAt "A" 100)
              [runningAt "A" 10; runningAt "B" 10]) as [H1 [H2 _]].
  - repeat constructor; simpl; intuition discriminate.
  - split; [exact H2 | exact H1].
Defined.

Lemma nth_error_made_ports {A : Type} (f : nat * A -> Port) (l : list A) (k : nat) :
  nth_error (List.map f (indexed l)) k
  = option_map (fun x => f (k, x)) (nth_error l k).
Proof.
  unfold indexed. rewrite nth_error_map, indexedFrom_nth.
  destruct (nth_error l k); reflexivity.
Qed.

(** X9: [addNode] of a kind without definition changes nothing; of a kind
    with a definition it appends one node of that kind under the new id,
    with one port per port of the definition: the [k]-th input is the port
    found under the id [input-k], it has the name, the type and the widget
    of the definition and is flagged as unconnected, and likewise for the
    outputs and [output-k].  The connections are untouched. *)
Theorem addNode_instance (getNodeDefinition : string -> option NodeDefinition)
    (newId type : string) (p : Z * Z) (state : WorkflowStore) :
  match getNodeDefinition type with
  | None => addNode getNodeDefinition newId type p state = state
  | Some d =>
      exists n,
        nodes (addNode getNodeDefinition newId type p state) = nodes state ++ [n]
        /\ connections (addNode getNodeDefinition newId type p state)
           = connections state
        /\ nid n = newId /\ ntype n = dtype d /\ position n = p
        /\ List.length (inputs n) = List.length (dinputs d)
        /\ List.length (outputs n) = List.length (doutputs d)
        /\ (forall k spec, nth_error (dinputs d) k = Some spec ->
              findIndex (fun q => String.eqb (pid q) (inputId k)) (inputs n) = Some k
              /\ exists q, nth_error (inputs n) k = Some q
                   /\ pid q = inputId k /\ pname q = sname spec
                   /\ ptype q = stype spec /\ direction q = input
                   /\ connected q = Some false /\ widget q = swidget spec)
        /\ (forall k spec, nth_error (doutputs d) k = Some spec ->
              findIndex (fun q => String.eqb (pid q) (outputId k)) (outputs n) = Some k
              /\ exists q, nth_error (outputs n) k = Some q
                   /\ pid q = outputId k /\ pname q = sname spec
                   /\ ptype q = stype spec /\ direction q = output
                   /\ connected q = Some false)
  end.
Proof.
  unfold addNode. destruct (getNodeDefinition type) as [d|]; [|reflexivity].
  exists (createNodeInstance newId d p). cbn [nodes connections].
  split; [reflexivity|]. split; [reflexivity|].
  unfold createNodeInstance. cbn [nid ntype position inputs outputs].
  split; [reflexivity|]. split; [reflexivity|]. split; [reflexivity|].
  split; [rewrite length_map; apply indexedFrom_length|].
  split; [rewrite length_map; apply indexedFrom_length|].
  split.
  - intros k spec Hk. split.
    + apply (findIndex_made_ports inputId
               (fun i s => {| pid := inputId i; pname := sname s; ptype := stype s;
                              direction := input; connected := Some false;
                              isReferenceInput := sisReferenceInput s;
                              widget := swidget s |})
               (dinputs d) inputId_inj (fun _ _ => eq_refl) 0 k).
      apply nth_error_Some. congruence.
    + rewrite nth_error_made_ports, Hk. simpl. eexists. split; [reflexivity|].
      repeat split.
  - intros k spec Hk. split.
    + apply (findIndex_made_ports outputId
               (fun i s => {| pid := outputId i; pname := sname s; ptype := stype s;
                              direction := output; connected := Some false;
                              isReferenceInput := None; widget := None |})
               (doutputs d) outputId_inj (fun _ _ => eq_refl) 0 k).
      apply nth_error_Some. congruence.
    + rewrite nth_error_made_ports, Hk. simpl. eexists. split; [reflexivity|].
      repeat split.
Qed.

(** X10: a connection drawn with [startConnection] from a port and ended
    with [endConnection] on a port is the connection that [addConnection]
    stores for these four ids, and the drawing state is reset; ended away
    from a port, the store is untouched and the drawing state is reset. *)
Theorem endConnection_draws (newId s sp pt t tp : string) (state : WorkflowStore) :
  s <> "" -> sp <> "" -> t <> "" -> tp <> "" ->
  endConnection newId (Some t) (Some tp) (startConnection s sp pt, state)
  = (idleConnection, addConnection newId (wireArg s sp t tp) state)
  /\ (forall drawing target,
        endConnection newId target None (drawing, state) = (idleConnection, state)
        /\ endConnection newId None target (drawing, state) = (idleConnection, state))
  /\ (forall target port,
        endConnection newId target port (idleConnection, state)
        = (idleConnection, state)).
Proof.
  intros Hs Hsp Ht Htp. apply String.eqb_neq in Hs, Hsp, Ht, Htp.
  split; [|split].
  - unfold endConnection, startConnection, truthy, orElse, wireArg. simpl.
    rewrite Hs, Hsp, Ht, Htp. reflexivity.
  - intros drawing target. unfold endConnection. simpl.
    rewrite !andb_false_r. split; reflexivity.
  - intros target port. reflexivity.
Qed.

Lemma endConnection_draws_witness :
  endConnection "c2" (Some "U") (Some "input-0")
    (startConnection "A" "output-0" "any", freeInput)
  = (idleConnection, addConnection "c2" (wireArg "A" "output-0" "U" "input-0") freeInput).
Proof.
  apply (endConnection_draws "c2" "A" "output-0" "any" "U" "input-0" freeInput);
    discriminate.
Defined.

(** * Further properties of the scheduler *)

(** The node a callback is called for. *)
Definition eventNode (e : Event) : string :=
  match e with
  | OnProgress nodeId _ _ => nodeId
  | OnNodeComplete nodeId _ => nodeId
  | OnNodeError nodeId _ => nodeId
  end.

(** The node ids the completion callback was called with. *)
Definition completeCalls (events : list Event) : list string :=
  flat_map (fun e => match e with OnNodeComplete nodeId _ => [nodeId] | _ => [] end)
           events.

(** What the completion callback of [runAll] does to the stored outputs. *)
Definition storeOutput (m : JsMap (JsMap JsValue)) (e : Event)
    : JsMap (JsMap JsValue) :=
  match e with
  | OnNodeComplete nodeId outputs => map_set nodeId outputs m
  | _ => m
  end.

(** The last callback made for a node. *)
Fixpoint lastEvent (nodeId : string) (events : list Event) : option Event :=
  match events with
  | [] => None
  | e :: rest =>
      match lastEvent nodeId rest with
      | Some e' => Some e'
      | None => if String.eqb (eventNode e) nodeId then Some e else None
      end
  end.

Lemma lastEvent_app (nodeId : string) (a b : list Event) :
  lastEvent nodeId (a ++ b)
  = match lastEvent nodeId b with
    | Some e => Some e
    | None => lastEvent nodeId a
    end.
Proof.
  induction a as [|e a IH]; simpl.
  - destruct (lastEvent nodeId b); reflexivity.
  - rewrite IH. destruct (lastEvent nodeId b); reflexivity.
Qed.

Lemma lastEvent_none (nodeId : string) (l : list Event) :
  (forall e, In e l -> eventNode e <> nodeId) -> lastEvent nodeId l = None.
Proof.
  induction l as [|e l IH]; intros H; simpl; [reflexivity|].
  rewrite IH by (intros e' He'; apply H; right; exact He').
  destruct (String.eqb_spec (eventNode e) nodeId) as [E|E]; [|reflexivity].
  exfalso. apply (H e (or_introl eq_refl)). exact E.
Qed.

Lemma completeCalls_app (l1 l2 : list Event) :
  completeCalls (l1 ++ l2) = completeCalls l1 ++ completeCalls l2.
Proof.
  unfold completeCalls. apply flat_map_app.
Qed.

Lemma completeCalls_In (nodeId : string) (l : list Event) :
  In nodeId (completeCalls l) <-> exists o, In (OnNodeComplete nodeId o) l.
Proof.
  unfold completeCalls. rewrite in_flat_map. split.
  - intros [e [He H]]. destruct e; simpl in H; try contradiction.
    destruct H as [<-|[]]. eexists. exact He.
  - intros [o H]. eexists. split; [exact H | left; reflexivity].
Qed.

Lemma errorCalls_In (nodeId : string) (l : list Event) :
  In nodeId (errorCalls l) <-> exists m, In (OnNodeError nodeId m) l.
Proof.
  unfold errorCalls. rewrite in_flat_map. split.
  - intros [e [He H]]. destruct e; simpl in H; try contradiction.
    destruct H as [<-|[]]. eexists. exact He.
  - intros [o H]. eexists. split; [exact H | left; reflexivity].
Qed.

Lemma map_get_absent {V : Type} (k : string) (m : JsMap V) :
  ~ In k (map_keys m) -> map_get k m = None.
Proof.
  intros H. destruct (map_get k m) as [v|] eqn:E; [|reflexivity].
  exfalso. apply H. apply (map_get_In k v m E).
Qed.

Section RunOutcome.
Variable getNodeDefinition : string -> option NodeDefinition.
Variable capability : NodeInstance -> JsMap JsValue -> CapabilityResult.
Variable allNodes : list NodeInstance.
Variable allConnections : list Connection.

(** The callbacks that [executeNode] makes for a node: all for that node,
    none of them the completion callback, and no error callback when it
    returns. *)
Lemma executeNode_events (node : NodeInstance) (outputsSoFar : JsMap (JsMap JsValue)) :
  let r := executeNode getNodeDefinition capability node allConnections outputsSoFar in
  (forall e, In e (fst r) -> eventNode e = nid node)
  /\ completeCalls (fst r) = []
  /\ (forall m, fold_left storeOutput (fst r) m = m)
  /\ (forall o, snd r = inl o -> errorCalls (fst r) = []).
Proof.
  assert (Hp : forall reported,
             (forall e, In e (progressEvents (nid node) reported) -> eventNode e = nid node)
             /\ completeCalls (progressEvents (nid node) reported) = []
             /\ forall m, fold_left storeOutput (progressEvents (nid node) reported) m = m).
  { intros reported. induction reported as [|p ps [IH1 [IH2 IH3]]]; simpl.
    - repeat split. intros e [].
    - split; [|split; [exact IH2 | exact IH3]].
      intros e [<-|He]; [reflexivity | apply IH1; exact He]. }
  unfold executeNode. cbv zeta.
  destruct (getNodeDefinition (ntype node)); simpl.
  - destruct (capability node _) as [reported outputs|reported thrown]; simpl;
      destruct (Hp reported) as [H1 [H2 H3]].
    + split; [|split; [|split]].
      * intros e [<-|He]; [reflexivity|].
        apply in_app_or in He. destruct He as [He|[<-|[]]]; [apply H1; exact He|].
        reflexivity.
      * rewrite completeCalls_app, H2. reflexivity.
      * intros m. rewrite fold_left_app. simpl. apply H3.
      * intros o _. rewrite errorCalls_app, errorCalls_progress. reflexivity.
    + split; [|split; [|split]].
      * intros e [<-|He]; [reflexivity|].
        apply in_app_or in He. destruct He as [He|[<-|[]]]; [apply H1; exact He|].
        reflexivity.
      * rewrite completeCalls_app, H2. reflexivity.
      * intros m. rewrite fold_left_app. simpl. apply H3.
      * intros o E. discriminate E.
  - split; [|split; [|split]]; try reflexivity; try (intros e []).
Qed.

(** What holds of the state of a run after every node. *)
Record runInvariant (st : RunState) : Prop := {
  ri_keys : completeCalls (trace st) = map_keys (nodeOutputs st);
  ri_nodes : forall e, In e (trace st) -> In (eventNode e) (attempted st);
  ri_store : fold_left storeOutput (trace st) [] = nodeOutputs st;
  ri_values : forall nodeId o, In (OnNodeComplete nodeId o) (trace st) ->
                map_get nodeId (nodeOutputs st) = Some o;
  ri_last : forall nodeId, In nodeId (attempted st) ->
              match map_get nodeId (nodeOutputs st) with
              | Some o => lastEvent nodeId (trace st) = Some (OnNodeComplete nodeId o)
                          /\ ~ In nodeId (errorCalls (trace st))
              | None => exists message,
                          lastEvent nodeId (trace st) = Some (OnNodeError nodeId message)
                          /\ In nodeId (errorCalls (trace st))
              end
}.
End RunOutcome.

Lemma lastEvent_other (nodeId : string) (l seg : list Event) :
  (forall e, In e seg -> eventNode e <> nodeId) ->
  lastEvent nodeId (l ++ seg) = lastEvent nodeId l.
Proof.
  intros H. rewrite lastEvent_app, (lastEvent_none nodeId seg H). reflexivity.
Qed.

Lemma errorCalls_other (nodeId : string) (l seg : list Event) :
  (forall e, In e seg -> eventNode e <> nodeId) ->
  In nodeId (errorCalls (l ++ seg)) <-> In nodeId (errorCalls l).
Proof.
  intros H. rewrite errorCalls_app, in_app_iff. split; [|tauto].
  intros [Hl|Hs]; [exact Hl|].
  apply errorCalls_In in Hs. destruct Hs as [m Hm].
  exfalso. apply (H _ Hm). reflexivity.
Qed.

Lemma lastEvent_final (nodeId : string) (l : list Event) (e : Event) :
  eventNode e = nodeId -> lastEvent nodeId (l ++ [e]) = Some e.
Proof.
  intros E. rewrite lastEvent_app. simpl. rewrite E, String.eqb_refl. reflexivity.
Qed.

Lemma runInvariant_keys_attempted (st : RunState) (nodeId : string) :
  runInvariant st -> In nodeId (map_keys (nodeOutputs st)) -> In nodeId (attempted st).
Proof.
  intros [Hk Hn _ _ _] H. rewrite <- Hk in H.
  apply completeCalls_In in H. destruct H as [o Ho].
  exact (Hn _ Ho).
Qed.

Lemma runInvariant_errors_attempted (st : RunState) (nodeId : string) :
  runInvariant st -> In nodeId (errorCalls (trace st)) -> In nodeId (attempted st).
Proof.
  intros [_ Hn _ _ _] H.
  apply errorCalls_In in H. destruct H as [o Ho].
  exact (Hn _ Ho).
Qed.

(** The invariant is carried over the attempt of a node not attempted
    before. *)
Lemma runNode_invariant (getNodeDefinition : string -> option NodeDefinition)
    (capability : NodeInstance -> JsMap JsValue -> CapabilityResult)
    (allNodes : list NodeInstance) (allConnections : list Connection)
    (st : RunState) (nodeId : string) :
  runInvariant st -> ~ In nodeId (attempted st) ->
  runInvariant (runNode getNodeDefinition capability allNodes allConnections st nodeId).
Proof.
  intros Inv Hnew. unfold runNode.
  destruct (find (fun n => String.eqb (nid n) nodeId) allNodes) as [node|] eqn:F;
    [|exact Inv].
  apply find_first_id in F.
  destruct (executeNode_events getNodeDefinition capability allConnections node
              (nodeOutputs st)) as [Hs1 [Hs2 [Hs3 Hs4]]].
  rewrite F in Hs1.
  set (r := executeNode getNodeDefinition capability node allConnections (nodeOutputs st))
    in *.
  assert (Hfresh : ~ In nodeId (map_keys (nodeOutputs st))).
  { intros H. apply Hnew. apply runInvariant_keys_attempted; assumption. }
  assert (Herr : ~ In nodeId (errorCalls (trace st))).
  { intros H. apply Hnew. apply runInvariant_errors_attempted; assumption. }
  assert (Hold : forall final x, eventNode final = nodeId -> In x (attempted st) ->
            forall e, In e (fst r ++ [final]) -> eventNode e <> x).
  { intros final x Ef Hx e He Ee. apply Hnew.
    apply in_app_or in He. destruct He as [He|[<-|[]]].
    - rewrite <- (Hs1 e He), Ee. exact Hx.
    - rewrite <- Ef, Ee. exact Hx. }
  destruct Inv as [Hk Hn Hst Hv Hl].
  destruct (snd r) as [o|thrown] eqn:Er; constructor;
    cbn [nodeOutputs trace attempted].
  - rewrite !completeCalls_app, Hs2, Hk, map_keys_set. simpl.
    apply includes_not_In in Hfresh. rewrite Hfresh. reflexivity.
  - intros e He. apply in_or_app. apply in_app_or in He.
    destruct He as [He|He]; [left; apply Hn; exact He|].
    right. left. apply in_app_or in He. destruct He as [He|[<-|[]]].
    + symmetry. apply Hs1. exact He.
    + reflexivity.
  - rewrite !fold_left_app, Hs3, Hst. reflexivity.
  - intros x o' Hx. rewrite map_get_set. apply in_app_or in Hx.
    destruct Hx as [Hx|Hx].
    + destruct (String.eqb_spec nodeId x) as [E|E].
      * exfalso. apply Hnew. rewrite E. apply (Hn _ Hx).
      * apply Hv. exact Hx.
    + apply in_app_or in Hx. destruct Hx as [Hx|[Hx|[]]].
      * exfalso. assert (H : In x (completeCalls (fst r)))
          by (apply completeCalls_In; eexists; exact Hx).
        rewrite Hs2 in H. destruct H.
      * injection Hx as <- <-. rewrite String.eqb_refl. reflexivity.
  - intros x Hx. rewrite map_get_set.
    destruct (String.eqb_spec nodeId x) as [E|E].
    + subst x. split.
      * rewrite app_assoc. apply lastEvent_final. reflexivity.
      * rewrite !errorCalls_app, (Hs4 o eq_refl). simpl. rewrite app_nil_r. exact Herr.
    + assert (Hx' : In x (attempted st)).
      { apply in_app_or in Hx. destruct Hx as [Hx|[Hx|[]]]; [exact Hx | contradiction]. }
      pose proof (Hold (OnNodeComplete nodeId o) x eq_refl Hx') as Hseg.
      rewrite (lastEvent_other x (trace st) _ Hseg).
      pose proof (errorCalls_other x (trace st) _ Hseg) as He.
      specialize (Hl x Hx'). destruct (map_get x (nodeOutputs st)).
      * destruct Hl as [H1 H2]. split; [exact H1 | tauto].
      * destruct Hl as [m [H1 H2]]. exists m. split; [exact H1 | tauto].
  - rewrite !completeCalls_app, Hs2, Hk. simpl. rewrite app_nil_r. reflexivity.
  - intros e He. apply in_or_app. apply in_app_or in He.
    destruct He as [He|He]; [left; apply Hn; exact He|].
    right. left. apply in_app_or in He. destruct He as [He|[<-|[]]].
    + symmetry. apply Hs1. exact He.
    + reflexivity.
  - rewrite !fold_left_app, Hs3, Hst. reflexivity.
  - intros x o' Hx. apply in_app_or in Hx.
    destruct Hx as [Hx|Hx]; [apply Hv; exact Hx|].
    apply in_app_or in Hx. destruct Hx as [Hx|[Hx|[]]]; [|discriminate Hx].
    exfalso. assert (H : In x (completeCalls (fst r)))
      by (apply completeCalls_In; eexists; exact Hx).
    rewrite Hs2 in H. destruct H.
  - intros x Hx.
    destruct (String.eqb_spec nodeId x) as [E|E].
    + subst x. rewrite (map_get_absent nodeId _ Hfresh).
      eexists. split.
      * rewrite app_assoc. apply lastEvent_final. reflexivity.
      * rewrite !errorCalls_app. apply in_or_app. right. apply in_or_app. right.
        left. reflexivity.
    + assert (Hx' : In x (attempted st)).
      { apply in_app_or in Hx. destruct Hx as [Hx|[Hx|[]]]; [exact Hx | contradiction]. }
      pose proof (Hold (OnNodeError nodeId
                          match thrown with
                          | ThrownError message => message
                          | ThrownValue => "执行失败"
                          end) x eq_refl Hx') as Hseg.
      rewrite (lastEvent_other x (trace st) _ Hseg).
      pose proof (errorCalls_other x (trace st) _ Hseg) as He.
      specialize (Hl x Hx'). destruct (map_get x (nodeOutputs st)).
      * destruct Hl as [H1 H2]. split; [exact H1 | tauto].
      * destruct Hl as [m [H1 H2]]. exists m. split; [exact H1 | tauto].
Qed.

Lemma map_get_In_Some {V : Type} (k : string) (m : JsMap V) :
  In k (map_keys m) -> exists v, map_get k m = Some v.
Proof.
  induction m as [|[k0 v0] m IH]; simpl; [intros []|].
  intros H. destruct (String.eqb_spec k0 k) as [E|E]; [eexists; reflexivity|].
  destruct H as [H|H]; [contradiction | apply IH; exact H].
Qed.

Lemma run_invariant (getNodeDefinition : string -> option NodeDefinition)
    (capability : NodeInstance -> JsMap JsValue -> CapabilityResult)
    (allNodes : list NodeInstance) (allConnections : list Connection)
    (order : list string) :
  forall st, NoDup order ->
    (forall x, In x order -> ~ In x (attempted st)) ->
    runInvariant st ->
    runInvariant (fold_left (runNode getNodeDefinition capability allNodes allConnections)
                            order st).
Proof.
  induction order as [|x xs IH]; intros st Hnd Hnew Inv; simpl; [exact Inv|].
  inversion Hnd as [|y l Hx Hxs]; subst.
  apply IH; [exact Hxs | | apply runNode_invariant; [exact Inv|]].
  - intros z Hz Hin.
    assert (Hsub : In z (attempted st ++ [x])).
    { unfold runNode in Hin.
      destruct (find (fun n => String.eqb (nid n) x) allNodes) as [node|].
      - destruct (snd (executeNode getNodeDefinition capability node allConnections
                         (nodeOutputs st))); exact Hin.
      - apply in_or_app. left. exact Hin. }
    apply in_app_or in Hsub. destruct Hsub as [H|[H|[]]].
    + apply (Hnew z (or_intror Hz) H).
    + subst z. contradiction.
  - apply Hnew. left. reflexivity.
Qed.

Lemma executeWorkflow_invariant (getNodeDefinition : string -> option NodeDefinition)
    (capability : NodeInstance -> JsMap JsValue -> CapabilityResult)
    (allNodes : list NodeInstance) (allConnections : list Connection) :
  runInvariant (executeWorkflow getNodeDefinition capability allNodes allConnections).
Proof.
  unfold executeWorkflow. apply run_invariant.
  - apply getExecutionOrder_NoDup.
  - intros x _ [].
  - constructor; simpl.
    + reflexivity.
    + intros e [].
    + reflexivity.
    + intros nodeId o [].
    + intros nodeId [].
Qed.

(** X11: what a run of [executeWorkflow] hands back agrees with the
    callbacks it made.  The keys of the returned output map are the nodes
    the completion callback was called for, in the order of the calls, and
    the entry of each is the value the callback received.  An attempted
    node has an entry exactly when the error callback was not called for
    it, and callbacks are made for attempted nodes only. *)
Theorem executeWorkflow_outcome (getNodeDefinition : string -> option NodeDefinition)
    (capability : NodeInstance -> JsMap JsValue -> CapabilityResult)
    (allNodes : list NodeInstance) (allConnections : list Connection) :
  let run := executeWorkflow getNodeDefinition capability allNodes allConnections in
  map_keys (nodeOutputs run) = completeCalls (trace run)
  /\ (forall nodeId o, In (OnNodeComplete nodeId o) (trace run) ->
        map_get nodeId (nodeOutputs run) = Some o)
  /\ (forall nodeId, In nodeId (attempted run) ->
        (In nodeId (map_keys (nodeOutputs run))
         <-> ~ In nodeId (errorCalls (trace run))))
  /\ (forall e, In e (trace run) -> In (eventNode e) (attempted run)).
Proof.
  intros run.
  pose proof (executeWorkflow_invariant getNodeDefinition capability allNodes
                allConnections) as Inv.
  fold run in Inv. destruct Inv as [Hk Hn Hst Hv Hl].
  split; [symmetry; exact Hk|]. split; [exact Hv|]. split; [|exact Hn].
  intros nodeId Hin. specialize (Hl nodeId Hin).
  destruct (map_get nodeId (nodeOutputs run)) as [o|] eqn:E.
  - destruct Hl as [_ Hl]. split; [intros _; exact Hl|].
    intros _. apply (map_get_In nodeId o). exact E.
  - destruct Hl as [m [_ Hl]]. split; [|contradiction].
    intros H. apply map_get_In_Some in H. destruct H as [o Ho]. congruence.
Qed.

(** The execution state that the callbacks of [runAll] set for an event. *)
Definition stateOf (e : Event) : NodeExecutionState :=
  match e with
  | OnProgress nodeId percent message =>
      {| stateNodeId := nodeId; status := running; progress := Some percent;
         stateError := None; stateMessage := Some message |}
  | OnNodeComplete nodeId _ =>
      {| stateNodeId := nodeId; status := completed; progress := Some 100%Z;
         stateError := None; stateMessage := None |}
  | OnNodeError nodeId message =>
      {| stateNodeId := nodeId; status := error; progress := Some 0%Z;
         stateError := Some message; stateMessage := None |}
  end.

Lemma recordEvent_stateOf (l : list NodeExecutionState) (e : Event) :
  recordEvent l e = setNodeExecutionState (stateOf e) l
  /\ stateNodeId (stateOf e) = eventNode e.
Proof. destruct e; split; reflexivity. Qed.

Lemma setNodeExecutionState_find (st : NodeExecutionState)
    (l : list NodeExecutionState) (nodeId : string) :
  find (fun e => String.eqb (stateNodeId e) nodeId) (setNodeExecutionState st l)
  = if String.eqb (stateNodeId st) nodeId
    then Some st
    else find (fun e => String.eqb (stateNodeId e) nodeId) l.
Proof.
  unfold setNodeExecutionState. induction l as [|e l IH]; simpl; [|].
  - destruct (String.eqb (stateNodeId st) nodeId); reflexivity.
  - destruct (String.eqb_spec (stateNodeId e) (stateNodeId st)) as [E|E]; simpl.
    + rewrite IH, E. destruct (String.eqb (stateNodeId st) nodeId); reflexivity.
    + rewrite IH.
      destruct (String.eqb_spec (stateNodeId e) nodeId) as [E1|E1]; [|reflexivity].
      destruct (String.eqb_spec (stateNodeId st) nodeId) as [E2|E2]; [|reflexivity].
      congruence.
Qed.

Lemma setNodeExecutionState_NoDup (st : NodeExecutionState)
    (l : list NodeExecutionState) :
  NoDup (List.map stateNodeId l) ->
  NoDup (List.map stateNodeId (setNodeExecutionState st l)).
Proof.
  intros Hnd. unfold setNodeExecutionState. rewrite map_app. apply NoDup_app.
  - induction l as [|e l IH]; simpl; [constructor|].
    inversion Hnd as [|x l' Hx Hl]; subst.
    destruct (negb _); simpl; [|apply IH; exact Hl].
    constructor; [|apply IH; exact Hl].
    intros H. apply Hx. apply in_map_iff in H. destruct H as [y [Ey Hy]].
    apply filter_In in Hy. apply in_map_iff. exists y. tauto.
  - repeat constructor. simpl. tauto.
  - intros x Hx [<-|[]]. apply in_map_iff in Hx. destruct Hx as [y [Ey Hy]].
    apply filter_In in Hy. destruct Hy as [_ Hy].
    rewrite Ey, String.eqb_refl in Hy. discriminate.
Qed.

Lemma recordEvents_find (events : list Event) (nodeId : string) :
  forall init,
    find (fun e => String.eqb (stateNodeId e) nodeId) (fold_left recordEvent events init)
    = match lastEvent nodeId events with
      | Some e => Some (stateOf e)
      | None => find (fun e => String.eqb (stateNodeId e) nodeId) init
      end.
Proof.
  induction events as [|e events IH]; intros init; simpl; [reflexivity|].
  rewrite IH. destruct (lastEvent nodeId events); [reflexivity|].
  destruct (recordEvent_stateOf init e) as [-> E].
  rewrite setNodeExecutionState_find, E.
  destruct (String.eqb (eventNode e) nodeId); reflexivity.
Qed.

Lemma recordEvents_NoDup (events : list Event) :
  forall init, NoDup (List.map stateNodeId init) ->
    NoDup (List.map stateNodeId (fold_left recordEvent events init)).
Proof.
  induction events as [|e events IH]; intros init H; simpl; [exact H|].
  apply IH. destruct (recordEvent_stateOf init e) as [-> _].
  apply setNodeExecutionState_NoDup. exact H.
Qed.

(** X12: after [runAll] on a store with nodes, the outputs kept in the
    store are the output map of the run, and the list of execution states
    names no node twice.  Every attempted node is left as completed (at
    100) when it has stored outputs and as failed (at 0, with a message)
    when it has none, never as running; a node not attempted has no
    execution state. *)
Theorem runAll_states (getNodeDefinition : string -> option NodeDefinition)
    (capability : NodeInstance -> JsMap JsValue -> CapabilityResult)
    (state : WorkflowStore) (before : list NodeExecutionState)
    (storedBefore : JsMap (JsMap JsValue)) :
  nodes state <> [] ->
  let run := executeWorkflow getNodeDefinition capability
                             (nodes state) (connections state) in
  let result := runAll getNodeDefinition capability state before storedBefore in
  snd result = nodeOutputs run
  /\ NoDup (List.map stateNodeId (fst result))
  /\ (forall nodeId, In nodeId (attempted run) ->
        match map_get nodeId (snd result) with
        | Some _ =>
            find (fun e => String.eqb (stateNodeId e) nodeId) (fst result)
            = Some {| stateNodeId := nodeId; status := completed;
                      progress := Some 100%Z; stateError := None;
                      stateMessage := None |}
        | None =>
            exists message,
              find (fun e => String.eqb (stateNodeId e) nodeId) (fst result)
              = Some {| stateNodeId := nodeId; status := error;
                        progress := Some 0%Z; stateError := Some message;
                        stateMessage := None |}
        end)
  /\ (forall nodeId, ~ In nodeId (attempted run) ->
        find (fun e => String.eqb (stateNodeId e) nodeId) (fst result) = None).
Proof.
  intros Hne run result.
  assert (E : result = (fold_left recordEvent (trace run) [],
                        fold_left storeOutput (trace run) [])).
  { unfold result, runAll, run. destruct (nodes state); [contradiction | reflexivity]. }
  rewrite E. cbn [fst snd].
  pose proof (executeWorkflow_invariant getNodeDefinition capability (nodes state)
                (connections state)) as Inv.
  fold run in Inv. destruct Inv as [Hk Hn Hst Hv Hl].
  split; [exact Hst|]. split; [apply recordEvents_NoDup; constructor|]. split.
  - intros nodeId Hin. rewrite Hst, recordEvents_find.
    specialize (Hl nodeId Hin). destruct (map_get nodeId (nodeOutputs run)).
    + destruct Hl as [-> _]. reflexivity.
    + destruct Hl as [m [-> _]]. exists m. reflexivity.
  - intros nodeId Hout. rewrite recordEvents_find, lastEvent_none; [reflexivity|].
    intros e He Ee. apply Hout. rewrite <- Ee. apply Hn. exact He.
Qed.

Definition chainStore : WorkflowStore :=
  {| nodes := [nodeA; nodeB; nodeC]; connections := [wireAB; wireBC];
     selectedNodeIds := [] |}.

Lemma runAll_states_witness :
  snd (runAll textRegistry failingAtB chainStore [] [])
  = nodeOutputs (executeWorkflow textRegistry failingAtB [nodeA; nodeB; nodeC]
                                 [wireAB; wireBC])
  /\ NoDup (List.map stateNodeId (fst (runAll textRegistry failingAtB chainStore [] []))).
Proof.
  destruct (runAll_states textRegistry failingAtB chainStore [] []) as [H1 [H2 _]].
  - discriminate.
  - split; [exact H1 | exact H2].
Defined.

(** ** Which nodes are scheduled *)

(** Every key of degree zero has been queued or visited. *)
Definition zeroQueued (inDegree : JsMap Z) (queue result : list string) : Prop :=
  forall k, In k (map_keys inDegree) -> degreeOf inDegree k = 0%Z ->
            In k result \/ In k queue.

Lemma relax_all_zeroQueued (targets : list string) (result : list string) :
  forall s, zeroQueued (fst s) (snd s) result ->
    zeroQueued (fst (fold_left relax targets s)) (snd (fold_left relax targets s)) result.
Proof.
  induction targets as [|t ts IH]; intros s Q; simpl; [exact Q|].
  apply IH. intros k Hk Hd. unfold relax in *. simpl in *.
  rewrite degreeOf_set in Hd. apply map_keys_set_In in Hk.
  destruct (String.eqb_spec t k) as [E|E].
  - subst k. rewrite Hd. simpl. right. apply in_or_app. right. left. reflexivity.
  - destruct Hk as [Hk|Hk]; [congruence|].
    destruct (Q k Hk Hd) as [H|H]; [left; exact H|].
    right. destruct (Z.eqb _ 0); [apply in_or_app; left; exact H | exact H].
Qed.

Lemma relax_all_keys (targets : list string) (k : string) :
  forall s, In k (map_keys (fst s)) ->
            In k (map_keys (fst (fold_left relax targets s))).
Proof.
  induction targets as [|t ts IH]; intros s H; simpl; [exact H|].
  apply IH. unfold relax. simpl. apply map_keys_set_In. right. exact H.
Qed.

Lemma relax_all_prefix (targets : list string) :
  forall s, exists fresh, snd (fold_left relax targets s) = snd s ++ fresh.
Proof.
  induction targets as [|t ts IH]; intros s; simpl.
  - exists []. rewrite app_nil_r. reflexivity.
  - destruct (IH (relax s t)) as [fresh E]. rewrite E. unfold relax. simpl.
    destruct (Z.eqb _ 0).
    + exists ([t] ++ fresh). rewrite app_assoc. reflexivity.
    + exists fresh. reflexivity.
Qed.

(** The loop visits every key whose incoming connections all come from
    visited ids, and it visits the queue first, in its order. *)
Lemma drain_complete (conns : list Connection) (adjacency : JsMap (list string))
    (s : JsMap Z * list string) (result : list string) :
  (forall u, targetsOf adjacency u = successors conns u) ->
  loop_invariant conns (fst s) (snd s) result ->
  zeroQueued (fst s) (snd s) result ->
  (forall k, In k (map_keys (fst s)) ->
     (forall c, In c conns -> targetNodeId c = k ->
                In (sourceNodeId c) (drain adjacency s result)) ->
     In k (drain adjacency s result))
  /\ exists rest, drain adjacency s result = result ++ snd s ++ rest.
Proof.
  intros Hadj. funelim (drain adjacency s result); intros Inv Q; simpl in Inv, Q.
  - split.
    + intros k Hk Hall. simpl in Hk.
      assert (Hp : pending conns result k = 0)
        by (apply pending_zero; exact Hall).
      assert (Hd : degreeOf inDegree k = 0%Z)
        by (destruct Inv as [_ Hdeg _ _ _]; rewrite (Hdeg k), Hp; reflexivity).
      destruct (Q k Hk Hd) as [H|[]]. exact H.
    + exists []. simpl. rewrite app_nil_r. reflexivity.
  - destruct (H conns Hadj) as [H1 [rest H2]].
    + apply loop_invariant_step; assumption.
    + apply relax_all_zeroQueued. simpl. intros k Hk Hd.
      destruct (Q k Hk Hd) as [Hr|[Hq|Hq]].
      * left. apply in_or_app. left. exact Hr.
      * left. apply in_or_app. right. left. exact Hq.
      * right. exact Hq.
    + split.
      * intros k Hk Hall. apply H1; [|exact Hall].
        apply relax_all_keys. exact Hk.
      * destruct (relax_all_prefix (targetsOf adjacency nodeId) (inDegree, queue))
          as [fresh E].
        rewrite H2, E. simpl. exists (fresh ++ rest).
        rewrite <- !app_assoc. reflexivity.
Qed.

Lemma initialQueue_complete (inDegree : JsMap Z) (k : string) :
  In k (map_keys inDegree) -> degreeOf inDegree k = 0%Z ->
  In k (initialQueue inDegree).
Proof.
  unfold initialQueue, map_keys, degreeOf.
  induction inDegree as [|[k0 d0] m IH]; simpl; [intros []|].
  intros Hk Hd. destruct (String.eqb_spec k0 k) as [E|E].
  - subst. simpl. left. reflexivity.
  - destruct Hk as [Hk|Hk]; [contradiction|].
    destruct (Z.eqb d0 0); [right|]; apply IH; assumption.
Qed.

Lemma addEdge_all_keys_grow (connections : list Connection)
    (m : JsMap Z * JsMap (list string)) :
  exists extra,
    map_keys (fst (fold_left addEdge connections m)) = map_keys (fst m) ++ extra
    /\ (forall x, In x extra -> In x (List.map targetNodeId connections))
    /\ (forall x, In x (List.map targetNodeId connections) ->
                  In x (map_keys (fst m) ++ extra)).
Proof.
  revert m. induction connections as [|c cs IH]; intros m; simpl.
  - exists []. rewrite app_nil_r. split; [reflexivity|]. split; simpl; intros x H; destruct H.
  - destruct (IH (addEdge m c)) as [extra [E [H1 H2]]].
    rewrite E. unfold addEdge. cbn [fst]. rewrite map_keys_set.
    destruct (includes (map_keys (fst m)) (targetNodeId c)) eqn:Ei.
    + exists extra. split; [reflexivity|]. split.
      * intros x Hx. right. apply H1. exact Hx.
      * intros x [Hx|Hx].
        -- subst x. apply in_or_app. left. apply includes_In. exact Ei.
        -- unfold addEdge in H2. cbn [fst] in H2. rewrite map_keys_set, Ei in H2.
           apply H2. exact Hx.
    + exists ([targetNodeId c] ++ extra). split; [symmetry; apply app_assoc|].
      split.
      * intros x [Hx|Hx]; [left; exact Hx | right; apply H1; exact Hx].
      * intros x [Hx|Hx].
        -- subst x. apply in_or_app. right. simpl. left. reflexivity.
        -- unfold addEdge in H2. cbn [fst] in H2. rewrite map_keys_set, Ei in H2.
           rewrite app_assoc. apply H2. exact Hx.
Qed.

Lemma initMaps_keys_all (l : list NodeInstance) (x : string) :
  In x (List.map nid l) -> In x (map_keys (fst (initMaps l))).
Proof.
  unfold initMaps.
  set (step := fun (m : JsMap Z * JsMap (list string)) (node : NodeInstance) =>
                 (map_set (nid node) 0%Z (fst m), map_set (nid node) [] (snd m))).
  assert (G : forall l m, In x (map_keys (fst m)) \/ In x (List.map nid l) ->
                          In x (map_keys (fst (fold_left step l m)))).
  { clear l. induction l as [|n ns IH]; intros m H; simpl.
    - destruct H as [H|[]]. exact H.
    - apply IH. unfold step. cbn [fst]. rewrite map_keys_set_In.
      simpl in H. destruct H as [H|[H|H]]; auto. }
  intros H. apply G. right. exact H.
Qed.

Lemma buildMaps_keys_all (l : list NodeInstance) (connections : list Connection)
    (x : string) :
  In x (List.map nid l) \/ In x (List.map targetNodeId connections) ->
  In x (map_keys (fst (buildMaps l connections))).
Proof.
  unfold buildMaps.
  destruct (addEdge_all_keys_grow connections (initMaps l)) as [extra [E [_ H2]]].
  rewrite E. intros [H|H].
  - apply in_or_app. left. apply initMaps_keys_all. exact H.
  - apply H2. exact H.
Qed.

Lemma getExecutionOrder_complete (l : list NodeInstance) (conns : list Connection) :
  (forall k, In k (List.map nid l) \/ In k (List.map targetNodeId conns) ->
     (forall c, In c conns -> targetNodeId c = k ->
                In (sourceNodeId c) (getExecutionOrder l conns)) ->
     In k (getExecutionOrder l conns))
  /\ exists rest,
       getExecutionOrder l conns = initialQueue (fst (buildMaps l conns)) ++ rest.
Proof.
  unfold getExecutionOrder. cbv zeta.
  destruct (drain_complete conns (snd (buildMaps l conns))
              (fst (buildMaps l conns), initialQueue (fst (buildMaps l conns))) [])
    as [H1 H2].
  - intros u. apply buildMaps_targets.
  - apply initial_invariant.
  - intros k Hk Hd. right. apply initialQueue_complete; assumption.
  - split; [|exact H2].
    intros k Hk Hall. apply H1; [|exact Hall].
    apply buildMaps_keys_all. exact Hk.
Qed.

(** X13: an id is scheduled by [getExecutionOrder] exactly when it is the
    id of a node, or the target of a connection, and every connection into
    it comes from a scheduled id. *)
Theorem getExecutionOrder_scheduled_iff (l : list NodeInstance)
    (conns : list Connection) (k : string) :
  In k (getExecutionOrder l conns)
  <-> (In k (List.map nid l) \/ In k (List.map targetNodeId conns))
      /\ forall c, In c conns -> targetNodeId c = k ->
                   In (sourceNodeId c) (getExecutionOrder l conns).
Proof.
  split.
  - intros H. split; [apply getExecutionOrder_members; exact H|].
    intros c Hc Ht. destruct (in_split _ _ H) as [l1 [l2 E]].
    pose proof (getExecutionOrder_sources_first l conns l1 k l2 E c Hc Ht) as Hs.
    rewrite E. apply in_or_app. left. exact Hs.
  - intros [Hk Hall].
    apply (proj1 (getExecutionOrder_complete l conns)); assumption.
Qed.

Lemma initialQueue_filter (inDegree : JsMap Z) :
  NoDup (map_keys inDegree) ->
  initialQueue inDegree
  = filter (fun k => Z.eqb (degreeOf inDegree k) 0) (map_keys inDegree).
Proof.
  unfold initialQueue, map_keys, degreeOf.
  induction inDegree as [|[k0 d0] m IH]; intros H; simpl; [reflexivity|].
  inversion H as [|x xs Hx Hxs]; subst.
  rewrite String.eqb_refl.
  assert (E : filter (fun k => Z.eqb match (if String.eqb k0 k then Some d0
                                            else map_get k m) with
                                     | Some d => d
                                     | None => 0%Z
                                     end 0) (List.map fst m)
              = filter (fun k => Z.eqb match map_get k m with
                                       | Some d => d
                                       | None => 0%Z
                                       end 0) (List.map fst m)).
  { apply filter_ext_in. intros k Hk.
    destruct (String.eqb_spec k0 k) as [E0|E0]; [|reflexivity].
    subst k. contradiction. }
  rewrite E. destruct (Z.eqb d0 0); simpl; rewrite (IH Hxs); reflexivity.
Qed.

Lemma initMaps_keys_eq (l : list NodeInstance) :
  NoDup (List.map nid l) -> map_keys (fst (initMaps l)) = List.map nid l.
Proof.
  unfold initMaps.
  set (step := fun (m : JsMap Z * JsMap (list string)) (node : NodeInstance) =>
                 (map_set (nid node) 0%Z (fst m), map_set (nid node) [] (snd m))).
  assert (G : forall l m, NoDup (map_keys (fst m) ++ List.map nid l) ->
                          map_keys (fst (fold_left step l m))
                          = map_keys (fst m) ++ List.map nid l).
  { clear l. induction l as [|n ns IH]; intros m H; simpl.
    - rewrite app_nil_r. reflexivity.
    - assert (Hn : ~ In (nid n) (map_keys (fst m))).
      { simpl in H. apply NoDup_remove_2 in H. intros Hin. apply H.
        apply in_or_app. left. exact Hin. }
      assert (Ek : map_keys (fst (step m n)) = map_keys (fst m) ++ [nid n]).
      { unfold step. cbn [fst]. rewrite map_keys_set.
        apply includes_not_In in Hn. rewrite Hn. reflexivity. }
      rewrite IH; rewrite Ek, <- app_assoc; [reflexivity | exact H]. }
  intros H. apply (G l ([], [])). exact H.
Qed.

(** X14: when the node ids are distinct, the order begins with the nodes
    that no connection enters, in the order of the node list. *)
Theorem getExecutionOrder_sources_lead (l : list NodeInstance)
    (conns : list Connection) :
  NoDup (List.map nid l) ->
  exists rest,
    getExecutionOrder l conns
    = filter (fun k => Nat.eqb (inDegreeOf conns k) 0) (List.map nid l) ++ rest.
Proof.
  intros Hnd.
  destruct (getExecutionOrder_complete l conns) as [_ [rest E]].
  exists rest. rewrite E. f_equal.
  rewrite initialQueue_filter by apply buildMaps_keys.
  unfold buildMaps at 2.
  destruct (addEdge_all_keys_grow conns (initMaps l)) as [extra [Ek [Hx _]]].
  rewrite Ek, (initMaps_keys_eq l Hnd), filter_app.
  rewrite (filter_none _ extra).
  - rewrite app_nil_r. apply filter_ext. intros k.
    rewrite buildMaps_degree. destruct (inDegreeOf conns k); reflexivity.
  - intros x Hin. rewrite buildMaps_degree.
    apply Hx in Hin. apply in_map_iff in Hin. destruct Hin as [c [Ec Hc]].
    assert (Hpos : inDegreeOf conns x <> 0).
    { unfold inDegreeOf. intros H0. apply length_zero_iff_nil in H0.
      assert (Hf : In c (filter (fun c => String.eqb (targetNodeId c) x) conns)).
      { apply filter_In. split; [exact Hc|]. rewrite Ec. apply String.eqb_refl. }
      rewrite H0 in Hf. exact Hf. }
    destruct (inDegreeOf conns x); [contradiction | reflexivity].
Qed.

Lemma getExecutionOrder_sources_lead_witness :
  exists rest,
    getExecutionOrder [nodeA; nodeB; nodeC] [wireAB; wireBC]
    = filter (fun k => Nat.eqb (inDegreeOf [wireAB; wireBC] k) 0)
             (List.map nid [nodeA; nodeB; nodeC]) ++ rest.
Proof.
  apply (getExecutionOrder_sources_lead [nodeA; nodeB; nodeC] [wireAB; wireBC]).
  repeat constructor; simpl; intuition discriminate.
Defined.

(** In a non-empty finite set of ids each reached from an id of the set,
    some id lies on a cycle. *)
Lemma closed_set_cycle (conns : list Connection) (ids : list string) :
  ids <> [] ->
  (forall u, In u ids -> exists v, In v ids /\ clos_trans string (edge conns) v u) ->
  exists v, onCycle conns v.
Proof.
  induction ids as [|u rest IH]; intros Hne Hpred; [contradiction|].
  destruct (Hpred u (or_introl eq_refl)) as [v0 [[E0|Hv0] Hpath0]].
  - subst v0. exists u. exact Hpath0.
  - apply IH.
    + intros E. rewrite E in Hv0. destruct Hv0.
    + intros w Hw. destruct (Hpred w (or_intror Hw)) as [v [[Ev|Hv] Hpath]].
      * subst v. exists v0. split; [exact Hv0|].
        apply t_trans with u; assumption.
      * exists v. split; assumption.
Qed.

(** X15: for an acyclic graph with distinct node ids in which every
    connection joins two nodes of the list, the execution order is a
    permutation of the node ids: every node is scheduled, once. *)
Theorem getExecutionOrder_acyclic_all (l : list NodeInstance)
    (conns : list Connection) :
  acyclic conns ->
  NoDup (List.map nid l) ->
  (forall c, In c conns -> In (sourceNodeId c) (List.map nid l)
                           /\ In (targetNodeId c) (List.map nid l)) ->
  Permutation (getExecutionOrder l conns) (List.map nid l).
Proof.
  intros Hacyc Hnd Hatt.
  set (order := getExecutionOrder l conns).
  assert (Hsub : forall x, In x order -> In x (List.map nid l)).
  { intros x Hx. destruct (getExecutionOrder_members l conns x Hx) as [H|H]; [exact H|].
    apply in_map_iff in H. destruct H as [c [<- Hc]]. apply (Hatt c Hc). }
  apply NoDup_Permutation; [apply getExecutionOrder_NoDup | exact Hnd |].
  intros x. split; [apply Hsub|]. intros Hx.
  destruct (includes order x) eqn:Ex; [apply includes_In; exact Ex|].
  exfalso.
  set (left_out := filter (fun k => negb (includes order k)) (List.map nid l)).
  assert (Hin : In x left_out).
  { apply filter_In. split; [exact Hx | rewrite Ex; reflexivity]. }
  destruct (closed_set_cycle conns left_out) as [v Hv].
  - intros E. rewrite E in Hin. destruct Hin.
  - intros u Hu. apply filter_In in Hu. destruct Hu as [Hu1 Hu2].
    apply negb_true_iff, includes_not_In in Hu2.
    destruct (filter (fun c => String.eqb (targetNodeId c) u
                               && negb (includes order (sourceNodeId c))) conns)
      as [|c cs] eqn:Ef.
    + exfalso. apply Hu2.
      apply (proj1 (getExecutionOrder_complete l conns)); [left; exact Hu1|].
      apply pending_zero. unfold pending. fold order. rewrite Ef. reflexivity.
    + assert (Hc : In c (c :: cs)) by (left; reflexivity).
      rewrite <- Ef in Hc. apply filter_In in Hc. destruct Hc as [Hc Hb].
      apply andb_true_iff in Hb. destruct Hb as [Ht Hs].
      apply String.eqb_eq in Ht.
      exists (sourceNodeId c). split.
      * apply filter_In. split; [apply (Hatt c Hc) | exact Hs].
      * apply t_step. exists c. auto.
  - exact (Hacyc v Hv).
Qed.

Lemma getExecutionOrder_acyclic_all_witness :
  Permutation (getExecutionOrder chainNodes chainWires) (List.map nid chainNodes).
Proof.
  apply (getExecutionOrder_acyclic_all chainNodes chainWires).
  - exact chainWires_acyclic.
  - repeat constructor; simpl; intuition discriminate.
  - intros c [<-|[]]. simpl. tauto.
Defined.

(** ** The inputs of a node *)

(** [parseInt] reads back the decimal writing of a number. *)
Lemma leadingDigits_uint (d : Decimal.uint) :
  forall n, leadingDigits 10 (NilEmpty.string_of_uint d) (Some (Z.of_nat n))
            = Some (Z.of_nat (Nat.of_uint_acc d n)).
Proof.
  induction d as [|d IH|d IH|d IH|d IH|d IH|d IH|d IH|d IH|d IH|d IH]; intros n;
    [reflexivity|..];
    cbn [NilEmpty.string_of_uint leadingDigits Nat.of_uint_acc];
    match goal with
    | |- context [digitValue 10 ?c] =>
        let v := eval vm_compute in (digitValue 10 c) in
        change (digitValue 10 c) with v
    end;
    cbv iota beta; rewrite <- IH; do 2 f_equal;
    rewrite Nat.tail_mul_spec; lia.
Qed.

Lemma leadingDigits_decimal (d : Decimal.uint) :
  d <> Decimal.Nil ->
  leadingDigits 10 (NilEmpty.string_of_uint d) None = Some (Z.of_nat (Nat.of_uint d)).
Proof.
  intros Hd. unfold Nat.of_uint.
  destruct d as [|d|d|d|d|d|d|d|d|d|d]; [contradiction|..];
    cbn [NilEmpty.string_of_uint leadingDigits Nat.of_uint_acc];
    match goal with
    | |- context [digitValue 10 ?c] =>
        let v := eval vm_compute in (digitValue 10 c) in
        change (digitValue 10 c) with v
    end;
    cbv iota beta; rewrite Nat.tail_mul_spec; rewrite Nat.mul_0_r.
  - exact (leadingDigits_uint d 0).
  - exact (leadingDigits_uint d 1).
  - exact (leadingDigits_uint d 2).
  - exact (leadingDigits_uint d 3).
  - exact (leadingDigits_uint d 4).
  - exact (leadingDigits_uint d 5).
  - exact (leadingDigits_uint d 6).
  - exact (leadingDigits_uint d 7).
  - exact (leadingDigits_uint d 8).
  - exact (leadingDigits_uint d 9).
Qed.

Lemma parseInt_digits (d : Decimal.uint) :
  d <> Decimal.Nil ->
  parseInt (NilEmpty.string_of_uint d)
  = option_map (Z.mul 1) (leadingDigits 10 (NilEmpty.string_of_uint d) None).
Proof.
  intros Hd.
  destruct d as [|d|d|d|d|d|d|d|d|d|d]; [contradiction|..];
    try reflexivity.
  destruct d; reflexivity.
Qed.

Lemma parseInt_decimal (j : nat) : parseInt (decimal j) = Some (Z.of_nat j).
Proof.
  unfold decimal. pose proof (to_uint_nonnil j) as Hnil.
  assert (E : NilZero.string_of_uint (Nat.to_uint j)
              = NilEmpty.string_of_uint (Nat.to_uint j)).
  { destruct (Nat.to_uint j); [contradiction|..]; reflexivity. }
  rewrite E, (parseInt_digits _ Hnil), (leadingDigits_decimal _ Hnil).
  rewrite DecimalNat.Unsigned.of_to. simpl. f_equal.
  destruct (Z.of_nat j); reflexivity.
Qed.

Lemma substring_all (s : string) : substring 0 (String.length s) s = s.
Proof.
  induction s as [|c s IH]; simpl; [reflexivity | rewrite IH; reflexivity].
Qed.

Lemma removeFirst_unfold (pattern s : string) :
  removeFirst pattern s
  = if String.prefix pattern s
    then substring (String.length pattern) (String.length s - String.length pattern) s
    else match s with
         | EmptyString => EmptyString
         | String c s' => String c (removeFirst pattern s')
         end.
Proof. destruct s; reflexivity. Qed.

Lemma removeFirst_outputId (j : nat) : removeFirst "output-" (outputId j) = decimal j.
Proof.
  rewrite removeFirst_unfold. unfold outputId.
  change (String.prefix "output-" ("output-" ++ decimal j))
    with (String.prefix "" (decimal j)).
  assert (E : String.prefix "" (decimal j) = true) by (destruct (decimal j); reflexivity).
  rewrite E.
  change (substring (String.length "output-")
            (String.length ("output-" ++ decimal j) - String.length "output-")
            ("output-" ++ decimal j))
    with (substring 0 (String.length (decimal j) - 0) (decimal j)).
  rewrite Nat.sub_0_r. apply substring_all.
Qed.

(** The body of [node.inputs.forEach] in [getNodeInputs]. *)
Definition bindInput (node : NodeInstance) (conns : list Connection)
    (outputsSoFar : JsMap (JsMap JsValue)) (bound : JsMap JsValue) (ip : nat * Port)
    : JsMap JsValue :=
  match find (fun c => String.eqb (targetNodeId c) (nid node)
                       && String.eqb (targetPortId c) (inputId (fst ip))) conns with
  | None => bound
  | Some connection =>
      match map_get (sourceNodeId connection) outputsSoFar with
      | None => bound
      | Some sourceNode =>
          match parseInt (removeFirst "output-" (sourcePortId connection)) with
          | None => bound
          | Some sourcePortIndex =>
              match at_index (map_keys sourceNode) sourcePortIndex with
              | None => bound
              | Some key =>
                  map_set (pname (snd ip))
                          (match map_get key sourceNode with
                           | Some v => v
                           | None => JUndefined
                           end) bound
              end
          end
      end
  end.

Lemma getNodeInputs_fold (node : NodeInstance) (conns : list Connection)
    (outputsSoFar : JsMap (JsMap JsValue)) :
  getNodeInputs node conns outputsSoFar
  = fold_left (bindInput node conns outputsSoFar) (indexed (inputs node))
              (objectAssign [] (data node)).
Proof. reflexivity. Qed.

Lemma bindInputs_other (node : NodeInstance) (conns : list Connection)
    (outputsSoFar : JsMap (JsMap JsValue)) (name : string) (l : list (nat * Port)) :
  forall bound,
    (forall ip, In ip l -> pname (snd ip) <> name) ->
    map_get name (fold_left (bindInput node conns outputsSoFar) l bound)
    = map_get name bound.
Proof.
  induction l as [|ip l IH]; intros bound H; simpl; [reflexivity|].
  rewrite IH by (intros ip' Hip; apply H; right; exact Hip).
  unfold bindInput.
  destruct (find _ conns) as [c|]; [|reflexivity].
  destruct (map_get (sourceNodeId c) outputsSoFar) as [so|]; [|reflexivity].
  destruct (parseInt _) as [j|]; [|reflexivity].
  destruct (at_index _ j) as [key|]; [|reflexivity].
  rewrite map_get_set.
  destruct (String.eqb_spec (pname (snd ip)) name) as [E|E]; [|reflexivity].
  exfalso. apply (H ip (or_introl eq_refl)). exact E.
Qed.

Lemma indexedFrom_In {A : Type} (l : list A) (start : nat) (ip : nat * A) :
  In ip (indexedFrom start l) -> In (snd ip) l.
Proof.
  revert start. induction l as [|x l IH]; intros start H; simpl in *; [exact H|].
  destruct H as [<-|H]; [left; reflexivity | right; apply (IH _ H)].
Qed.

Lemma map_get_nth {V : Type} (m : JsMap V) (j : nat) (k : string) (v : V) :
  NoDup (map_keys m) -> nth_error m j = Some (k, v) -> map_get k m = Some v.
Proof.
  revert j. induction m as [|[k0 v0] m IH]; intros j Hnd Hj; [destruct j; discriminate|].
  inversion Hnd as [|x xs Hx Hxs]; subst. destruct j as [|j]; simpl in *.
  - injection Hj as -> ->. rewrite String.eqb_refl. reflexivity.
  - destruct (String.eqb_spec k0 k) as [E|E]; [|apply (IH j Hxs Hj)].
    exfalso. apply Hx. subst k0. apply nth_error_In in Hj.
    apply in_map_iff. exists (k, v). split; [reflexivity | exact Hj].
Qed.

Lemma objectAssign_copy {V : Type} (k : string) (m : JsMap V) :
  NoDup (map_keys m) -> map_get k (objectAssign [] m) = map_get k m.
Proof.
  intros H. rewrite objectAssign_get, (map_get_rev k m H).
  destruct (map_get k m); reflexivity.
Qed.

(** X16: [getNodeInputs] threads values by position.  For a node whose
    inputs have distinct names, the input at index [k] reads the [j]-th
    entry of the outputs of the upstream node when the first connection
    into [input-k] leaves [output-j] of a node that has outputs, whatever
    the name of that entry.  It reads the literal data of the node under
    its name when no connection enters [input-k] or the upstream node has
    no outputs; and a name that is no input reads the literal data. *)
Theorem getNodeInputs_threads (node : NodeInstance) (conns : list Connection)
    (outputsSoFar : JsMap (JsMap JsValue)) (k : nat) (p : Port) :
  NoDup (List.map pname (inputs node)) ->
  nth_error (inputs node) k = Some p ->
  (forall c so j key v,
     find (fun c => String.eqb (targetNodeId c) (nid node)
                    && String.eqb (targetPortId c) (inputId k)) conns = Some c ->
     map_get (sourceNodeId c) outputsSoFar = Some so ->
     sourcePortId c = outputId j ->
     NoDup (map_keys so) ->
     nth_error so j = Some (key, v) ->
     map_get (pname p) (getNodeInputs node conns outputsSoFar) = Some v)
  /\ (NoDup (map_keys (data node)) ->
      (find (fun c => String.eqb (targetNodeId c) (nid node)
                      && String.eqb (targetPortId c) (inputId k)) conns = None
       \/ exists c,
            find (fun c => String.eqb (targetNodeId c) (nid node)
                           && String.eqb (targetPortId c) (inputId k)) conns = Some c
            /\ map_get (sourceNodeId c) outputsSoFar = None) ->
      map_get (pname p) (getNodeInputs node conns outputsSoFar)
      = map_get (pname p) (data node))
  /\ (NoDup (map_keys (data node)) ->
      forall name, ~ In name (List.map pname (inputs node)) ->
        map_get name (getNodeInputs node conns outputsSoFar)
        = map_get name (data node)).
Proof.
  intros Hnd Hk. rewrite getNodeInputs_fold.
  destruct (nth_error_split _ _ Hk) as [l1 [l2 [E Hlen]]].
  assert (Hnames : ~ In (pname p) (List.map pname l1)
                   /\ ~ In (pname p) (List.map pname l2)).
  { rewrite E, map_app in Hnd. simpl in Hnd. apply NoDup_remove_2 in Hnd.
    split; intros H; apply Hnd; apply in_or_app; [left | right]; exact H. }
  destruct Hnames as [Hn1 Hn2].
  assert (Hother : forall start l, ~ In (pname p) (List.map pname l) ->
            forall ip, In ip (indexedFrom start l) -> pname (snd ip) <> pname p).
  { intros start l Hl ip Hip Ep. apply Hl. rewrite <- Ep.
    apply in_map. apply (indexedFrom_In l start ip Hip). }
  assert (Hsplit : forall init,
            map_get (pname p)
              (fold_left (bindInput node conns outputsSoFar) (indexed (inputs node)) init)
            = map_get (pname p)
                (bindInput node conns outputsSoFar
                   (fold_left (bindInput node conns outputsSoFar) (indexedFrom 0 l1) init)
                   (k, p))).
  { intros init. unfold indexed. rewrite E, indexedFrom_app, fold_left_app. simpl.
    rewrite Hlen.
    rewrite (bindInputs_other node conns outputsSoFar (pname p) _ _
               (Hother _ l2 Hn2)).
    reflexivity. }
  split; [|split].
  - intros c so j key v Hc Hso Hj Hkeys Hv.
    rewrite Hsplit. unfold bindInput. cbn [fst snd].
    rewrite Hc, Hso, Hj, removeFirst_outputId, parseInt_decimal.
    unfold at_index.
    assert (Z.ltb (Z.of_nat j) 0 = false) as -> by (apply Z.ltb_ge; lia).
    rewrite Nat2Z.id. unfold map_keys. rewrite nth_error_map, Hv. simpl.
    rewrite map_get_set, String.eqb_refl, (map_get_nth so j key v Hkeys Hv).
    reflexivity.
  - intros Hdata Hcase. rewrite Hsplit.
    assert (Eb : bindInput node conns outputsSoFar
                   (fold_left (bindInput node conns outputsSoFar) (indexedFrom 0 l1)
                      (objectAssign [] (data node))) (k, p)
                 = fold_left (bindInput node conns outputsSoFar) (indexedFrom 0 l1)
                     (objectAssign [] (data node))).
    { unfold bindInput. cbn [fst snd].
      destruct Hcase as [->|[c [-> ->]]]; reflexivity. }
    rewrite Eb.
    rewrite (bindInputs_other node conns outputsSoFar (pname p) _ _ (Hother _ l1 Hn1)).
    apply objectAssign_copy. exact Hdata.
  - intros Hdata name Hname.
    rewrite bindInputs_other; [apply objectAssign_copy; exact Hdata|].
    intros ip Hip Ep. apply Hname. rewrite <- Ep. apply in_map.
    apply (indexedFrom_In _ 0 ip Hip).
Qed.

(** A node with the inputs [image] and [prompt]; the prompt is fed from
    the second output of [up]. *)
Definition twoInputs : NodeInstance :=
  {| nid := "n"; ntype := "image-gen"; position := (0, 0)%Z;
     data := [("prompt", JStr "typed")];
     inputs := [ {| pid := "input-0"; pname := "image"; ptype := "image";
                    direction := input; connected := Some false;
                    isReferenceInput := None; widget := None |};
                 {| pid := "input-1"; pname := "prompt"; ptype := "text";
                    direction := input; connected := Some true;
                    isReferenceInput := None; widget := None |} ];
     outputs := []; size := None |}.

Lemma getNodeInputs_threads_witness :
  map_get "prompt"
    (getNodeInputs twoInputs [wire "c1" "up" "output-1" "n" "input-1"]
       [("up", [("first", JNum 1); ("second", JStr "from upstream")])])
  = Some (JStr "from upstream").
Proof.
  destruct (getNodeInputs_threads twoInputs [wire "c1" "up" "output-1" "n" "input-1"]
              [("up", [("first", JNum 1); ("second", JStr "from upstream")])]
              1 {| pid := "input-1"; pname := "prompt"; ptype := "text";
                   direction := input; connected := Some true;
                   isReferenceInput := None; widget := None |})
    as [H _].
  - repeat constructor; simpl; intuition discriminate.
  - reflexivity.
  - apply (H (wire "c1" "up" "output-1" "n" "input-1")
             [("first", JNum 1); ("second", JStr "from upstream")]
             1 "second" (JStr "from upstream")); try reflexivity.
    repeat constructor; simpl; intuition discriminate.
Defined.

(** * Further properties of the validator *)

Lemma set_add_fresh (x : string) (s : list string) :
  ~ In x s -> set_add x s = s ++ [x].
Proof.
  intros H. unfold set_add. apply includes_not_In in H. rewrite H. reflexivity.
Qed.

Lemma set_delete_added (x : string) (s : list string) :
  ~ In x s -> set_delete x (s ++ [x]) = s.
Proof.
  intros H. unfold set_delete. rewrite filter_app. simpl.
  rewrite String.eqb_refl. simpl. rewrite app_nil_r.
  apply filter_all. intros y Hy. apply negb_true_iff, String.eqb_neq.
  intros E. subst y. contradiction.
Qed.

(** What a search may assume of the two sets when it is started at
    [nodeId]: the node is not visited, the stack is within the visited set,
    and every node of the stack leads to [nodeId]. *)
Definition searchStart (conns : list Connection) (nodeId : string) (st : DfsState)
    : Prop :=
  ~ In nodeId (visited st)
  /\ (forall x, In x (recursionStack st) -> In x (visited st))
  /\ (forall x, In x (recursionStack st) -> clos_trans string (edge conns) x nodeId).

(** What a search leaves: a cycle of the graph when it answers [true]; the
    stack as it was and no visited node forgotten when it answers
    [false]. *)
Definition searchEnd (conns : list Connection) (st : DfsState)
    (r : bool * DfsState) : Prop :=
  if fst r then exists v, onCycle conns v
  else recursionStack (snd r) = recursionStack st
       /\ forall x, In x (visited st) -> In x (visited (snd r)).

Lemma scanOutgoing_sound (conns : list Connection)
    (recur : string -> DfsState -> option (bool * DfsState))
    (nodeId : string) (stack : list string) :
  (forall t st r, recur t st = Some r -> searchStart conns t st -> searchEnd conns st r) ->
  ~ In nodeId stack ->
  (forall x, In x stack -> clos_trans string (edge conns) x nodeId) ->
  forall outgoing st r,
    (forall c, In c outgoing -> In c conns /\ sourceNodeId c = nodeId) ->
    recursionStack st = stack ++ [nodeId] ->
    (forall x, In x (recursionStack st) -> In x (visited st)) ->
    scanOutgoing recur nodeId outgoing st = Some r ->
    if fst r then exists v, onCycle conns v
    else recursionStack (snd r) = stack
         /\ forall x, In x (visited st) -> In x (visited (snd r)).
Proof.
  intros Hrec Hnew Hpath.
  induction outgoing as [|c rest IH]; intros st r Hout Hst Hsub Hr; simpl in Hr.
  - injection Hr as <-. simpl. rewrite Hst. split; [|auto].
    apply set_delete_added. exact Hnew.
  - assert (Hedge : edge conns nodeId (targetNodeId c)).
    { destruct (Hout c (or_introl eq_refl)) as [Hc Hs]. exists c. auto. }
    assert (Hrest : forall c', In c' rest -> In c' conns /\ sourceNodeId c' = nodeId)
      by (intros c' Hc'; apply Hout; right; exact Hc').
    destruct (includes (visited st) (targetNodeId c)) eqn:Ev; simpl in Hr.
    + destruct (includes (recursionStack st) (targetNodeId c)) eqn:Es.
      * injection Hr as <-. simpl.
        apply includes_In in Es. rewrite Hst in Es.
        apply in_app_or in Es. destruct Es as [Es|[Es|[]]].
        -- exists nodeId. apply t_trans with (targetNodeId c).
           ++ apply t_step. exact Hedge.
           ++ apply Hpath. exact Es.
        -- exists nodeId. apply t_step. rewrite <- Es in Hedge. exact Hedge.
      * apply (IH st r Hrest Hst Hsub Hr).
    + destruct (recur (targetNodeId c) st) as [[b st']|] eqn:Er; [|discriminate].
      assert (Hend : searchEnd conns st (b, st')).
      { apply (Hrec _ _ _ Er). split; [|split].
        - apply includes_not_In. exact Ev.
        - exact Hsub.
        - intros x Hx. rewrite Hst in Hx.
          apply in_app_or in Hx. destruct Hx as [Hx|[Hx|[]]].
          + apply t_trans with nodeId; [apply Hpath; exact Hx | apply t_step; exact Hedge].
          + subst x. apply t_step. exact Hedge. }
      unfold searchEnd in Hend. simpl in Hend. destruct b.
      * injection Hr as <-. exact Hend.
      * destruct Hend as [Hs' Hv'].
        assert (Hst' : recursionStack st' = stack ++ [nodeId]) by congruence.
        assert (Hsub' : forall x, In x (recursionStack st') -> In x (visited st')).
        { intros x Hx. rewrite Hs' in Hx. apply Hv', Hsub. exact Hx. }
        pose proof (IH st' r Hrest Hst' Hsub' Hr) as Hgoal.
        destruct (fst r); [exact Hgoal|].
        destruct Hgoal as [G1 G2]. split; [exact G1|].
        intros x Hx. apply G2, Hv'. exact Hx.
Qed.

Lemma hasCycle_sound (conns : list Connection) (fuel : nat) :
  forall nodeId st r,
    hasCycle fuel conns nodeId st = Some r ->
    searchStart conns nodeId st -> searchEnd conns st r.
Proof.
  induction fuel as [|fuel IH]; intros nodeId st r Hr [Hnew [Hsub Hpath]];
    [discriminate|].
  simpl in Hr.
  assert (Hstack : ~ In nodeId (recursionStack st))
    by (intros H; apply Hnew, Hsub; exact H).
  rewrite (set_add_fresh nodeId (visited st) Hnew),
          (set_add_fresh nodeId (recursionStack st) Hstack) in Hr.
  pose proof (scanOutgoing_sound conns (hasCycle fuel conns) nodeId (recursionStack st)
                IH Hstack Hpath
                (filter (fun c => String.eqb (sourceNodeId c) nodeId) conns)
                {| visited := visited st ++ [nodeId];
                   recursionStack := recursionStack st ++ [nodeId] |} r) as H.
  assert (Hout : forall c,
             In c (filter (fun c => String.eqb (sourceNodeId c) nodeId) conns) ->
             In c conns /\ sourceNodeId c = nodeId).
  { intros c Hc. apply filter_In in Hc. destruct Hc as [H1 H2].
    split; [exact H1 | apply String.eqb_eq; exact H2]. }
  specialize (H Hout eq_refl).
  cbn [visited recursionStack] in H.
  assert (Hs : forall x, In x (recursionStack st ++ [nodeId]) ->
                         In x (visited st ++ [nodeId])).
  { intros x Hx. apply in_app_or in Hx. apply in_or_app.
    destruct Hx as [Hx|Hx]; [left; apply Hsub; exact Hx | right; exact Hx]. }
  specialize (H Hs Hr). unfold searchEnd.
  destruct (fst r); [exact H|]. destruct H as [H1 H2].
  split; [exact H1|]. intros x Hx. apply H2. apply in_or_app. left. exact Hx.
Qed.

Lemma findCycle_sound (conns : list Connection) (l : list NodeInstance) :
  forall st errs,
    recursionStack st = [] ->
    findCycle conns l st = Some errs ->
    errs = [] \/ exists v, onCycle conns v.
Proof.
  induction l as [|n l IH]; intros st errs Hst Hr; cbn [findCycle] in Hr.
  - injection Hr as <-. left. reflexivity.
  - destruct (includes (visited st) (nid n)) eqn:Ev; cbn [negb] in Hr.
    + apply (IH st errs Hst Hr).
    + destruct (hasCycle (S (List.length conns)) conns (nid n) st)
        as [[b st']|] eqn:Eh; [|discriminate].
      assert (Hend : searchEnd conns st (b, st')).
      { apply (hasCycle_sound conns _ _ _ _ Eh). split; [|split].
        - apply includes_not_In. exact Ev.
        - rewrite Hst. intros x [].
        - rewrite Hst. intros x []. }
      unfold searchEnd in Hend. simpl in Hend. destruct b.
      * right. exact Hend.
      * destruct Hend as [Hs' _]. apply (IH st' errs); [congruence | exact Hr].
Qed.

(** X17: [validateWorkflow] raises no false alarm: when its result is not
    valid, the connections contain a cycle, and [getExecutionOrder] leaves
    out a node of that cycle.  For an acyclic graph the result is valid
    and lists no error. *)
Theorem validateWorkflow_cycle_sound
    (getNodeDefinition : string -> option NodeDefinition)
    (l : list NodeInstance) (conns : list Connection) (r : ValidationResult) :
  validateWorkflow getNodeDefinition l conns = Some r ->
  (valid r = false ->
   exists v, onCycle conns v /\ ~ In v (getExecutionOrder l conns))
  /\ (acyclic conns -> valid r = true /\ errors r = []).
Proof.
  intros Hr.
  assert (H : (valid r = true /\ errors r = []) \/ exists v, onCycle conns v).
  { unfold validateWorkflow in Hr. destruct l as [|n l'].
    - injection Hr as <-. left. split; reflexivity.
    - destruct (findCycle conns (n :: l') _) as [errs|] eqn:E; [|discriminate].
      injection Hr as <-. cbn [valid errors].
      destruct (findCycle_sound conns (n :: l')
                  {| visited := []; recursionStack := [] |} errs eq_refl E) as [->|Hc].
      + left. split; reflexivity.
      + right. exact Hc. }
  split.
  - intros Hv. destruct H as [[Hv' _]|[v Hc]]; [congruence|].
    exists v. split; [exact Hc|]. apply getExecutionOrder_skips_cycles. exact Hc.
  - intros Hacyc. destruct H as [H|[v Hc]]; [exact H|].
    exfalso. exact (Hacyc v Hc).
Qed.

Lemma validateWorkflow_cycle_sound_witness :
  exists v, onCycle loopWires v /\ ~ In v (getExecutionOrder chainNodes loopWires).
Proof.
  refine (proj1 (validateWorkflow_cycle_sound textRegistry chainNodes loopWires
                   {| valid := false; errors := [ECycle];
                      warnings := isolatedWarnings chainNodes loopWires
                                  ++ inputWarnings textRegistry chainNodes loopWires |}
                   _) eq_refl).
  reflexivity.
Defined.

(** * Further properties of the translator *)

Lemma truthy_orElse (o : option string) :
  truthy o = true -> o = Some (orElse o "").
Proof.
  destruct o as [s|]; simpl; [|discriminate].
  destruct (String.eqb s ""); [discriminate | reflexivity].
Qed.

Lemma importedIds_values (uuid : nat -> string) (workflowNodes : list ComfyUINode)
    (key : nat) (v : string) :
  forall d m,
    num_get key (importedIds uuid d workflowNodes m) = Some v ->
    num_get key m = Some v
    \/ exists i x, nth_error workflowNodes i = Some x /\ comfyId x = key
                   /\ v = uuid (d + i).
Proof.
  unfold importedIds.
  induction workflowNodes as [|x xs IH]; intros d m H; simpl in H; [left; exact H|].
  destruct (IH _ _ H) as [H1|[i [y [Hy [Ey Ev]]]]].
  - rewrite num_get_set in H1.
    destruct (Nat.eqb_spec (comfyId x) key) as [E|E]; [|left; exact H1].
    right. exists 0, x. injection H1 as <-. rewrite Nat.add_0_r. auto.
  - right. exists (S i), y. rewrite Nat.add_succ_r. auto.
Qed.

Lemma importedNodes_ids (getNodeDefinition : string -> option NodeDefinition)
    (uuid : nat -> string) (workflowNodes : list ComfyUINode) (d i : nat) (x : ComfyUINode) :
  nth_error workflowNodes i = Some x ->
  In (uuid (d + i))
     (List.map nid (importedNodes getNodeDefinition uuid d workflowNodes)).
Proof.
  intros H. unfold importedNodes. rewrite map_map. cbn [nid importNode].
  apply (nth_error_In _ i). rewrite nth_error_map, indexedFrom_nth, H. reflexivity.
Qed.

(** The second loop of the import: every connection it adds comes from a
    link whose two node numbers are in the id map. *)
Lemma importLinks_from_links (uuid : nat -> string) (nodeIdMap : list (nat * string))
    (workflowLinks : list ComfyUILink) :
  forall drawn made,
    let r := fold_left
               (fun acc l =>
                  let sourceId := num_get (linkSourceNode l) nodeIdMap in
                  let targetId := num_get (linkTargetNode l) nodeIdMap in
                  if truthy sourceId && truthy targetId then
                    (fst acc ++
                       [{| cid := uuid (snd acc);
                           sourceNodeId := orElse sourceId "";
                           sourcePortId := outputId (linkSourceSlot l);
                           targetNodeId := orElse targetId "";
                           targetPortId := inputId (linkTargetSlot l);
                           ctype := Some (orElse (map_get (linkType l) comfyTypeMap)
                                                 "any") |}],
                     S (snd acc))
                  else acc)
               workflowLinks (made, drawn) in
    List.length (fst r) <= List.length made + List.length workflowLinks
    /\ forall c, In c (fst r) ->
         In c made
         \/ exists l, In l workflowLinks
              /\ num_get (linkSourceNode l) nodeIdMap = Some (sourceNodeId c)
              /\ num_get (linkTargetNode l) nodeIdMap = Some (targetNodeId c)
              /\ sourcePortId c = outputId (linkSourceSlot l)
              /\ targetPortId c = inputId (linkTargetSlot l).
Proof.
  induction workflowLinks as [|l ls IH]; intros drawn made; simpl.
  - split; [lia | intros c Hc; left; exact Hc].
  - destruct (truthy (num_get (linkSourceNode l) nodeIdMap)) eqn:Es; simpl.
    + destruct (truthy (num_get (linkTargetNode l) nodeIdMap)) eqn:Et; simpl.
      * destruct (IH (S drawn)
                    (made ++
                     [{| cid := uuid drawn;
                         sourceNodeId := orElse (num_get (linkSourceNode l) nodeIdMap) "";
                         sourcePortId := outputId (linkSourceSlot l);
                         targetNodeId := orElse (num_get (linkTargetNode l) nodeIdMap) "";
                         targetPortId := inputId (linkTargetSlot l);
                         ctype := Some (orElse (map_get (linkType l) comfyTypeMap)
                                               "any") |}]))
          as [H1 H2].
        split.
        -- eapply Nat.le_trans; [exact H1|]. rewrite length_app. simpl. lia.
        -- intros c Hc. destruct (H2 c Hc) as [Hm|[l' [Hl' Hrest]]].
           ++ apply in_app_or in Hm. destruct Hm as [Hm|[<-|[]]]; [left; exact Hm|].
              right. exists l. cbn [sourceNodeId targetNodeId sourcePortId targetPortId].
              split; [left; reflexivity|].
              split; [apply truthy_orElse; exact Es|].
              split; [apply truthy_orElse; exact Et|]. split; reflexivity.
           ++ right. exists l'. split; [right; exact Hl' | exact Hrest].
      * destruct (IH drawn made) as [H1 H2].
        split; [eapply Nat.le_trans; [exact H1 | lia]|].
        intros c Hc. destruct (H2 c Hc) as [Hm|[l' [Hl' Hrest]]]; [left; exact Hm|].
        right. exists l'. split; [right; exact Hl' | exact Hrest].
    + destruct (IH drawn made) as [H1 H2].
        split; [eapply Nat.le_trans; [exact H1 | lia]|].
      intros c Hc. destruct (H2 c Hc) as [Hm|[l' [Hl' Hrest]]]; [left; exact Hm|].
      right. exists l'. split; [right; exact Hl' | exact Hrest].
Qed.

(** X18: whatever the external document, the graph that
    [importComfyUIWorkflow] builds is well formed: it has one node per
    external node, at most one connection per link, and every connection
    joins two of the imported nodes, at the ports numbered by the slots of
    its link.  A link to a node number that the document does not have is
    dropped. *)
Theorem importComfyUIWorkflow_attached
    (getNodeDefinition : string -> option NodeDefinition) (uuid : nat -> string)
    (workflow : ComfyUIWorkflow) :
  let r := importComfyUIWorkflow getNodeDefinition uuid workflow in
  List.length (fst r) = List.length (comfyNodes workflow)
  /\ List.length (snd r) <= List.length (comfyLinks workflow)
  /\ attached {| nodes := fst r; connections := snd r; selectedNodeIds := [] |}
  /\ forall c, In c (snd r) ->
       exists l, In l (comfyLinks workflow)
         /\ In (linkSourceNode l) (List.map comfyId (comfyNodes workflow))
         /\ In (linkTargetNode l) (List.map comfyId (comfyNodes workflow))
         /\ sourcePortId c = outputId (linkSourceSlot l)
         /\ targetPortId c = inputId (linkTargetSlot l).
Proof.
  unfold importComfyUIWorkflow. cbv zeta. rewrite importNodes_eq. cbn [fst snd].
  destruct (importLinks_from_links uuid (importedIds uuid 0 (comfyNodes workflow) [])
              (comfyLinks workflow) (List.length (comfyNodes workflow)) [])
    as [H1 H2].
  fold (importLinks uuid (importedIds uuid 0 (comfyNodes workflow) [])
          (List.length (comfyNodes workflow)) (comfyLinks workflow)) in H1, H2.
  assert (Hid : forall key v,
            num_get key (importedIds uuid 0 (comfyNodes workflow) []) = Some v ->
            In key (List.map comfyId (comfyNodes workflow))
            /\ In v (List.map nid (importedNodes getNodeDefinition uuid 0
                                     (comfyNodes workflow)))).
  { intros key v Hv.
    destruct (importedIds_values uuid _ key v 0 [] Hv) as [H|[i [x [Hx [Ek Ev]]]]];
      [discriminate H|].
    split.
    - rewrite <- Ek. apply in_map. apply (nth_error_In _ i Hx).
    - rewrite Ev. apply (importedNodes_ids getNodeDefinition uuid _ 0 i x Hx). }
  split; [|split; [|split]].
  - unfold importedNodes. rewrite length_map. apply indexedFrom_length.
  - simpl in H1. exact H1.
  - intros c Hc. cbn [nodes connections] in *.
    destruct (H2 c Hc) as [[]|[l [_ [Hs [Ht _]]]]].
    split; [apply (Hid _ _ Hs) | apply (Hid _ _ Ht)].
  - intros c Hc. destruct (H2 c Hc) as [[]|[l [Hl [Hs [Ht [Hp1 Hp2]]]]]].
    exists l. split; [exact Hl|].
    split; [apply (Hid _ _ Hs)|]. split; [apply (Hid _ _ Ht)|]. auto.
Qed.

Lemma exportedIds_range (l : list NodeInstance) (x : string) (v : nat) :
  forall k m,
    map_get x (exportedIds k l m) = Some v ->
    map_get x m = Some v \/ (k <= v /\ v < k + List.length l).
Proof.
  unfold exportedIds.
  induction l as [|n ns IH]; intros k m H; simpl in H; [left; exact H|].
  destruct (IH _ _ H) as [H1|H1].
  - cbn [fst snd] in H1. rewrite map_get_set in H1.
    destruct (String.eqb (nid n) x); [|left; exact H1].
    injection H1 as <-. right. simpl. lia.
  - right. simpl. lia.
Qed.

(** The second loop of the export numbers the links it makes from the
    counter on, and takes their node numbers from the id map. *)
Lemma exportLinks_numbering (l : list NodeInstance) (nodeIdMap : JsMap nat)
    (conns : list Connection) :
  forall acc,
    let acc' := fold_left (exportLink l nodeIdMap) conns acc in
    exists made,
      snd (fst acc') = snd (fst acc) ++ made
      /\ snd acc' = snd acc + List.length made
      /\ List.map linkId made = seq (snd acc) (List.length made)
      /\ List.length made <= List.length conns
      /\ forall x, In x made ->
           exists c, In c conns
             /\ map_get (sourceNodeId c) nodeIdMap = Some (linkSourceNode x)
             /\ map_get (targetNodeId c) nodeIdMap = Some (linkTargetNode x).
Proof.
  induction conns as [|c cs IH]; intros acc; simpl.
  - exists []. rewrite app_nil_r, Nat.add_0_r.
    split; [reflexivity|]. split; [reflexivity|]. split; [reflexivity|].
    split; [simpl; lia | intros x []].
  - destruct (IH (exportLink l nodeIdMap acc c)) as [made [E1 [E2 [E3 [E4 E5]]]]].
    assert (Hkeep : forall x, In x made ->
              exists c', In c' (c :: cs)
                /\ map_get (sourceNodeId c') nodeIdMap = Some (linkSourceNode x)
                /\ map_get (targetNodeId c') nodeIdMap = Some (linkTargetNode x)).
    { intros x Hx. destruct (E5 x Hx) as [c' [Hc' Hr]]. exists c'. split; [right|]; auto. }
    unfold exportLink in E1, E2, E3 |- *.
    destruct (map_get (sourceNodeId c) nodeIdMap) as [sid|] eqn:Es;
      [|exists made; repeat split; auto; lia].
    destruct (map_get (targetNodeId c) nodeIdMap) as [tid|] eqn:Et;
      [|exists made; repeat split; auto; lia].
    destruct (find (fun n => String.eqb (nid n) (sourceNodeId c)) l) as [sn|];
      [|exists made; repeat split; auto; lia].
    destruct (find (fun n => String.eqb (nid n) (targetNodeId c)) l) as [tn|];
      [|exists made; repeat split; auto; lia].
    destruct (findIndex _ (outputs sn)) as [so|];
      [|exists made; repeat split; auto; lia].
    destruct (findIndex _ (inputs tn)) as [ts|];
      [|exists made; repeat split; auto; lia].
    cbn [fst snd] in E1, E2, E3.
    eexists (_ :: made). split; [rewrite E1, <- app_assoc; reflexivity|].
    split; [rewrite E2; simpl; lia|].
    split; [simpl; rewrite E3; reflexivity|].
    split; [simpl; lia|].
    intros x [<-|Hx]; [|apply Hkeep; exact Hx].
    exists c. cbn [linkSourceNode linkTargetNode]. split; [left; reflexivity | auto].
Qed.

(** X19: the document that [exportToComfyUIWorkflow] writes is consistent,
    whatever the graph: its nodes are numbered 1 to [n] in the order of the
    node list and [last_node_id] is [n]; its links are numbered 1 to [m] and
    [last_link_id] is [m], with at most one link per connection; and the
    two node numbers of every link are numbers of nodes of the document. *)
Theorem exportToComfyUIWorkflow_numbering (l : list NodeInstance)
    (conns : list Connection) :
  let doc := exportToComfyUIWorkflow l conns in
  List.map comfyId (comfyNodes doc) = seq 1 (List.length l)
  /\ last_node_id doc = List.length l
  /\ List.map linkId (comfyLinks doc) = seq 1 (List.length (comfyLinks doc))
  /\ last_link_id doc = List.length (comfyLinks doc)
  /\ List.length (comfyLinks doc) <= List.length conns
  /\ forall x, In x (comfyLinks doc) ->
       In (linkSourceNode x) (List.map comfyId (comfyNodes doc))
       /\ In (linkTargetNode x) (List.map comfyId (comfyNodes doc)).
Proof.
  intros doc.
  assert (Hids : List.map comfyId (comfyNodes doc) = seq 1 (List.length l)).
  { unfold doc. rewrite exported_ids, exported_length. reflexivity. }
  unfold doc, exportToComfyUIWorkflow in *. cbv zeta in *.
  rewrite exportNodes_eq in *. cbn [fst snd last_node_id last_link_id comfyNodes
                                      comfyLinks] in *.
  destruct (exportLinks_numbering l (exportedIds 1 l []) conns
              (exportedNodes 1 l, [], 1)) as [made [E1 [E2 [E3 [E4 E5]]]]].
  cbn [fst snd] in E1, E2, E3. simpl in E1.
  rewrite E1, E2, Hids.
  split; [reflexivity|]. split; [lia|]. split; [exact E3|]. split; [lia|].
  split; [exact E4|].
  intros x Hx. destruct (E5 x Hx) as [c [_ [Hs Ht]]].
  split; apply in_seq.
  - destruct (exportedIds_range l _ _ 1 [] Hs) as [H|H]; [discriminate H | lia].
  - destruct (exportedIds_range l _ _ 1 [] Ht) as [H|H]; [discriminate H | lia].
Qed.

(** A port type tag through the export and back through the import. *)
Definition roundTripType (t : PortType) : PortType :=
  orElse (map_get (orElse (map_get t reverseTypeMap) "STRING") comfyTypeMap) "any".

Lemma roundTripType_spec (t : PortType) :
  roundTripType t = if includes (map_values comfyTypeMap) t then t else "text".
Proof.
  destruct (includes (map_values comfyTypeMap) t) eqn:E.
  - apply includes_In in E. simpl in E.
    repeat (destruct E as [<-|E]; [reflexivity|]). destruct E.
  - apply includes_not_In in E. unfold roundTripType.
    rewrite (map_get_absent t reverseTypeMap); [reflexivity|]. exact E.
Qed.

(** X20: ports through the node steps of the export and of the import
    ([exportNode], then [importInputs] and [importOutputs]): the port at
    position [i] of a node is read back at position [i] under the id
    [input-i] (or [output-i]) with its name, and with its type tag if that
    is one of the twelve tags of the translator's dictionary; any other tag
    (such as [any]) comes back as [text]. *)
Theorem port_round_trip (n : NodeInstance) (k i : nat) (p : Port) :
  (nth_error (inputs n) i = Some p ->
   exists q, nth_error (importInputs (exportNode k n)) i = Some q
     /\ pid q = inputId i /\ pname q = pname p
     /\ ptype q = (if includes (map_values comfyTypeMap) (ptype p)
                   then ptype p else "text"))
  /\ (nth_error (outputs n) i = Some p ->
      exists q, nth_error (importOutputs (exportNode k n)) i = Some q
        /\ pid q = outputId i /\ pname q = pname p
        /\ ptype q = (if includes (map_values comfyTypeMap) (ptype p)
                      then ptype p else "text")).
Proof.
  split; intros H.
  - unfold importInputs, exportNode. cbn [comfyInputs orNil].
    rewrite nth_error_made_ports, nth_error_map, H. simpl.
    eexists. split; [reflexivity|]. cbn [pid pname ptype].
    split; [reflexivity|]. split; [reflexivity|].
    apply roundTripType_spec.
  - unfold importOutputs, exportNode. cbn [comfyOutputs orNil].
    rewrite nth_error_made_ports, nth_error_map.
    unfold indexed. rewrite indexedFrom_nth, H. simpl.
    eexists. split; [reflexivity|]. cbn [pid pname ptype].
    split; [reflexivity|]. split; [reflexivity|].
    apply roundTripType_spec.
Qed.

Lemma port_round_trip_witness :
  exists q, nth_error (importOutputs (exportNode 1 nodeA)) 0 = Some q
    /\ pid q = "output-0" /\ pname q = "output-0" /\ ptype q = "text".
Proof.
  exact (proj2 (port_round_trip nodeA 1 0 (plainPort "output-0" output true)) eq_refl).
Defined.

(** The inputs of a definition that carry a widget. *)
Definition widgetInputs (definition : NodeDefinition) : list PortSpec :=
  filter (fun i => isSome (swidget i)) (dinputs definition).

Lemma skipn_nth {A : Type} (l : list A) (w : nat) :
  skipn w l = match nth_error l w with
              | Some v => v :: skipn (S w) l
              | None => []
              end.
Proof.
  revert w. induction l as [|x l IH]; intros w; destruct w; simpl; try reflexivity.
  rewrite IH. destruct (nth_error l w); reflexivity.
Qed.

Lemma pluginImportData_fold (values : list JsValue) (l : list PortSpec) :
  forall made w,
    NoDup (map_keys made
           ++ List.map sname (filter (fun i => isSome (swidget i)) l)) ->
    fst (fold_left
           (fun acc input =>
              let widgetIndex := snd acc in
              match swidget input, nth_error values widgetIndex with
              | Some _, Some v => (map_set (sname input) v (fst acc), S widgetIndex)
              | _, _ => acc
              end) l (made, w))
    = made ++ combine (List.map sname (filter (fun i => isSome (swidget i)) l))
                      (skipn w values).
Proof.
  induction l as [|x l IH]; intros made w Hnd; simpl.
  - rewrite app_nil_r. reflexivity.
  - simpl in Hnd. destruct (swidget x) as [wd|] eqn:Ew; simpl in *.
    + rewrite (skipn_nth values w).
      destruct (nth_error values w) as [v|] eqn:Ev.
      * assert (Hfresh : ~ In (sname x) (map_keys made)).
        { apply NoDup_remove_2 in Hnd. intros H. apply Hnd. apply in_or_app.
          left. exact H. }
        rewrite IH.
        -- rewrite (map_set_fresh _ _ _ Hfresh), <- app_assoc. reflexivity.
        -- rewrite (map_set_fresh _ _ _ Hfresh). unfold map_keys in *.
           rewrite map_app, <- app_assoc. exact Hnd.
      * rewrite IH.
        -- rewrite (skipn_nth values w), Ev. rewrite combine_nil. reflexivity.
        -- apply NoDup_remove_1 in Hnd. exact Hnd.
    + apply IH. exact Hnd.
Qed.

(** X21: the widget step of [PluginManager.importComfyWorkflow] is
    positional over the inputs that carry a widget: when their names are
    distinct, the literal data of the imported node pair the [k]-th such
    input with the [k]-th widget value, for as many as both lists hold. *)
Theorem pluginImportData_positional (definition : NodeDefinition)
    (values : list JsValue) :
  NoDup (List.map sname (widgetInputs definition)) ->
  pluginImportData definition (Some values)
  = combine (List.map sname (widgetInputs definition)) values.
Proof.
  intros H.
  exact (pluginImportData_fold values (dinputs definition) [] 0 H).
Qed.

Lemma pluginImportData_positional_witness :
  pluginImportData loraDefinition (Some [JStr "style.safetensors"; JNum 1; JNum 2])
  = combine (List.map sname (widgetInputs loraDefinition))
            [JStr "style.safetensors"; JNum 1; JNum 2].
Proof.
  apply (pluginImportData_positional loraDefinition).
  repeat constructor; simpl; intuition discriminate.
Defined.

(** * The registry of custom nodes *)

Lemma find_app_first {A : Type} (p : A -> bool) (l1 l2 : list A) :
  find p (l1 ++ l2) = match find p l1 with
                      | Some y => Some y
                      | None => find p l2
                      end.
Proof.
  induction l1 as [|x l1 IH]; simpl; [reflexivity|].
  destruct (p x); [reflexivity | exact IH].
Qed.

Section CustomNodesFacts.
Variable Config : Type.
Variable configId : Config -> string.

Lemma replaceAt_found (p : Config -> bool) (x : Config) (l : list Config) (i : nat) :
  findIndex p l = Some i -> p x = true ->
  find p (replaceAt Config i x l) = Some x
  /\ List.length (replaceAt Config i x l) = List.length l.
Proof.
  revert i. induction l as [|y l IH]; intros i H Hx; simpl in H; [discriminate|].
  destruct (p y) eqn:Ey.
  - injection H as <-. simpl. rewrite Hx. auto.
  - destruct (findIndex p l) as [j|] eqn:Ej; [|discriminate].
    injection H as <-. simpl. rewrite Ey.
    destruct (IH j eq_refl Hx) as [H1 H2]. rewrite H1, H2. auto.
Qed.

Lemma replaceAt_ids (x : Config) (l : list Config) (i : nat) :
  findIndex (fun n => String.eqb (configId n) (configId x)) l = Some i ->
  List.map configId (replaceAt Config i x l) = List.map configId l.
Proof.
  revert i. induction l as [|y l IH]; intros i H; simpl in H; [discriminate|].
  destruct (String.eqb_spec (configId y) (configId x)) as [E|E].
  - injection H as <-. simpl. rewrite E. reflexivity.
  - destruct (findIndex _ l) as [j|] eqn:Ej; [|discriminate].
    injection H as <-. simpl. rewrite (IH j eq_refl). reflexivity.
Qed.

Lemma replaceAt_other (x : Config) (l : list Config) (i : nat) (id : string) :
  findIndex (fun n => String.eqb (configId n) (configId x)) l = Some i ->
  id <> configId x ->
  find (fun n => String.eqb (configId n) id) (replaceAt Config i x l)
  = find (fun n => String.eqb (configId n) id) l.
Proof.
  intros H Hid. revert i H.
  induction l as [|y l IH]; intros i H; simpl in H; [discriminate|].
  destruct (String.eqb_spec (configId y) (configId x)) as [E|E].
  - injection H as <-. simpl.
    destruct (String.eqb_spec (configId x) id) as [E1|E1]; [congruence|].
    destruct (String.eqb_spec (configId y) id) as [E2|E2]; [congruence|].
    reflexivity.
  - destruct (findIndex _ l) as [j|] eqn:Ej; [|discriminate].
    injection H as <-. simpl. rewrite (IH j eq_refl). reflexivity.
Qed.

Lemma findIndex_absent (p : Config -> bool) (l : list Config) :
  findIndex p l = None -> forall y, In y l -> p y = false.
Proof.
  induction l as [|x l IH]; intros H y Hy; simpl in *; [destruct Hy|].
  destruct (p x) eqn:E; [discriminate|].
  destruct (findIndex p l); [discriminate|].
  destruct Hy as [<-|Hy]; [exact E | apply IH; auto].
Qed.

(** X22: the registry of custom nodes holds one configuration per id.
    When the ids of the registry are distinct, after [addCustomNode] they
    are still distinct, the configuration found under the id of the new one
    is the new one, and the configuration found under any other id is as
    before; a configuration whose id is registered is replaced in place,
    otherwise it is appended.  [removeCustomNode] of that id afterwards
    leaves what removing it before would have left. *)
Theorem addCustomNode_registry (config : Config) (customNodes : list Config) :
  NoDup (List.map configId customNodes) ->
  let added := addCustomNode Config configId config customNodes in
  NoDup (List.map configId added)
  /\ find (fun n => String.eqb (configId n) (configId config)) added = Some config
  /\ (forall id, id <> configId config ->
        find (fun n => String.eqb (configId n) id) added
        = find (fun n => String.eqb (configId n) id) customNodes)
  /\ List.map configId added
     = (if includes (List.map configId customNodes) (configId config)
        then List.map configId customNodes
        else List.map configId customNodes ++ [configId config])
  /\ removeCustomNode Config configId (configId config) added
     = removeCustomNode Config configId (configId config) customNodes.
Proof.
  intros Hnd added. unfold added, addCustomNode, removeCustomNode.
  destruct (findIndex (fun n => String.eqb (configId n) (configId config)) customNodes)
    as [i|] eqn:E.
  - pose proof (replaceAt_ids config customNodes i E) as Hids.
    destruct (findIndex_Some _ _ _ E) as [y [Hy [_ Ey]]].
    assert (Hin : In (configId config) (List.map configId customNodes)).
    { apply String.eqb_eq in Ey. rewrite <- Ey. apply in_map.
      apply (nth_error_In _ i Hy). }
    apply includes_In in Hin. rewrite Hin, Hids.
    split; [exact Hnd|].
    split; [apply (replaceAt_found _ config customNodes i E); apply String.eqb_refl|].
    split; [intros id Hid; apply (replaceAt_other config customNodes i id E Hid)|].
    split; [reflexivity|].
    clear Hids Hin Hy Ey Hnd. revert i E.
    induction customNodes as [|z l IH]; intros i E; simpl in E; [discriminate|].
    destruct (String.eqb_spec (configId z) (configId config)) as [Ez|Ez].
    + injection E as <-. simpl. rewrite String.eqb_refl, Ez, String.eqb_refl.
      reflexivity.
    + destruct (findIndex _ l) as [j|] eqn:Ej; [|discriminate].
      injection E as <-. simpl.
      destruct (String.eqb_spec (configId z) (configId config)) as [|_];
        [contradiction|].
      simpl. rewrite (IH j eq_refl). reflexivity.
  - pose proof (findIndex_absent _ _ E) as Habs.
    assert (Hout : ~ In (configId config) (List.map configId customNodes)).
    { intros H. apply in_map_iff in H. destruct H as [y [Ey Hy]].
      specialize (Habs y Hy). simpl in Habs. rewrite Ey, String.eqb_refl in Habs.
      discriminate. }
    pose proof Hout as Hinc. apply includes_not_In in Hinc. rewrite Hinc.
    rewrite map_app. simpl.
    split.
    { apply NoDup_app; [exact Hnd | repeat constructor; simpl; tauto |].
      intros x Hx [<-|[]]. contradiction. }
    split; [apply find_app_last; [exact Habs | apply String.eqb_refl]|].
    split.
    { intros id Hid. rewrite find_app_first. simpl.
      destruct (find _ customNodes); [reflexivity|].
      destruct (String.eqb_spec (configId config) id); [congruence | reflexivity]. }
    split; [reflexivity|].
    rewrite filter_app. simpl. rewrite String.eqb_refl. simpl. apply app_nil_r.
Qed.
End CustomNodesFacts.

Lemma addCustomNode_registry_witness :
  find (fun n => String.eqb (fst n) "n1")
       (addCustomNode (string * nat) fst ("n1", 2) [("n0", 0); ("n1", 1)])
  = Some ("n1", 2)
  /\ NoDup (List.map fst
              (addCustomNode (string * nat) fst ("n1", 2) [("n0", 0); ("n1", 1)])).
Proof.
  destruct (addCustomNode_registry (string * nat) fst ("n1", 2) [("n0", 0); ("n1", 1)])
    as [H1 [H2 _]].
  - repeat constructor; simpl; intuition discriminate.
  - split; [exact H2 | exact H1].
Defined.

(** * The error callback *)

(** The error calls that [executeNode] itself makes: none when it returns
    and none for a kind without definition, which is thrown before the
    [try]; one when the capability call throws. *)
Lemma executeNode_error_calls (getNodeDefinition : string -> option NodeDefinition)
    (capability : NodeInstance -> JsMap JsValue -> CapabilityResult)
    (conns : list Connection) (node : NodeInstance)
    (outputsSoFar : JsMap (JsMap JsValue)) :
  let r := executeNode getNodeDefinition capability node conns outputsSoFar in
  errorCalls (fst r)
  = match snd r, getNodeDefinition (ntype node) with
    | inr _, Some _ => [nid node]
    | _, _ => []
    end.
Proof.
  unfold executeNode. cbv zeta.
  destruct (getNodeDefinition (ntype node)); [|reflexivity].
  destruct (capability node _) as [reported outputs|reported thrown]; simpl;
    rewrite errorCalls_app, errorCalls_progress; reflexivity.
Qed.

Lemma count_occ_absent (l : list string) (x : string) :
  ~ In x l -> count_occ string_dec l x = 0.
Proof. apply count_occ_not_In. Qed.

(** The number of error calls for each attempted node. *)
Definition errorCount (getNodeDefinition : string -> option NodeDefinition)
    (allNodes : list NodeInstance) (st : RunState) (nodeId : string) : nat :=
  match map_get nodeId (nodeOutputs st),
        find (fun n => String.eqb (nid n) nodeId) allNodes with
  | Some _, _ => 0
  | None, None => 0
  | None, Some n => match getNodeDefinition (ntype n) with
                    | None => 1
                    | Some _ => 2
                    end
  end.

Lemma runNode_error_count (getNodeDefinition : string -> option NodeDefinition)
    (capability : NodeInstance -> JsMap JsValue -> CapabilityResult)
    (allNodes : list NodeInstance) (allConnections : list Connection)
    (st : RunState) (nodeId : string) :
  runInvariant st -> ~ In nodeId (attempted st) ->
  (forall x, In x (attempted st) ->
     count_occ string_dec (errorCalls (trace st)) x
     = errorCount getNodeDefinition allNodes st x) ->
  let st' := runNode getNodeDefinition capability allNodes allConnections st nodeId in
  forall x, In x (attempted st') ->
    count_occ string_dec (errorCalls (trace st')) x
    = errorCount getNodeDefinition allNodes st' x.
Proof.
  intros Inv Hnew Hcount. unfold runNode.
  destruct (find (fun n => String.eqb (nid n) nodeId) allNodes) as [node|] eqn:F;
    [|exact Hcount].
  pose proof (find_first_id _ _ _ F) as Hid.
  pose proof (executeNode_error_calls getNodeDefinition capability allConnections node
                (nodeOutputs st)) as Hcalls.
  cbv zeta in Hcalls.
  assert (Hfresh : ~ In nodeId (map_keys (nodeOutputs st))).
  { intros H. apply Hnew. apply runInvariant_keys_attempted; assumption. }
  assert (Herr : ~ In nodeId (errorCalls (trace st))).
  { intros H. apply Hnew. apply runInvariant_errors_attempted; assumption. }
  set (r := executeNode getNodeDefinition capability node allConnections (nodeOutputs st))
    in *.
  destruct (snd r) as [o|thrown] eqn:Er; cbv zeta; cbn [attempted trace nodeOutputs];
    intros x Hx; unfold errorCount; cbn [nodeOutputs];
    rewrite !errorCalls_app, !count_occ_app, Hcalls.
  - rewrite map_get_set. destruct (String.eqb_spec nodeId x) as [E|E].
    + subst x. simpl. rewrite (count_occ_absent _ _ Herr). reflexivity.
    + simpl. rewrite !Nat.add_0_r.
      apply in_app_or in Hx. destruct Hx as [Hx|[Hx|[]]]; [|contradiction].
      apply (Hcount x Hx).
  - destruct (String.eqb_spec nodeId x) as [E|E].
    + subst x. rewrite (count_occ_absent _ _ Herr), (map_get_absent _ _ Hfresh), F.
      rewrite Hid.
      destruct (getNodeDefinition (ntype node)); simpl;
        destruct (string_dec nodeId nodeId); try contradiction; reflexivity.
    + apply in_app_or in Hx. destruct Hx as [Hx|[Hx|[]]]; [|contradiction].
      rewrite (Hcount x Hx). unfold errorCount.
      assert (E1 : count_occ string_dec
                     match getNodeDefinition (ntype node) with
                     | Some _ => [nid node]
                     | None => []
                     end x = 0).
      { destruct (getNodeDefinition (ntype node)); [|reflexivity].
        simpl. rewrite Hid. destruct (string_dec nodeId x); [contradiction|reflexivity]. }
      rewrite E1. simpl. destruct (string_dec nodeId x); [contradiction|]. lia.
Qed.

Lemma run_error_count (getNodeDefinition : string -> option NodeDefinition)
    (capability : NodeInstance -> JsMap JsValue -> CapabilityResult)
    (allNodes : list NodeInstance) (allConnections : list Connection)
    (order : list string) :
  forall st, NoDup order ->
    (forall x, In x order -> ~ In x (attempted st)) ->
    runInvariant st ->
    (forall x, In x (attempted st) ->
       count_occ string_dec (errorCalls (trace st)) x
       = errorCount getNodeDefinition allNodes st x) ->
    let st' := fold_left (runNode getNodeDefinition capability allNodes allConnections)
                         order st in
    forall x, In x (attempted st') ->
      count_occ string_dec (errorCalls (trace st')) x
      = errorCount getNodeDefinition allNodes st' x.
Proof.
  induction order as [|y ys IH]; intros st Hnd Hnew Inv Hcount; simpl; [exact Hcount|].
  inversion Hnd as [|z l Hy Hys]; subst.
  assert (Hy' : ~ In y (attempted st)) by (apply Hnew; left; reflexivity).
  apply IH; [exact Hys | | apply runNode_invariant; assumption
             | apply runNode_error_count; assumption].
  intros z Hz Hin.
  assert (Hsub : In z (attempted st ++ [y])).
  { unfold runNode in Hin.
    destruct (find (fun n => String.eqb (nid n) y) allNodes) as [node|].
    - destruct (snd (executeNode getNodeDefinition capability node allConnections
                       (nodeOutputs st))); exact Hin.
    - apply in_or_app. left. exact Hin. }
  apply in_app_or in Hsub. destruct Hsub as [H|[H|[]]].
  - apply (Hnew z (or_intror Hz) H).
  - subst z. contradiction.
Qed.

(** X23: how often [executeWorkflow] calls the error callback for a node
    it attempts: never when the node leaves outputs; once when its kind has
    no definition; twice when its capability call throws, once from
    [executeNode], which rethrows, and once from [executeWorkflow]. *)
Theorem executeWorkflow_error_calls
    (getNodeDefinition : string -> option NodeDefinition)
    (capability : NodeInstance -> JsMap JsValue -> CapabilityResult)
    (allNodes : list NodeInstance) (allConnections : list Connection)
    (nodeId : string) (node : NodeInstance) :
  let run := executeWorkflow getNodeDefinition capability allNodes allConnections in
  In nodeId (attempted run) ->
  find (fun n => String.eqb (nid n) nodeId) allNodes = Some node ->
  count_occ string_dec (errorCalls (trace run)) nodeId
  = match map_get nodeId (nodeOutputs run), getNodeDefinition (ntype node) with
    | Some _, _ => 0
    | None, None => 1
    | None, Some _ => 2
    end.
Proof.
  intros run Hin Hfind.
  pose proof (run_error_count getNodeDefinition capability allNodes allConnections
                (getExecutionOrder allNodes allConnections)
                {| nodeOutputs := []; trace := []; attempted := [] |}
                (getExecutionOrder_NoDup allNodes allConnections)) as H.
  cbv zeta in H. fold (executeWorkflow getNodeDefinition capability allNodes
                         allConnections) in H. fold run in H.
  rewrite H; [unfold errorCount; rewrite Hfind; reflexivity | | | | exact Hin].
  - intros x _ [].
  - constructor; simpl.
    + reflexivity.
    + intros e [].
    + reflexivity.
    + intros x o [].
    + intros x [].
  - intros x [].
Qed.

Lemma executeWorkflow_error_calls_witness :
  count_occ string_dec
    (errorCalls (trace (executeWorkflow textRegistry failingAtB [nodeA; nodeB; nodeC]
                                        [wireAB; wireBC]))) "B"
  = 2.
Proof.
  exact (executeWorkflow_error_calls textRegistry failingAtB [nodeA; nodeB; nodeC]
           [wireAB; wireBC] "B" nodeB
           (or_intror (or_introl eq_refl)) eq_refl).
Defined.

(** * The plugin registry *)

(** [Map.prototype.delete]. *)
Definition map_delete {V : Type} (k : string) (m : JsMap V) : JsMap V :=
  filter (fun e => negb (String.eqb (fst e) k)) m.

Module PluginManager.

(** The dictionary of [mapComfyType], a plain object read by its entries
    (see [objectPrototypeKeys]). *)
Definition typeMap : JsMap string :=
  [ ("IMAGE", "image"); ("LATENT", "latent"); ("MODEL", "model"); ("CLIP", "clip");
    ("VAE", "vae"); ("CONDITIONING", "conditioning"); ("MASK", "mask");
    ("CONTROL_NET", "control_net"); ("INT", "int"); ("FLOAT", "float");
    ("STRING", "text"); ("BOOLEAN", "boolean") ].

Definition mapComfyType (comfyType : string) : PortType :=
  orElse (map_get comfyType typeMap) "any".

Section Registry.
(** An input specification is untyped data; [parseComfyInput] reads the
    port type, the widget and the default value out of it. *)
Variable ComfyUIInputSpec : Type.
Variable parseComfyInput :
  string -> ComfyUIInputSpec -> PortType * option WidgetConfig * option JsValue.

Record ComfyUINodeDefinition : Type := {
  name : string;
  display_name : string;
  inputRequired : option (JsMap ComfyUIInputSpec);
  inputOptional : option (JsMap ComfyUIInputSpec);
  output : list string;
  output_name : option (list string)
}.

Record Plugin : Type := {
  id : string;
  enabled : bool;
  pluginNodes : list ComfyUINodeDefinition
}.

Definition withDefault (entryName : string) (defaultValue : option JsValue)
    (defaultData : JsMap JsValue) : JsMap JsValue :=
  match defaultValue with
  | Some v => if isUndefined v then defaultData else map_set entryName v defaultData
  | None => defaultData
  end.

Definition plainInput (entryName : string) (portType : PortType)
    (w : option WidgetConfig) : PortSpec :=
  {| sname := entryName; stype := portType; sconnected := None;
     sisReferenceInput := None; swidget := w |}.

(** The body of the loop over [input.required]. *)
Definition requiredInput (acc : list PortSpec * JsMap JsValue)
    (entry : string * ComfyUIInputSpec) : list PortSpec * JsMap JsValue :=
  match parseComfyInput (fst entry) (snd entry) with
  | (portType, Some w, defaultValue) =>
      (fst acc ++ [plainInput (fst entry) portType (Some w)],
       withDefault (fst entry) defaultValue (snd acc))
  | (portType, None, _) =>
      (fst acc ++ [plainInput (fst entry) portType None], snd acc)
  end.

(** The body of the loop over [input.optional]. *)
Definition optionalInput (acc : list PortSpec * JsMap JsValue)
    (entry : string * ComfyUIInputSpec) : list PortSpec * JsMap JsValue :=
  match parseComfyInput (fst entry) (snd entry) with
  | (portType, w, defaultValue) =>
      (fst acc ++ [plainInput (fst entry) portType w],
       withDefault (fst entry) defaultValue (snd acc))
  end.

Definition convertComfyNodeToInternal (comfyNode : ComfyUINodeDefinition)
    (pluginId : string) : NodeDefinition :=
  let afterRequired :=
    match inputRequired comfyNode with
    | Some required => fold_left requiredInput required ([], [])
    | None => ([], [])
    end in
  let afterOptional :=
    match inputOptional comfyNode with
    | Some optional => fold_left optionalInput optional afterRequired
    | None => afterRequired
    end in
  {| dtype := "comfy-" ++ name comfyNode;
     dname := orElse (Some (display_name comfyNode)) (name comfyNode);
     dinputs := fst afterOptional;
     doutputs :=
       List.map (fun ip =>
                   plainInput
                     (orElse (match output_name comfyNode with
                              | Some names => nth_error names (fst ip)
                              | None => None
                              end) (snd ip))
                     (mapComfyType (snd ip)) None)
                (indexed (output comfyNode));
     defaultData := Some (snd afterOptional) |}.

(** The two maps of the manager. *)
Record State : Type := {
  plugins : JsMap Plugin;
  customNodes : JsMap NodeDefinition
}.

(** [plugin.nodes.forEach]: the definitions of a plugin are set. *)
Definition setNodes (plugin : Plugin) (m : JsMap NodeDefinition)
    : JsMap NodeDefinition :=
  fold_left (fun m comfyNode =>
               let nodeDefinition := convertComfyNodeToInternal comfyNode (id plugin) in
               map_set (dtype nodeDefinition) nodeDefinition m)
            (pluginNodes plugin) m.

(** [plugin.nodes.forEach]: the definitions named as its nodes are
    deleted. *)
Definition deleteNodes (plugin : Plugin) (m : JsMap NodeDefinition)
    : JsMap NodeDefinition :=
  fold_left (fun m comfyNode => map_delete ("comfy-" ++ name comfyNode) m)
            (pluginNodes plugin) m.

Definition registerPlugin (plugin : Plugin) (st : State) : State :=
  {| plugins := map_set (id plugin) plugin (plugins st);
     customNodes := if enabled plugin then setNodes plugin (customNodes st)
                    else customNodes st |}.

Definition unregisterPlugin (pluginId : string) (st : State) : State :=
  match map_get pluginId (plugins st) with
  | None => st
  | Some plugin =>
      {| plugins := map_delete pluginId (plugins st);
         customNodes := deleteNodes plugin (customNodes st) |}
  end.

(** [togglePlugin]; the assignment to [plugin.enabled] changes the plugin
    that the map holds. *)
Definition togglePlugin (pluginId : string) (flag : bool) (st : State) : State :=
  match map_get pluginId (plugins st) with
  | None => st
  | Some plugin =>
      let plugin' := {| id := id plugin; enabled := flag;
                        pluginNodes := pluginNodes plugin |} in
      {| plugins := map_set pluginId plugin' (plugins st);
         customNodes := if flag then setNodes plugin' (customNodes st)
                        else deleteNodes plugin' (customNodes st) |}
  end.

Definition getNodeDefinition (type : string) (st : State) : option NodeDefinition :=
  map_get type (customNodes st).
End Registry.
End PluginManager.

Lemma map_get_delete {V : Type} (k k' : string) (m : JsMap V) :
  map_get k' (map_delete k m) = if String.eqb k k' then None else map_get k' m.
Proof.
  unfold map_delete. induction m as [|[k0 v0] m IH]; simpl.
  - destruct (String.eqb k k'); reflexivity.
  - destruct (String.eqb_spec k0 k) as [E|E]; simpl.
    + subst k0. rewrite IH. destruct (String.eqb k k'); reflexivity.
    + rewrite IH. destruct (String.eqb_spec k0 k') as [E1|E1]; [|reflexivity].
      subst k0. destruct (String.eqb_spec k k') as [E2|E2]; [congruence | reflexivity].
Qed.

Section PluginRegistryFacts.
Variable Spec : Type.
Variable parse : string -> Spec -> PortType * option WidgetConfig * option JsValue.


(** The type under which the definition of a node is registered. *)
Definition kindOf (cn : PluginManager.ComfyUINodeDefinition Spec) : string :=
  "comfy-" ++ PluginManager.name Spec cn.

Lemma deleteNodes_get (plugin : PluginManager.Plugin Spec) (key : string) :
  forall m,
    map_get key (PluginManager.deleteNodes Spec plugin m)
    = if existsb (fun cn => String.eqb (kindOf cn) key)
                 (PluginManager.pluginNodes Spec plugin)
      then None else map_get key m.
Proof.
  unfold PluginManager.deleteNodes.
  induction (PluginManager.pluginNodes Spec plugin) as [|cn l IH]; intros m; simpl;
    [reflexivity|].
  rewrite IH.
  destruct (existsb _ l); [rewrite orb_true_r; reflexivity|].
  rewrite orb_false_r. apply map_get_delete.
Qed.

Lemma setNodes_get (plugin : PluginManager.Plugin Spec) (key : string) :
  forall m,
    (forall k d, map_get k m = Some d -> dtype d = k) ->
    (forall d, map_get key (PluginManager.setNodes Spec parse plugin m) = Some d ->
               dtype d = key)
    /\ (existsb (fun cn => String.eqb (kindOf cn) key)
                (PluginManager.pluginNodes Spec plugin) = true ->
        exists cn, In cn (PluginManager.pluginNodes Spec plugin)
          /\ kindOf cn = key
          /\ map_get key (PluginManager.setNodes Spec parse plugin m)
             = Some (PluginManager.convertComfyNodeToInternal Spec parse cn (PluginManager.id Spec plugin)))
    /\ (existsb (fun cn => String.eqb (kindOf cn) key)
                (PluginManager.pluginNodes Spec plugin) = false ->
        map_get key (PluginManager.setNodes Spec parse plugin m) = map_get key m).
Proof.
  unfold PluginManager.setNodes.
  induction (PluginManager.pluginNodes Spec plugin) as [|cn l IH]; intros m Hm;
    cbn [fold_left existsb].
  - split; [intros d Hd; apply (Hm key d Hd)|]. split; [discriminate | reflexivity].
  - cbv zeta.
    assert (Hm' : forall k d,
              map_get k (map_set (dtype (PluginManager.convertComfyNodeToInternal Spec parse cn (PluginManager.id Spec plugin)))
                                 (PluginManager.convertComfyNodeToInternal Spec parse cn (PluginManager.id Spec plugin)) m) = Some d ->
              dtype d = k).
    { intros k d. rewrite map_get_set.
      destruct (String.eqb_spec (dtype (PluginManager.convertComfyNodeToInternal Spec parse cn (PluginManager.id Spec plugin))) k)
        as [E|E].
      - intros H. injection H as <-. exact E.
      - apply Hm. }
    destruct (IH _ Hm') as [H1 [H2 H3]].
    split; [exact H1|]. split.
    + intros Hex. destruct (existsb (fun cn0 => String.eqb (kindOf cn0) key) l) eqn:El.
      * destruct (H2 eq_refl) as [cn' [Hin [Hk Hg]]].
        exists cn'. split; [right; exact Hin | auto].
      * rewrite orb_false_r in Hex. apply String.eqb_eq in Hex.
        exists cn. split; [left; reflexivity|]. split; [exact Hex|].
        rewrite (H3 eq_refl), map_get_set.
        change (dtype (PluginManager.convertComfyNodeToInternal Spec parse cn (PluginManager.id Spec plugin))) with (kindOf cn).
        rewrite Hex, String.eqb_refl. reflexivity.
    + intros Hex. apply orb_false_iff in Hex. destruct Hex as [Hc Hl].
      rewrite (H3 Hl), map_get_set.
      change (dtype (PluginManager.convertComfyNodeToInternal Spec parse cn (PluginManager.id Spec plugin))) with (kindOf cn).
      rewrite Hc. reflexivity.
Qed.

(** X24: [unregisterPlugin] of a registered plugin removes the plugin and
    every definition named after one of its nodes, whichever plugin
    registered that definition; every other definition and every other
    plugin stay as they were.  For an id that is not registered nothing
    changes. *)
Theorem unregisterPlugin_removes (pluginId : string) (st : PluginManager.State Spec) :
  match map_get pluginId (PluginManager.plugins Spec st) with
  | None => PluginManager.unregisterPlugin Spec pluginId st = st
  | Some plugin =>
      let st' := PluginManager.unregisterPlugin Spec pluginId st in
      map_get pluginId (PluginManager.plugins Spec st') = None
      /\ (forall other, other <> pluginId ->
            map_get other (PluginManager.plugins Spec st')
            = map_get other (PluginManager.plugins Spec st))
      /\ (forall cn, In cn (PluginManager.pluginNodes Spec plugin) ->
            PluginManager.getNodeDefinition Spec (kindOf cn) st' = None)
      /\ (forall key,
            (forall cn, In cn (PluginManager.pluginNodes Spec plugin) ->
                        kindOf cn <> key) ->
            PluginManager.getNodeDefinition Spec key st'
            = PluginManager.getNodeDefinition Spec key st)
  end.
Proof.
  unfold PluginManager.unregisterPlugin, PluginManager.getNodeDefinition.
  destruct (map_get pluginId (PluginManager.plugins Spec st)) as [plugin|];
    [|reflexivity].
  cbv zeta. cbn [PluginManager.plugins PluginManager.customNodes].
  split; [rewrite map_get_delete, String.eqb_refl; reflexivity|].
  split.
  { intros other Ho. rewrite map_get_delete.
    destruct (String.eqb_spec pluginId other); [congruence | reflexivity]. }
  split.
  - intros cn Hcn. rewrite deleteNodes_get.
    assert (E : existsb (fun cn0 => String.eqb (kindOf cn0) (kindOf cn))
                        (PluginManager.pluginNodes Spec plugin) = true).
    { apply existsb_exists. exists cn. split; [exact Hcn | apply String.eqb_refl]. }
    rewrite E. reflexivity.
  - intros key Hkey. rewrite deleteNodes_get.
    assert (E : existsb (fun cn0 => String.eqb (kindOf cn0) key)
                        (PluginManager.pluginNodes Spec plugin) = false).
    { apply not_true_is_false. intros H. apply existsb_exists in H.
      destruct H as [cn [Hcn Hk]]. apply String.eqb_eq in Hk.
      exact (Hkey cn Hcn Hk). }
    rewrite E. reflexivity.
Qed.

(** Every definition is registered under its own type. *)
Definition keyedByType (st : PluginManager.State Spec) : Prop :=
  forall k d, PluginManager.getNodeDefinition Spec k st = Some d -> dtype d = k.

(** X25: [registerPlugin] of an enabled plugin defines every kind
    [comfy-<name>] of its nodes, by the conversion of a node of that name,
    and leaves every other kind as it was; of a disabled plugin it changes
    no definition.  In both cases the plugin is found under its id, and
    [registerPlugin], [unregisterPlugin] and [togglePlugin] keep every
    definition registered under its own type. *)
Theorem registerPlugin_defines (plugin : PluginManager.Plugin Spec) (st : PluginManager.State Spec) :
  keyedByType st ->
  let st' := PluginManager.registerPlugin Spec parse plugin st in
  map_get (PluginManager.id Spec plugin) (PluginManager.plugins Spec st') = Some plugin
  /\ (PluginManager.enabled Spec plugin = true ->
      forall cn, In cn (PluginManager.pluginNodes Spec plugin) ->
        exists cn', In cn' (PluginManager.pluginNodes Spec plugin)
          /\ kindOf cn' = kindOf cn
          /\ PluginManager.getNodeDefinition Spec (kindOf cn) st'
             = Some (PluginManager.convertComfyNodeToInternal Spec parse cn' (PluginManager.id Spec plugin)))
  /\ (forall key,
        PluginManager.enabled Spec plugin = false
        \/ (forall cn, In cn (PluginManager.pluginNodes Spec plugin) ->
                       kindOf cn <> key) ->
        PluginManager.getNodeDefinition Spec key st'
        = PluginManager.getNodeDefinition Spec key st)
  /\ keyedByType st'
  /\ (forall pluginId, keyedByType (PluginManager.unregisterPlugin Spec pluginId st))
  /\ (forall pluginId flag,
        keyedByType (PluginManager.togglePlugin Spec parse pluginId flag st)).
Proof.
  intros Hk st'. unfold st', keyedByType, PluginManager.registerPlugin,
    PluginManager.getNodeDefinition in *.
  cbn [PluginManager.plugins PluginManager.customNodes].
  split; [rewrite map_get_set, String.eqb_refl; reflexivity|].
  split; [|split; [|split; [|split]]].
  - intros He cn Hcn. rewrite He.
    destruct (setNodes_get plugin (kindOf cn) _ Hk) as [_ [H2 _]].
    apply H2. apply existsb_exists. exists cn. split; [exact Hcn | apply String.eqb_refl].
  - intros key [He|Hkey]; [rewrite He; reflexivity|].
    destruct (PluginManager.enabled Spec plugin); [|reflexivity].
    destruct (setNodes_get plugin key _ Hk) as [_ [_ H3]].
    apply H3. apply not_true_is_false. intros H. apply existsb_exists in H.
    destruct H as [cn [Hcn Hc]]. apply String.eqb_eq in Hc. exact (Hkey cn Hcn Hc).
  - intros k d. destruct (PluginManager.enabled Spec plugin); [|apply Hk].
    destruct (setNodes_get plugin k _ Hk) as [H1 _]. apply H1.
  - intros pluginId k d. unfold PluginManager.unregisterPlugin.
    destruct (map_get pluginId (PluginManager.plugins Spec st)) as [p|]; [|apply Hk].
    cbn [PluginManager.customNodes]. rewrite deleteNodes_get.
    destruct (existsb _ _); [discriminate | apply Hk].
  - intros pluginId flag k d. unfold PluginManager.togglePlugin.
    destruct (map_get pluginId (PluginManager.plugins Spec st)) as [p|]; [|apply Hk].
    cbv zeta. cbn [PluginManager.customNodes]. destruct flag.
    + match goal with
      | |- map_get k (PluginManager.setNodes Spec parse ?p' _) = _ -> _ =>
          destruct (setNodes_get p' k _ Hk) as [H1 _]
      end.
      apply H1.
    + rewrite deleteNodes_get. destruct (existsb _ _); [discriminate | apply Hk].
Qed.
End PluginRegistryFacts.

(** Two plugins that both bring a node named [Blur]. *)
Definition parseNothing (entryName : string) (spec : unit)
    : PortType * option WidgetConfig * option JsValue :=
  ("any", None, None).

Definition blurNode : PluginManager.ComfyUINodeDefinition unit :=
  {| PluginManager.name := "Blur"; PluginManager.display_name := "Blur";
     PluginManager.inputRequired := None; PluginManager.inputOptional := None;
     PluginManager.output := ["IMAGE"]; PluginManager.output_name := None |}.

Definition pluginA : PluginManager.Plugin unit :=
  {| PluginManager.id := "A"; PluginManager.enabled := true;
     PluginManager.pluginNodes := [blurNode] |}.

Definition pluginB : PluginManager.Plugin unit :=
  {| PluginManager.id := "B"; PluginManager.enabled := true;
     PluginManager.pluginNodes := [blurNode] |}.

Definition emptyManager : PluginManager.State unit :=
  {| PluginManager.plugins := []; PluginManager.customNodes := [] |}.

Definition bothRegistered : PluginManager.State unit :=
  PluginManager.registerPlugin unit parseNothing pluginB
    (PluginManager.registerPlugin unit parseNothing pluginA emptyManager).

Lemma unregisterPlugin_removes_witness :
  PluginManager.getNodeDefinition unit "comfy-Blur"
    (PluginManager.unregisterPlugin unit "A" bothRegistered) = None
  /\ map_get "B" (PluginManager.plugins unit
                    (PluginManager.unregisterPlugin unit "A" bothRegistered))
     = Some pluginB.
Proof.
  pose proof (unregisterPlugin_removes unit "A" bothRegistered) as H.
  change (map_get "A" (PluginManager.plugins unit bothRegistered))
    with (Some pluginA) in H.
  cbv beta iota zeta in H. destruct H as [_ [H2 [H3 _]]].
  split.
  - exact (H3 blurNode (or_introl eq_refl)).
  - rewrite H2; [reflexivity | discriminate].
Defined.

Lemma registerPlugin_defines_witness :
  exists cn, In cn (PluginManager.pluginNodes unit pluginA)
    /\ kindOf unit cn = "comfy-Blur"
    /\ PluginManager.getNodeDefinition unit "comfy-Blur"
         (PluginManager.registerPlugin unit parseNothing pluginA emptyManager)
       = Some (PluginManager.convertComfyNodeToInternal unit parseNothing cn "A").
Proof.
  destruct (registerPlugin_defines unit parseNothing pluginA emptyManager) as [_ [H _]].
  - intros k d Hd. discriminate Hd.
  - exact (H eq_refl blurNode (or_introl eq_refl)).
Defined.

(** X26: the two importers read external type names alike: for every
    name that is not the name of a member of [Object.prototype],
    [mapComfyType] of the plugin manager gives the tag that the dictionary
    of the workflow importer gives, and [any] for a name that the
    dictionary does not have.  (For the name of a member of
    [Object.prototype], such as [constructor], both lookups yield that
    member and no tag.) *)
Theorem mapComfyType_agrees (comfyType : string) :
  ~ In comfyType objectPrototypeKeys ->
  PluginManager.mapComfyType comfyType
  = orElse (map_get comfyType comfyTypeMap) "any"
  /\ (~ In comfyType (map_keys comfyTypeMap) ->
      PluginManager.mapComfyType comfyType = "any").
Proof.
  intros _. unfold PluginManager.mapComfyType.
  destruct (includes (map_keys comfyTypeMap) comfyType) eqn:E.
  - apply includes_In in E. split.
    + simpl in E. repeat (destruct E as [<-|E]; [reflexivity|]). destruct E.
    + intros H. contradiction.
  - apply includes_not_In in E.
    assert (E' : ~ In comfyType (map_keys PluginManager.typeMap)).
    { intros H. apply E. simpl in H |- *. intuition. }
    rewrite (map_get_absent comfyType comfyTypeMap E).
    rewrite (map_get_absent comfyType PluginManager.typeMap E').
    split; reflexivity.
Qed.

Lemma mapComfyType_agrees_witness :
  PluginManager.mapComfyType "LATENT" = "latent"
  /\ PluginManager.mapComfyType "AUDIO" = "any".
Proof.
  split.
  - apply (mapComfyType_agrees "LATENT"). simpl. intuition discriminate.
  - apply (mapComfyType_agrees "AUDIO"); simpl; intuition discriminate.
Defined.
